(** * Admission control and tool invocation of the chat platform backend

    A shallow embedding of
    - [app/core/rate_limiter.py]  (RateLimiter, TokenBucket),
    - [app/api/deps.py]           (check_rate_limit),
    - [app/core/security.py]      (sign_request, verify_signature),
    - [app/mcp/client.py]         (MCPClient),
    together with the properties of these functions.

    Conventions.  Python [int] values are [Z] and [str] is [string].  A
    Python [float] is an IEEE 754 double: a finite one is the rational
    it denotes, in [Qc], and each arithmetic operation rounds its exact
    result to the nearest double, ties to even.  The numbers in play
    stay in the range of the finite doubles: infinities, NaN, a result
    of magnitude [2 ^ 1024] or more, and the OverflowError of [float(n)]
    for an [int] of that size are outside the model.
    Code that talks to Redis, to the clock or to the network runs in the
    monad [M] over an explicit [World]; what the outside answers is given
    by an [Env]. *)

From Stdlib Require Import ZArith QArith Qround Qcanon Qpower Ascii String.
From Stdlib Require Import Lia Lqa.
From stdpp Require Import base numbers option list strings pretty gmap.

Local Open Scope Z_scope.

(** ** Python values *)

Module Py.

(** *** Rounding to a double

    The nearest integer to [q], the even one of two that are equally
    near. *)
Definition rne (q : Q) : Z :=
  let f := Qfloor q in
  match Qcompare (q - inject_Z f) (1 # 2) with
  | Lt => f
  | Gt => f + 1
  | Eq => if Z.even f then f else f + 1
  end.

(** For [q > 0], the exponent [e] with [2 ^ e <= q < 2 ^ (e + 1)]. *)
Definition binade (q : Q) : Z :=
  let e := Z.log2 (Qnum q) - Z.log2 (Zpos (Qden q)) in
  if Qle_bool (2 ^ e) q then e else e - 1.

(** The smallest exponent of a normal double. *)
Definition emin : Z := -1022.

(** The exponent of the unit in the last of the 53 places of [q]; it
    stays at [emin - 52] in the subnormal range. *)
Definition ulp_exp (q : Q) : Z := Z.max (binade q) emin - 52.

(** The multiple of [2 ^ k] nearest to [q]. *)
Definition round_at (k : Z) (q : Q) : Q :=
  (inject_Z (rne (q / 2 ^ k)) * 2 ^ k)%Q.

Definition round_pos (q : Q) : Q := round_at (ulp_exp q) q.

Definition round64Q (q : Q) : Q :=
  match Qcompare q 0 with
  | Eq => 0%Q
  | Gt => round_pos q
  | Lt => (- round_pos (- q))%Q
  end.

(** The double nearest to [x]. *)
Definition round64 (x : Qc) : Qc := Q2Qc (round64Q x).

(** [x + y], [x - y] and [x * y] on floats. *)
Definition float_add (x y : Qc) : Qc := round64 (x + y).
Definition float_sub (x y : Qc) : Qc := round64 (x - y).
Definition float_mul (x y : Qc) : Qc := round64 (x * y).

(** An [int] as a number. *)
Definition exact (n : Z) : Qc := Q2Qc (inject_Z n).

(** [float(n)], also where an [int] meets a float in arithmetic. *)
Definition float_of_int (n : Z) : Qc := round64 (exact n).

(** [int(x)] on a float: truncation towards zero. *)
Definition int_of_float (x : Qc) : Z :=
  Z.quot (Qnum (this x)) (Zpos (Qden (this x))).

(** A number that is an [int] or a [float], as the result of
    [min(bucket_size, x)] is. *)
Inductive Num :=
  | PInt (n : Z)
  | PFloat (x : Qc).

Definition value (v : Num) : Qc :=
  match v with
  | PInt n => exact n
  | PFloat x => x
  end.

(** [min(a, b)] with an [int] and a [float]: Python returns [a] unless
    [b < a]; the comparison is exact. *)
Definition num_min (a : Z) (b : Qc) : Num :=
  if bool_decide (b < exact a)%Qc then PFloat b else PInt a.

(** [v >= n] with an [int] on the right: exact. *)
Definition num_ge (v : Num) (n : Z) : bool := bool_decide (exact n ≤ value v)%Qc.

(** [v - n] with an [int] on the right: exact on an [int], float
    subtraction on a [float]. *)
Definition num_sub (v : Num) (n : Z) : Num :=
  match v with
  | PInt m => PInt (m - n)
  | PFloat x => PFloat (float_sub x (float_of_int n))
  end.

(** [int(v)]. *)
Definition int_of (v : Num) : Z :=
  match v with
  | PInt m => m
  | PFloat x => int_of_float x
  end.

(** Exceptions that the modelled code raises or catches.  The httpx
    classes are nested as in the library: [TimeoutException] and
    [HTTPStatusError] are both [HTTPError]s, and everything here is an
    [Exception]. *)
Inductive Exc :=
  | TimeoutException (msg : string)
  | HTTPStatusError (msg : string) (status_code : Z) (text : string)
  | HTTPError (msg : string)
  | PyException (msg : string)
  | HTTPException (status_code : Z) (detail : string)
                  (headers : list (string * string)).

(** [str(e)]. *)
Definition str_exc (e : Exc) : string :=
  match e with
  | TimeoutException m | HTTPStatusError m _ _ | HTTPError m
  | PyException m => m
  | HTTPException _ d _ => d
  end.

Definition is_HTTPError (e : Exc) : bool :=
  match e with
  | TimeoutException _ | HTTPStatusError _ _ _ | HTTPError _ => true
  | _ => false
  end.

Inductive Result (A : Type) :=
  | Ok (a : A)
  | Raise (e : Exc).
Global Arguments Ok {A} a.
Global Arguments Raise {A} e.

End Py.
Export Py.

(** ** Settings ([app/config.py]) *)

Record Settings := {
  RATE_LIMIT_IP_PER_MINUTE : Z;
  RATE_LIMIT_IP_PER_HOUR : Z;
  RATE_LIMIT_USER_PER_MINUTE : Z;
  RATE_LIMIT_USER_PER_HOUR : Z;
  RATE_LIMIT_TOOL_PER_MINUTE : Z;
  RATE_LIMIT_BURST_SIZE : Z;
  MCP_DEFAULT_TIMEOUT : Z;
  MCP_MAX_RETRIES : Z;
  MCP_RETRY_DELAY : Qc;
  MCP_SIGNING_SECRET : string;
}.

(** ** The Redis store

    Only the commands the limiters issue.  A sorted set maps members to
    scores; the only members ever written are [str(now)], and since the
    printed form of a float determines the float, a member is
    identified with the number it prints.  String values are the
    numbers written by [TokenBucket]: a value holds the number its
    text denotes.  [ttl] records the expiry, in seconds, last set on a
    key.  As in Redis, a sorted set that becomes empty is removed
    together with its expiry.  A [Redis.t] is what the store holds at
    the time of a call: a key whose expiry has run out is not in it, and
    the running out itself, between calls, is not part of the model. *)

Module Redis.

Record t := {
  zsets : gmap string (gmap Qc Qc);
  strs : gmap string Qc;
  ttl : gmap string Z;
}.

Definition empty : t := {| zsets := ∅; strs := ∅; ttl := ∅ |}.

Definition zset (key : string) (r : t) : gmap Qc Qc :=
  default ∅ (zsets r !! key).

Definition put_zset (key : string) (z : gmap Qc Qc) (r : t) : t :=
  if decide (z = ∅)
  then {| zsets := delete key (zsets r); strs := strs r;
          ttl := if decide (is_Some (strs r !! key)) then ttl r
                 else delete key (ttl r) |}
  else {| zsets := <[key := z]> (zsets r); strs := strs r; ttl := ttl r |}.

(** ZREMRANGEBYSCORE key lo hi: drop the members with [lo <= score <= hi]. *)
Definition zremrangebyscore (key : string) (lo hi : Qc) (r : t) : t :=
  put_zset key
    (filter (λ ms : Qc * Qc, ¬ (lo ≤ ms.2 ∧ ms.2 ≤ hi)%Qc) (zset key r)) r.

(** ZCARD key. *)
Definition zcard (key : string) (r : t) : Z := Z.of_nat (size (zset key r)).

(** ZADD key score member: adds the member or updates its score. *)
Definition zadd (key : string) (member score : Qc) (r : t) : t :=
  put_zset key (<[member := score]> (zset key r)) r.

(** ZREM key member. *)
Definition zrem (key : string) (member : Qc) (r : t) : t :=
  put_zset key (delete member (zset key r)) r.

Definition exists_key (key : string) (r : t) : bool :=
  bool_decide (is_Some (zsets r !! key) ∨ is_Some (strs r !! key)).

(** DEL key.  A key holds one value: its sorted set if it has one,
    else its string. *)
Definition del (key : string) (r : t) : t :=
  {| zsets := delete key (zsets r);
     strs := if decide (is_Some (zsets r !! key)) then strs r
             else delete key (strs r);
     ttl := delete key (ttl r) |}.

(** EXPIRE key seconds: no effect on a missing key; with a time that is
    not positive the key is deleted at once. *)
Definition expire (key : string) (seconds : Z) (r : t) : t :=
  if exists_key key r
  then
    if seconds <=? 0 then del key r
    else {| zsets := zsets r; strs := strs r;
            ttl := <[key := seconds]> (ttl r) |}
  else r.

(** GET key. *)
Definition get (key : string) (r : t) : option Qc := strs r !! key.

(** SET key value: overwrites whatever the key held and clears its expiry. *)
Definition set (key : string) (v : Qc) (r : t) : t :=
  {| zsets := delete key (zsets r);
     strs := <[key := v]> (strs r);
     ttl := delete key (ttl r) |}.

End Redis.

(** ** The world outside the program *)

Record RateInfo := {
  limit : Z;
  remaining : Z;
  reset : Z;
  window : Z;
}.

(** One completed call of [RateLimiter.is_allowed]: its arguments and
    what it returned. *)
Record LimiterCall := {
  call_key : string;
  call_limit : Z;
  call_window : Z;
  call_allowed : bool;
  call_info : RateInfo;
}.

(** [clock] counts the readings of [time.time()] so far, [posts] the
    HTTP POST requests sent, [slept] lists the [asyncio.sleep] delays in
    order, and [calls] the completed limiter checks in order. *)
Record World := {
  redis : Redis.t;
  clock : nat;
  posts : nat;
  slept : list Qc;
  calls : list LimiterCall;
}.

Definition set_redis (r : Redis.t) (w : World) : World :=
  {| redis := r; clock := clock w; posts := posts w; slept := slept w;
     calls := calls w |}.
Definition tick (w : World) : World :=
  {| redis := redis w; clock := S (clock w); posts := posts w;
     slept := slept w; calls := calls w |}.
Definition count_post (w : World) : World :=
  {| redis := redis w; clock := clock w; posts := S (posts w);
     slept := slept w; calls := calls w |}.
Definition add_sleep (d : Qc) (w : World) : World :=
  {| redis := redis w; clock := clock w; posts := posts w;
     slept := slept w ++ [d]; calls := calls w |}.
Definition add_call (c : LimiterCall) (w : World) : World :=
  {| redis := redis w; clock := clock w; posts := posts w;
     slept := slept w; calls := calls w ++ [c] |}.

Definition world0 : World :=
  {| redis := Redis.empty; clock := 0%nat; posts := 0%nat; slept := [];
     calls := [] |}.

(** ** The monad: state over [World], with Python exceptions *)

Definition M (A : Type) : Type := World → Result A * World.

Definition ret {A} (a : A) : M A := λ w, (Ok a, w).
Definition raise {A} (e : Exc) : M A := λ w, (Raise e, w).
Definition bind {A B} (m : M A) (k : A → M B) : M B := λ w,
  match m w with
  | (Ok a, w') => k a w'
  | (Raise e, w') => (Raise e, w')
  end.
(** [try: m  except Exception as e: h e]. *)
Definition try_except {A} (m : M A) (h : Exc → M A) : M A := λ w,
  match m w with
  | (Ok a, w') => (Ok a, w')
  | (Raise e, w') => h e w'
  end.
Definition lift {A} (r : Result A) : M A := λ w, (r, w).

Global Instance M_ret : MRet M := @ret.
Global Instance M_bind : MBind M := λ A B k m, bind m k.

(** ** JSON values, as [response.json()] returns them

    [JNull] is Python's [None].  [JObj] holds the parsed [dict]: its
    keys are distinct and in insertion order, and a lookup returns the
    first binding of the key. *)

Module Json.

#[warnings="-register-all"]
Inductive t :=
  | JNull
  | JBool (b : bool)
  | JInt (n : Z)
  | JFloat (x : Qc)
  | JStr (s : string)
  | JArr (xs : list t)
  | JObj (fields : list (string * t)).

Fixpoint assoc (k : string) (fields : list (string * t)) : option t :=
  match fields with
  | [] => None
  | (k', v) :: rest => if String.eqb k k' then Some v else assoc k rest
  end.

(** [type(v).__name__]. *)
Definition type_name (v : t) : string :=
  match v with
  | JNull => "NoneType"
  | JBool _ => "bool"
  | JInt _ => "int"
  | JFloat _ => "float"
  | JStr _ => "str"
  | JArr _ => "list"
  | JObj _ => "dict"
  end.

Definition TypeError (msg : string) : Exc := PyException msg.
Definition AttributeError (msg : string) : Exc := PyException msg.

Fixpoint is_substring (needle hay : string) : bool :=
  String.prefix needle hay ||
  match hay with
  | EmptyString => false
  | String _ rest => is_substring needle rest
  end.

Definition is_str (s : string) (v : t) : bool :=
  match v with
  | JStr s' => String.eqb s s'
  | _ => false
  end.

(** [key in data], with a string on the left: key test on a dict,
    element test on a list, substring test on a string; other values
    are not containers.  The wording of the interpreter's messages is
    CPython's, and nothing below depends on it. *)
Definition contains (key : string) (data : t) : Result bool :=
  match data with
  | JObj fields => Ok (bool_decide (is_Some (assoc key fields)))
  | JArr xs => Ok (existsb (is_str key) xs)
  | JStr s => Ok (is_substring key s)
  | _ => Raise (TypeError ("argument of type '" +:+ type_name data
                           +:+ "' is not iterable"))
  end.

(** [data[key]], with a string key, on a value for which
    [key in data] held. *)
Definition getitem (key : string) (data : t) : Result t :=
  match data with
  | JObj fields =>
      match assoc key fields with
      | Some v => Ok v
      | None => Raise (PyException ("'" +:+ key +:+ "'"))
      end
  | JArr _ => Raise (TypeError "list indices must be integers or slices, not str")
  | JStr _ => Raise (TypeError "string indices must be integers, not 'str'")
  | _ => Raise (TypeError ("'" +:+ type_name data
                           +:+ "' object is not subscriptable"))
  end.

(** [data.get(key, dflt)]: only a dict has the method. *)
Definition get (key : string) (dflt : t) (data : t) : Result t :=
  match data with
  | JObj fields => Ok (default dflt (assoc key fields))
  | _ => Raise (AttributeError ("'" +:+ type_name data
                                +:+ "' object has no attribute 'get'"))
  end.

Definition chars (s : string) : list t :=
  (λ c, JStr (String c EmptyString)) <$> String.list_ascii_of_string s.

(** [for x in data]: the elements of a list, the keys of a dict, the
    characters of a string. *)
Definition iter (data : t) : Result (list t) :=
  match data with
  | JArr xs => Ok xs
  | JObj fields => Ok ((λ kv, JStr kv.1) <$> fields)
  | JStr s => Ok (chars s)
  | _ => Raise (TypeError ("'" +:+ type_name data
                           +:+ "' object is not iterable"))
  end.

End Json.
Export Json(JNull, JBool, JInt, JFloat, JStr, JArr, JObj).

(** ** HTTP, as seen through httpx *)

Record Request := {
  url : string;
  req_headers : list (string * string);
  json_body : Json.t;
}.

(** A response object: its status, its body text, and what
    [response.json()] gives (a value, or the exception it raises on a
    body that is not JSON). *)
Record Response := {
  status_code : Z;
  text : string;
  json : Result Json.t;
}.

(** [response.raise_for_status()]: anything but a 2xx status raises. *)
Definition is_success (status : Z) : bool := (200 <=? status) && (status <=? 299).

Definition raise_for_status (resp : Response) : Result unit :=
  if is_success (status_code resp) then Ok ()
  else Raise (HTTPStatusError
                ("HTTP status " +:+ pretty (status_code resp))
                (status_code resp) (text resp)).

(** What the outside answers.  [wall_clock k] is the time, in seconds
    since the epoch, at the [k]-th reading of the clock;
    [http_post k req] is what the [k]-th POST, sending [req], comes back
    with; [decrypt_value] is Fernet decryption under the configured key
    (it raises on a bad token); [json_dumps] is [json.dumps]. *)
Record Env := {
  wall_clock : nat → Qc;
  http_post : nat → Request → Result Response;
  decrypt_value : string → Result string;
  json_dumps : Json.t → string;
}.

(** The [k]-th reading of [time.time()]: a float. *)
Definition time_time (env : Env) (k : nat) : Qc := round64 (wall_clock env k).

Section Effects.
Context (env : Env).

Definition now_ : M Qc := λ w, (Ok (time_time env (clock w)), tick w).

Definition post (req : Request) : M Response := λ w,
  (http_post env (posts w) req, count_post w).

Definition sleep (d : Qc) : M unit := λ w, (Ok (), add_sleep d w).

Definition with_redis {A} (f : Redis.t → A * Redis.t) : M A := λ w,
  let '(a, r) := f (redis w) in (Ok a, set_redis r w).

Definition record_call (c : LimiterCall) : M unit := λ w, (Ok (), add_call c w).
End Effects.

(** ** [app/core/rate_limiter.py] *)

Module RateLimiter.
Section RateLimiter.
Context (settings : Settings) (env : Env).

(** The four commands queued on the pipeline.  [pipe.execute()] runs
    them as one MULTI/EXEC transaction; the result is [results[1]],
    the cardinality after eviction and before the insertion, and the
    store after all four. *)
Definition pipeline (key : string) (now : Qc) (window_seconds : Z)
    (r : Redis.t) : Z * Redis.t :=
  let window_start := float_sub now (float_of_int window_seconds) in
  let r1 := Redis.zremrangebyscore key 0%Qc window_start r in
  let current_count := Redis.zcard key r1 in
  let r2 := Redis.zadd key now now r1 in
  let r3 := Redis.expire key (window_seconds + 1) r2 in
  (current_count, r3).

Definition make_info (limit_ current_count : Z) (now : Qc)
    (window_seconds : Z) : RateInfo :=
  {| limit := limit_;
     remaining := Z.max 0 (limit_ - current_count - 1);
     reset := int_of_float (float_add now (float_of_int window_seconds));
     window := window_seconds |}.

Definition is_allowed (key : string) (limit_ window_seconds : Z)
    : M (bool * RateInfo) :=
  now ← now_ env;
  current_count ← with_redis (pipeline key now window_seconds);
  let info := make_info limit_ current_count now window_seconds in
  if limit_ <=? current_count then
    with_redis (λ r, ((), Redis.zrem key now r));;
    record_call {| call_key := key; call_limit := limit_;
                   call_window := window_seconds;
                   call_allowed := false; call_info := info |};;
    mret (false, info)
  else
    record_call {| call_key := key; call_limit := limit_;
                   call_window := window_seconds;
                   call_allowed := true; call_info := info |};;
    mret (true, info).

Definition ip_key_minute (ip_address : string) : string :=
  "ratelimit:ip:" +:+ ip_address +:+ ":minute".
Definition ip_key_hour (ip_address : string) : string :=
  "ratelimit:ip:" +:+ ip_address +:+ ":hour".
Definition user_key_minute (user_id : string) : string :=
  "ratelimit:user:" +:+ user_id +:+ ":minute".
Definition user_key_hour (user_id : string) : string :=
  "ratelimit:user:" +:+ user_id +:+ ":hour".
Definition tool_key (tool_id user_id : string) : string :=
  "ratelimit:tool:" +:+ tool_id +:+ ":user:" +:+ user_id +:+ ":minute".

Definition check_ip_limit (ip_address : string) : M (bool * RateInfo) :=
  '(allowed, info) ← is_allowed (ip_key_minute ip_address)
                        (RATE_LIMIT_IP_PER_MINUTE settings) 60;
  if negb allowed then mret (false, info)
  else
    '(allowed, info) ← is_allowed (ip_key_hour ip_address)
                          (RATE_LIMIT_IP_PER_HOUR settings) 3600;
    mret (allowed, info).

Definition check_user_limit (user_id : string) : M (bool * RateInfo) :=
  '(allowed, info) ← is_allowed (user_key_minute user_id)
                        (RATE_LIMIT_USER_PER_MINUTE settings) 60;
  if negb allowed then mret (false, info)
  else
    '(allowed, info) ← is_allowed (user_key_hour user_id)
                          (RATE_LIMIT_USER_PER_HOUR settings) 3600;
    mret (allowed, info).

Definition check_tool_limit (tool_id user_id : string)
    : M (bool * RateInfo) :=
  is_allowed (tool_key tool_id user_id)
    (RATE_LIMIT_TOOL_PER_MINUTE settings) 60.

Definition get_usage (key : string) (window_seconds : Z) : M Z :=
  now ← now_ env;
  let window_start := float_sub now (float_of_int window_seconds) in
  with_redis (λ r, ((), Redis.zremrangebyscore key 0%Qc window_start r));;
  with_redis (λ r, (Redis.zcard key r, r)).

End RateLimiter.
End RateLimiter.

Module TokenBucket.
Section TokenBucket.
Context (settings : Settings) (env : Env).

Definition bucket_key (key : string) : string := "bucket:" +:+ key.
Definition last_update_key (key : string) : string :=
  "bucket:" +:+ key +:+ ":last".

(** [bucket_size or settings.RATE_LIMIT_BURST_SIZE]: [None] and [0]
    both give the configured size. *)
Definition effective_size (bucket_size : option Z) : Z :=
  match bucket_size with
  | Some b => if b =? 0 then RATE_LIMIT_BURST_SIZE settings else b
  | None => RATE_LIMIT_BURST_SIZE settings
  end.

(** [float(s)] on a stored text: the double nearest to the number. *)
Definition float_of_str (v : Qc) : Qc := round64 v.

(** The tokens after the lazy refill.  [results[0] or bucket_size] is
    the stored text or the [int]; [results[1] or now] is the stored
    text or the float [now]. *)
Definition refilled (bucket_size : Z) (refill_rate now : Qc)
    (stored_tokens stored_last : option Qc) : Num :=
  let current_tokens :=
    match stored_tokens with
    | Some v => float_of_str v
    | None => float_of_int bucket_size
    end in
  let last_update :=
    match stored_last with
    | Some v => float_of_str v
    | None => now
    end in
  let elapsed := float_sub now last_update in
  let tokens_to_add := float_mul elapsed refill_rate in
  num_min bucket_size (float_add current_tokens tokens_to_add).

(** The second pipeline: both values written, both expiries set. *)
Definition persist (key : string) (new_tokens now : Qc) (r : Redis.t)
    : Redis.t :=
  let r1 := Redis.set (bucket_key key) new_tokens r in
  let r2 := Redis.set (last_update_key key) now r1 in
  let r3 := Redis.expire (bucket_key key) 3600 r2 in
  Redis.expire (last_update_key key) 3600 r3.

Definition consume (key : string) (tokens : Z) (bucket_size : option Z)
    (refill_rate : Qc) : M (bool * Z) :=
  let bucket_size := effective_size bucket_size in
  now ← now_ env;
  results ← with_redis (λ r,
    ((Redis.get (bucket_key key) r, Redis.get (last_update_key key) r), r));
  let current_tokens :=
    refilled bucket_size refill_rate now results.1 results.2 in
  if num_ge current_tokens tokens then
    let new_tokens := num_sub current_tokens tokens in
    with_redis (λ r, ((), persist key (value new_tokens) now r));;
    mret (true, int_of new_tokens)
  else
    mret (false, int_of current_tokens).

End TokenBucket.
End TokenBucket.

(** ** [app/api/deps.py] *)

Module Deps.
Section Deps.
Context (settings : Settings) (env : Env).

(** The part of the ORM's [User] that the gate reads. *)
Record User := { id : string }.

Definition HTTP_429_TOO_MANY_REQUESTS : Z := 429.

Definition rate_limit_headers (info : RateInfo) : list (string * string) :=
  [ ("X-RateLimit-Limit", pretty (limit info));
    ("X-RateLimit-Remaining", pretty (remaining info));
    ("X-RateLimit-Reset", pretty (reset info));
    ("Retry-After", pretty (window info)) ].

Definition rate_limit_exceeded (info : RateInfo) : Exc :=
  HTTPException HTTP_429_TOO_MANY_REQUESTS "Rate limit exceeded"
    (rate_limit_headers info).

(** [client] is [request.client.host] when the request has a client. *)
Definition check_rate_limit (client : option string) (user : option User)
    : M unit :=
  let client_ip := default "unknown" client in
  '(allowed, info) ← RateLimiter.check_ip_limit settings env client_ip;
  if negb allowed then raise (rate_limit_exceeded info)
  else
    match user with
    | Some u =>
        '(allowed, info) ← RateLimiter.check_user_limit settings env (id u);
        if negb allowed then raise (rate_limit_exceeded info)
        else mret ()
    | None => mret ()
    end.

End Deps.
End Deps.


(** ** [hashlib.sha256] and [hmac] (FIPS 180-4, RFC 2104)

    Bytes are integers in [0, 255]; 32-bit words are integers reduced
    modulo [2^32]. *)

Module Hash.

Definition is_byte (b : Z) : Prop := 0 ≤ b < 256.

Definition w32 (x : Z) : Z := x mod 2 ^ 32.
Definition add32 (x y : Z) : Z := w32 (x + y).
Definition not32 (x : Z) : Z := Z.lxor x 0xFFFFFFFF.
Definition rotr (n x : Z) : Z :=
  Z.lor (Z.shiftr x n) (w32 (Z.shiftl x (32 - n))).
Definition shr (n x : Z) : Z := Z.shiftr x n.

Definition Ch (x y z : Z) : Z := Z.lxor (Z.land x y) (Z.land (not32 x) z).
Definition Maj (x y z : Z) : Z :=
  Z.lxor (Z.lxor (Z.land x y) (Z.land x z)) (Z.land y z).
Definition Sigma0 (x : Z) : Z := Z.lxor (Z.lxor (rotr 2 x) (rotr 13 x)) (rotr 22 x).
Definition Sigma1 (x : Z) : Z := Z.lxor (Z.lxor (rotr 6 x) (rotr 11 x)) (rotr 25 x).
Definition sigma0 (x : Z) : Z := Z.lxor (Z.lxor (rotr 7 x) (rotr 18 x)) (shr 3 x).
Definition sigma1 (x : Z) : Z := Z.lxor (Z.lxor (rotr 17 x) (rotr 19 x)) (shr 10 x).

(** The round constants and the initial hash value are the first 32
    bits of the fractional parts of the cube roots of the first 64
    primes, and of the square roots of the first 8. *)
Definition is_prime (n : nat) : bool :=
  forallb (λ d, negb (n mod d =? 0)%nat) (seq 2 (n - 2)).

Definition primes (count : nat) : list Z :=
  Z.of_nat <$> take count (filter (λ n, is_prime n = true) (seq 2 310)).

(** The largest [r] in [lo, hi) with [r ^ 3 <= n], by bisection. *)
Fixpoint cube_root_between (fuel : nat) (lo hi n : Z) : Z :=
  match fuel with
  | O => lo
  | S f =>
      if hi - lo <=? 1 then lo
      else
        let mid := (lo + hi) / 2 in
        if mid * mid * mid <=? n then cube_root_between f mid hi n
        else cube_root_between f lo mid n
  end.

Definition fraction_bits_cbrt (p : Z) : Z :=
  cube_root_between 64 0 (2 ^ 36) (p * 2 ^ 96) mod 2 ^ 32.

Definition fraction_bits_sqrt (p : Z) : Z := Z.sqrt (p * 2 ^ 64) mod 2 ^ 32.

Definition K256 : list Z := Eval vm_compute in fraction_bits_cbrt <$> primes 64.

Definition H256 : list Z := Eval vm_compute in fraction_bits_sqrt <$> primes 8.

(** Big-endian bytes of an [n]-byte integer, and back. *)
Fixpoint be_bytes (n : nat) (x : Z) : list Z :=
  match n with
  | O => []
  | S m => be_bytes m (x / 256) ++ [x mod 256]
  end.

Definition be_word (bs : list Z) : Z :=
  foldl (λ acc b, acc * 256 + b) 0 bs.

(** The message followed by [0x80], zeros up to 56 modulo 64, and the
    bit length on 8 bytes. *)
Definition pad (msg : list Z) : list Z :=
  let len := Z.of_nat (length msg) in
  let zeros := Z.to_nat ((55 - len) mod 64) in
  msg ++ [0x80] ++ replicate zeros 0 ++ be_bytes 8 (8 * len).

Fixpoint chunks (fuel n : nat) (bs : list Z) : list (list Z) :=
  match fuel, bs with
  | O, _ => []
  | _, [] => []
  | S f, _ => take n bs :: chunks f n (drop n bs)
  end.

(** The message schedule, most recent word first. *)
Fixpoint schedule (n : nat) (rev_w : list Z) : list Z :=
  match n with
  | O => rev_w
  | S m =>
      let w := add32 (add32 (sigma1 (nth 1 rev_w 0)) (nth 6 rev_w 0))
                     (add32 (sigma0 (nth 14 rev_w 0)) (nth 15 rev_w 0)) in
      schedule m (w :: rev_w)
  end.

Definition round (st : list Z) (kw : Z * Z) : list Z :=
  match st with
  | [a; b; c; d; e; f; g; h] =>
      let t1 := add32 (add32 (add32 h (Sigma1 e)) (add32 (Ch e f g) kw.1)) kw.2 in
      let t2 := add32 (Sigma0 a) (Maj a b c) in
      [add32 t1 t2; a; b; c; add32 d t1; e; f; g]
  | _ => st
  end.

Definition compress (h : list Z) (block : list Z) : list Z :=
  let w0 := be_word <$> chunks 16 4 block in
  let w := rev (schedule 48 (rev w0)) in
  let st := foldl round h (zip K256 w) in
  zip_with add32 h st.

Definition sha256 (msg : list Z) : list Z :=
  let p := pad msg in
  let h := foldl compress H256 (chunks (length p) 64 p) in
  mjoin (be_bytes 4 <$> h).

Definition block_size : nat := 64.

(** [hmac.new(key, msg, hashlib.sha256).digest()]. *)
Definition hmac_sha256 (key msg : list Z) : list Z :=
  let k0 := if decide (block_size < length key)%nat then sha256 key else key in
  let k := k0 ++ replicate (block_size - length k0) 0 in
  let ipad := Z.lxor 0x36 <$> k in
  let opad := Z.lxor 0x5c <$> k in
  sha256 (opad ++ sha256 (ipad ++ msg)).

Definition hex_digit (n : Z) : ascii :=
  ascii_of_nat (Z.to_nat (if n <? 10 then 48 + n else 87 + n)).

Fixpoint hex (bs : list Z) : string :=
  match bs with
  | [] => EmptyString
  | b :: rest => String (hex_digit (b / 16)) (String (hex_digit (b mod 16)) (hex rest))
  end.

(** [s.encode()]: UTF-8.  A character of the model is a code point
    below 256; the ones from 128 on take two bytes. *)
Definition encode_char (c : ascii) : list Z :=
  let n := Z.of_nat (nat_of_ascii c) in
  if n <? 128 then [n] else [192 + n / 64; 128 + n mod 64].

Fixpoint encode (s : string) : list Z :=
  match s with
  | EmptyString => []
  | String c rest => encode_char c ++ encode rest
  end.

Definition hmac_hexdigest (key msg : string) : string :=
  hex (hmac_sha256 (encode key) (encode msg)).

Definition is_ascii (s : string) : bool :=
  forallb (λ c, (nat_of_ascii c <? 128)%nat) (String.list_ascii_of_string s).

(** [hmac.compare_digest(a, b)] on two strings: equality, in constant
    time; strings with non-ASCII characters are refused. *)
Definition compare_digest (a b : string) : Result bool :=
  if is_ascii a && is_ascii b then Ok (String.eqb a b)
  else Raise (PyException
                "comparing strings with non-ASCII characters is not supported").

End Hash.

(** ** [app/core/security.py]: request signing *)

Module Security.
Section Security.
Context (settings : Settings).

Definition nl : string := String (ascii_of_nat 10) EmptyString.

(** [f"{method}\n{endpoint}\n{timestamp}\n{body}"]. *)
Definition message (endpoint method body timestamp : string) : string :=
  method +:+ nl +:+ endpoint +:+ nl +:+ timestamp +:+ nl +:+ body.

Definition sign_request (endpoint method body timestamp : string) : string :=
  Hash.hmac_hexdigest (MCP_SIGNING_SECRET settings)
    (message endpoint method body timestamp).

Definition verify_signature (endpoint method body timestamp signature : string)
    : Result bool :=
  let expected := sign_request endpoint method body timestamp in
  Hash.compare_digest signature expected.

End Security.
End Security.

(** ** [app/mcp/client.py] *)

Module MCPClient.

Record Tool := {
  name : Json.t;
  description : Json.t;
  parameters : Json.t;
  app_id : string;
  app_name : string;
}.

Record ToolResult := {
  success : bool;
  result : Json.t;
  error : Json.t;
  duration_ms : Z;
}.

(** [s.rstrip('/')]. *)
Fixpoint rstrip_slash (s : string) : string :=
  match s with
  | EmptyString => EmptyString
  | String c rest =>
      match rstrip_slash rest with
      | EmptyString =>
          if Ascii.eqb c "/" then EmptyString else String c EmptyString
      | r => String c r
      end
  end.

(** [headers[k] = v] on a dict kept in insertion order. *)
Fixpoint dict_set (k v : string) (d : list (string * string))
    : list (string * string) :=
  match d with
  | [] => [(k, v)]
  | (k', v') :: rest =>
      if String.eqb k k' then (k, v) :: rest else (k', v') :: dict_set k v rest
  end.

(** [headers.update(other)]. *)
Definition dict_update (d other : list (string * string))
    : list (string * string) :=
  foldl (λ acc kv, dict_set kv.1 kv.2 acc) d other.

(** Truth value of an [Optional[str]]: [None] and the empty string are
    false. *)
Definition truthy (s : option string) : option string :=
  match s with
  | Some EmptyString => None
  | _ => s
  end.

Section MCPClient.
Context (settings : Settings) (env : Env).

Definition _sign_request (endpoint method body api_key : string)
    : M (list (string * string)) :=
  now ← now_ env;
  let timestamp := pretty (int_of_float now) in
  let message := Security.message endpoint method body timestamp in
  let signature := Hash.hmac_hexdigest api_key message in
  mret [ ("X-MCP-Timestamp", timestamp); ("X-MCP-Signature", signature) ].

Fixpoint collect_tools (app_id_ app_name_ : string) (items : list Json.t)
    (tools : list Tool) : M (list Tool) :=
  match items with
  | [] => mret tools
  | tool_data :: rest =>
      n ← lift (Json.get "name" (JStr EmptyString) tool_data);
      d ← lift (Json.get "description" (JStr EmptyString) tool_data);
      p ← lift (Json.get "inputSchema" (JObj []) tool_data);
      collect_tools app_id_ app_name_ rest
        (tools ++ [ {| name := n; description := d; parameters := p;
                       app_id := app_id_; app_name := app_name_ |} ])
  end.

(** The body of the [try] block of [discover_tools]. *)
Definition discover_try (mcp_endpoint : string)
    (api_key_encrypted : option string) (app_id_ app_name_ : string)
    : M (list Tool) :=
  let headers := [ ("Content-Type", "application/json") ] in
  headers ← match truthy api_key_encrypted with
            | Some enc =>
                api_key ← lift (decrypt_value env enc);
                mret (dict_set "Authorization" ("Bearer " +:+ api_key) headers)
            | None => mret headers
            end;
  response ← post env {| url := rstrip_slash mcp_endpoint +:+ "/tools/list";
                         req_headers := headers;
                         json_body := JObj [] |};
  lift (raise_for_status response);;
  data ← lift (json response);
  tools_value ← lift (Json.get "tools" (JArr []) data);
  items ← lift (Json.iter tools_value);
  collect_tools app_id_ app_name_ items [].

Definition discover_tools (mcp_endpoint : string)
    (api_key_encrypted : option string) (app_id_ app_name_ : string)
    : M (list Tool) :=
  try_except
    (discover_try mcp_endpoint api_key_encrypted app_id_ app_name_)
    (λ e, if is_HTTPError e then mret [] else mret []).

Definition elapsed_ms (start_time now : Qc) : Z :=
  int_of_float (float_mul (float_sub now start_time) (float_of_int 1000)).

Definition failure (msg : Json.t) (ms : Z) : ToolResult :=
  {| success := false; result := JNull; error := msg; duration_ms := ms |}.

(** The body of the [try] block of one attempt. *)
Definition attempt_try (mcp_endpoint tool_name : string) (arguments : Json.t)
    (api_key_encrypted : option string) (start_time : Qc) : M ToolResult :=
  let payload := JObj [ ("name", JStr tool_name); ("arguments", arguments) ] in
  let headers := [ ("Content-Type", "application/json") ] in
  headers ← match truthy api_key_encrypted with
            | Some enc =>
                api_key ← lift (decrypt_value env enc);
                let headers :=
                  dict_set "Authorization" ("Bearer " +:+ api_key) headers in
                let body := json_dumps env payload in
                signing_headers ← _sign_request mcp_endpoint "POST" body api_key;
                mret (dict_update headers signing_headers)
            | None => mret headers
            end;
  response ← post env {| url := rstrip_slash mcp_endpoint +:+ "/tools/call";
                         req_headers := headers;
                         json_body := payload |};
  lift (raise_for_status response);;
  data ← lift (json response);
  now ← now_ env;
  let ms := elapsed_ms start_time now in
  has_error ← lift (Json.contains "error" data);
  if has_error : bool then
    err ← lift (Json.getitem "error" data);
    msg ← lift (Json.get "message" (JStr "Unknown error") err);
    mret (failure msg ms)
  else
    r ← lift (Json.get "result" JNull data);
    c ← lift (Json.get "content" r data);
    mret {| success := true; result := c; error := JNull; duration_ms := ms |}.

(** One iteration of the [for] loop: [Some] is a [return], [None] is
    the [continue]. *)
Definition attempt_body (attempt : Z) (mcp_endpoint tool_name : string)
    (arguments : Json.t) (api_key_encrypted : option string)
    (start_time : Qc) : M (option ToolResult) :=
  try_except
    (r ← attempt_try mcp_endpoint tool_name arguments api_key_encrypted
           start_time;
     mret (Some r))
    (λ e,
       match e with
       | TimeoutException _ =>
           if attempt <? MCP_MAX_RETRIES settings - 1 then
             sleep (float_mul (MCP_RETRY_DELAY settings)
                      (float_of_int (attempt + 1)));;
             mret None
           else
             now ← now_ env;
             mret (Some (failure (JStr "Request timed out")
                           (elapsed_ms start_time now)))
       | HTTPStatusError _ status body_text =>
           now ← now_ env;
           mret (Some (failure
                         (JStr ("HTTP " +:+ pretty status +:+ ": "
                                +:+ String.substring 0 200 body_text))
                         (elapsed_ms start_time now)))
       | _ =>
           now ← now_ env;
           mret (Some (failure (JStr (str_exc e))
                         (elapsed_ms start_time now)))
       end).

(** [for attempt in range(...)], with [n] iterations left. *)
Fixpoint retry_loop (n : nat) (attempt : Z) (mcp_endpoint tool_name : string)
    (arguments : Json.t) (api_key_encrypted : option string)
    (start_time : Qc) : M (option ToolResult) :=
  match n with
  | O => mret None
  | S m =>
      r ← attempt_body attempt mcp_endpoint tool_name arguments
            api_key_encrypted start_time;
      match r with
      | Some res => mret (Some res)
      | None => retry_loop m (attempt + 1) mcp_endpoint tool_name arguments
                  api_key_encrypted start_time
      end
  end.

Definition invoke_tool (mcp_endpoint tool_name : string) (arguments : Json.t)
    (api_key_encrypted : option string) : M ToolResult :=
  start_time ← now_ env;
  r ← retry_loop (Z.to_nat (MCP_MAX_RETRIES settings)) 0 mcp_endpoint
        tool_name arguments api_key_encrypted start_time;
  match r with
  | Some res => mret res
  | None =>
      now ← now_ env;
      mret (failure (JStr "Max retries exceeded") (elapsed_ms start_time now))
  end.

End MCPClient.
End MCPClient.

(** ** The events a check counts *)

Module Window.
Import Redis.

(** The start of the window of a check at time [now]: the float
    [now - window_seconds]. *)
Definition window_start (now : Qc) (window_seconds : Z) : Qc :=
  float_sub now (float_of_int window_seconds).

(** The events of [key] that a check at time [now] does not evict:
    those whose score lies outside [0, now - window_seconds]. *)
Definition surviving (key : string) (now : Qc) (window_seconds : Z)
    (r : Redis.t) : gmap Qc Qc :=
  filter (λ ms : Qc * Qc,
            ¬ (0 ≤ ms.2 ∧ ms.2 ≤ window_start now window_seconds)%Qc)
         (zset key r).

Definition count (key : string) (now : Qc) (window_seconds : Z)
    (r : Redis.t) : Z :=
  Z.of_nat (size (surviving key now window_seconds r)).

End Window.

(** ** Two checks in flight on one key

    A call of [is_allowed] touches the store twice: when its pipeline
    executes, and, if it found the key over the limit, when its
    compensating ZREM executes.  Redis runs each of the two atomically;
    between them the other call may run.  A call has read its clock
    before the first. *)

Module Race.
Section Race.
Context (key : string) (limit_ window_seconds : Z).

Inductive Pc :=
  | AtPipeline
  | AtZrem (info : RateInfo)
  | Returned (allowed : bool) (info : RateInfo).

Record Call := { now : Qc; pc : Pc }.

Definition step (c : Call) (r : Redis.t) : Call * Redis.t :=
  match pc c with
  | AtPipeline =>
      let '(current_count, r') :=
        RateLimiter.pipeline key (now c) window_seconds r in
      let info :=
        RateLimiter.make_info limit_ current_count (now c) window_seconds in
      if limit_ <=? current_count
      then ({| now := now c; pc := AtZrem info |}, r')
      else ({| now := now c; pc := Returned true info |}, r')
  | AtZrem info =>
      ({| now := now c; pc := Returned false info |},
       Redis.zrem key (now c) r)
  | Returned _ _ => (c, r)
  end.

Record State := { store : Redis.t; call1 : Call; call2 : Call }.

Inductive Tid := First | Second.

Definition sched (s : State) (t : Tid) : State :=
  match t with
  | First =>
      let '(c, r) := step (call1 s) (store s) in
      {| store := r; call1 := c; call2 := call2 s |}
  | Second =>
      let '(c, r) := step (call2 s) (store s) in
      {| store := r; call1 := call1 s; call2 := c |}
  end.

Definition run (schedule : list Tid) (s : State) : State :=
  foldl sched s schedule.

Definition start (now1 now2 : Qc) (r : Redis.t) : State :=
  {| store := r;
     call1 := {| now := now1; pc := AtPipeline |};
     call2 := {| now := now2; pc := AtPipeline |} |}.

(** What holds between the two calls at every moment: before either
    pipeline has run the window is empty; once one has run, that call
    was admitted and its event is in the window; once both have run,
    the later one was refused. *)
Definition inv (now1 now2 : Qc) (s : State) : Prop :=
  now (call1 s) = now1 ∧ now (call2 s) = now2 ∧
  match pc (call1 s), pc (call2 s) with
  | AtPipeline, AtPipeline => Redis.zset key (store s) = ∅
  | Returned true _, AtPipeline => Redis.zset key (store s) !! now1 = Some now1
  | AtPipeline, Returned true _ => Redis.zset key (store s) !! now2 = Some now2
  | Returned true _, (AtZrem _ | Returned false _) => True
  | (AtZrem _ | Returned false _), Returned true _ => True
  | _, _ => False
  end.

Definition reported (c : Call) : option bool :=
  match pc c with
  | Returned a _ => Some a
  | _ => None
  end.

End Race.
End Race.

(** ** The admission gate as the design describes it

    The checks in their order of precedence, and their evaluation: one
    after the other, stopping at the first denial, whose decision is the
    result. *)

Module Gate.
Section Gate.
Context (settings : Settings) (env : Env).

Record LimiterCheck :=
  { check_key : string; check_limit : Z; check_window : Z }.

Definition ip_checks (ip : string) : list LimiterCheck :=
  [ {| check_key := RateLimiter.ip_key_minute ip;
       check_limit := RATE_LIMIT_IP_PER_MINUTE settings; check_window := 60 |};
    {| check_key := RateLimiter.ip_key_hour ip;
       check_limit := RATE_LIMIT_IP_PER_HOUR settings; check_window := 3600 |} ].

Definition user_checks (user_id : string) : list LimiterCheck :=
  [ {| check_key := RateLimiter.user_key_minute user_id;
       check_limit := RATE_LIMIT_USER_PER_MINUTE settings; check_window := 60 |};
    {| check_key := RateLimiter.user_key_hour user_id;
       check_limit := RATE_LIMIT_USER_PER_HOUR settings; check_window := 3600 |} ].

Definition precedence (ip : string) (user_id : option string) : list LimiterCheck :=
  ip_checks ip ++ from_option user_checks [] user_id.

Fixpoint first_denial (checks : list LimiterCheck) : M (option RateInfo) :=
  match checks with
  | [] => mret None
  | c :: rest =>
      '(allowed, info) ← RateLimiter.is_allowed env (check_key c)
                            (check_limit c) (check_window c);
      if allowed : bool then first_denial rest else mret (Some info)
  end.

Definition check_of (c : LimiterCall) : LimiterCheck :=
  {| check_key := call_key c; check_limit := call_limit c;
     check_window := call_window c |}.

(** A recorded call that let the request through. *)
Definition let_through (c : LimiterCall) : Prop := call_allowed c = true.

(** The headers of the rejection, from the decision [info]. *)
Definition headers_of (info : RateInfo) : list (string * string) :=
  [ ("X-RateLimit-Limit", pretty (limit info));
    ("X-RateLimit-Remaining", pretty (remaining info));
    ("X-RateLimit-Reset", pretty (reset info));
    ("Retry-After", pretty (window info)) ].

End Gate.
End Gate.

(** ** Words of the design about the tool client *)

Module Outcome.

(** The [k]-th POST times out, whatever is sent. *)
Definition times_out (env : Env) (k : nat) : Prop :=
  ∀ req, ∃ msg, http_post env k req = Raise (TimeoutException msg).

(** The credential, when there is one, decrypts. *)
Definition credential_ok (env : Env) (api_key_encrypted : option string)
    : Prop :=
  ∀ enc, MCPClient.truthy api_key_encrypted = Some enc →
         ∃ api_key, decrypt_value env enc = Ok api_key.

Definition is_object (data : Json.t) : bool :=
  match data with
  | JObj _ => true
  | _ => false
  end.

(** A discovery call that fails: a network error, a status that is not
    2xx, a body that is not JSON, or JSON that is not an object. *)
Definition discovery_fails (r : Result Response) : Prop :=
  match r with
  | Raise _ => True
  | Ok resp =>
      is_success (status_code resp) = false
      ∨ match json resp with
        | Raise _ => True
        | Ok data => is_object data = false
        end
  end.

(** A response whose body is the error object
    [{"error": {"message": m}}], possibly with further fields. *)
Definition error_object (m : Json.t) (resp : Response) : Prop :=
  ∃ fields error_fields,
    json resp = Ok (JObj fields)
    ∧ Json.assoc "error" fields = Some (JObj error_fields)
    ∧ Json.assoc "message" error_fields = Some m.

(** The [k]-th POST is answered with a 2xx response carrying the error
    object, whatever is sent. *)
Definition answers_error_object (env : Env) (k : nat) (m : Json.t) : Prop :=
  ∀ req, ∃ resp, http_post env k req = Ok resp
                 ∧ is_success (status_code resp) = true
                 ∧ error_object m resp.

(** The backoff delays slept before attempts [2 .. k + 1]:
    [delay * 1, ..., delay * k]. *)
Definition backoffs (delay : Qc) (k : nat) : list Qc :=
  (λ i, float_mul delay (float_of_int (Z.of_nat i))) <$> seq 1 k.

End Outcome.

(** ** Request tuples *)

Module Signed.

Record Tuple := {
  method : string;
  path : string;
  timestamp : string;
  body : string;
}.

(** Exactly one of the four fields differs. *)
Definition one_field_changed (a b : Tuple) : Prop :=
  (method a ≠ method b ∧ path a = path b
   ∧ timestamp a = timestamp b ∧ body a = body b)
  ∨ (method a = method b ∧ path a ≠ path b
     ∧ timestamp a = timestamp b ∧ body a = body b)
  ∨ (method a = method b ∧ path a = path b
     ∧ timestamp a ≠ timestamp b ∧ body a = body b)
  ∨ (method a = method b ∧ path a = path b
     ∧ timestamp a = timestamp b ∧ body a ≠ body b).

(** The text that is signed: the four fields in the order method,
    path, timestamp, body, one to a line. *)
Definition message (t : Tuple) : string :=
  method t +:+ Security.nl +:+ path t +:+ Security.nl +:+ timestamp t
  +:+ Security.nl +:+ body t.

(** The HMAC-SHA256 of that text under the configured secret, in
    hexadecimal. *)
Definition digest (settings : Settings) (t : Tuple) : string :=
  Hash.hmac_hexdigest (MCP_SIGNING_SECRET settings) (message t).

Definition sign (settings : Settings) (t : Tuple) : string :=
  Security.sign_request settings (path t) (method t) (body t) (timestamp t).

Definition verify (settings : Settings) (t : Tuple) (signature : string)
    : Result bool :=
  Security.verify_signature settings (path t) (method t) (body t)
    (timestamp t) signature.

(** A request whose body is [n] times the letter [a]. *)
Fixpoint letters (n : nat) : string :=
  match n with
  | O => EmptyString
  | S m => String "a" (letters m)
  end.

Definition padded (n : nat) : Tuple :=
  {| method := "POST"; path := "/tools/call"; timestamp := "1700000000";
     body := letters n |}.

(** All lists of [n] bytes. *)
Fixpoint all_bytes (n : nat) : list (list Z) :=
  match n with
  | O => [[]]
  | S m => b ← seqZ 0 256; (λ l, b :: l) <$> all_bytes m
  end.

End Signed.

(** ** Concrete inputs used by the examples below *)

Module Sample.

Definition settings : Settings :=
  {| RATE_LIMIT_IP_PER_MINUTE := 60;
     RATE_LIMIT_IP_PER_HOUR := 1000;
     RATE_LIMIT_USER_PER_MINUTE := 100;
     RATE_LIMIT_USER_PER_HOUR := 2000;
     RATE_LIMIT_TOOL_PER_MINUTE := 30;
     RATE_LIMIT_BURST_SIZE := 10;
     MCP_DEFAULT_TIMEOUT := 30;
     MCP_MAX_RETRIES := 3;
     MCP_RETRY_DELAY := 1%Qc;
     MCP_SIGNING_SECRET := "secret" |}.

Definition no_retries : Settings :=
  {| RATE_LIMIT_IP_PER_MINUTE := 60;
     RATE_LIMIT_IP_PER_HOUR := 1000;
     RATE_LIMIT_USER_PER_MINUTE := 100;
     RATE_LIMIT_USER_PER_HOUR := 2000;
     RATE_LIMIT_TOOL_PER_MINUTE := 30;
     RATE_LIMIT_BURST_SIZE := 10;
     MCP_DEFAULT_TIMEOUT := 30;
     MCP_MAX_RETRIES := 0;
     MCP_RETRY_DELAY := 1%Qc;
     MCP_SIGNING_SECRET := "secret" |}.

(** A clock that starts at 1700000000.5 and advances by one second at
    each reading. *)
Definition clock_from_half (k : nat) : Qc :=
  (Q2Qc (3400000001 # 2) + exact (Z.of_nat k))%Qc.

(** A server that never answers in time. *)
Definition always_timeout : Env :=
  {| wall_clock := clock_from_half;
     http_post := λ _ _, Raise (TimeoutException "timed out");
     decrypt_value := λ s, Ok s;
     json_dumps := λ _, "{}" |}.

Definition quota_body : Json.t :=
  JObj [ ("error", JObj [ ("message", JStr "quota exceeded") ]) ].

Definition dq : string := String (ascii_of_nat 34) EmptyString.

Definition quota_text : string :=
  "{" +:+ dq +:+ "error" +:+ dq +:+ ": {" +:+ dq +:+ "message" +:+ dq
  +:+ ": " +:+ dq +:+ "quota exceeded" +:+ dq +:+ "}}".

(** A server that answers every call with the error object, and the
    status [status]. *)
Definition error_object_server (status : Z) : Env :=
  {| wall_clock := clock_from_half;
     http_post := λ _ _, Ok {| status_code := status; text := quota_text;
                               json := Ok quota_body |};
     decrypt_value := λ s, Ok s;
     json_dumps := λ _, "{}" |}.

(** A server that answers every call with HTTP 500 and a body that is
    not JSON. *)
Definition broken_server : Env :=
  {| wall_clock := clock_from_half;
     http_post := λ _ _, Ok {| status_code := 500; text := "oops";
                               json := Raise (PyException "Expecting value") |};
     decrypt_value := λ s, Ok s;
     json_dumps := λ _, "{}" |}.

(** A store in which the burst bucket of tool [t] and user [u] has been
    drained at the first reading of the clock. *)
Definition drained_bucket : Redis.t :=
  TokenBucket.persist (RateLimiter.tool_key "t" "u") 0%Qc (clock_from_half 0)
    Redis.empty.

Definition drained_world : World := set_redis drained_bucket world0.

(** The same store one reading of the clock, that is one second, later. *)
Definition drained_world_later : World := tick drained_world.

(** The key of tool [t] and user [u]. *)
Definition tool_bucket : string := RateLimiter.tool_key "t" "u".

(** The error object sent with HTTP 500. *)
Definition error_500 : Response :=
  {| status_code := 500; text := quota_text; json := Ok quota_body |}.

(** Two checks half a second apart, limit 1, window 60, on an empty
    store; the pipeline of the later call runs first. *)
Definition race_now1 : Qc := clock_from_half 0.
Definition race_now2 : Qc := (race_now1 + Q2Qc (1 # 2))%Qc.
Definition race_end : Race.State :=
  Race.run "k" 1 60 [Race.Second; Race.First; Race.First; Race.Second]
    (Race.start race_now1 race_now2 Redis.empty).

(** Two checks one and a half seconds apart, limit 1, window 1, on an
    empty store; the earlier call runs to its end before the later. *)
Definition race_apart : Race.State :=
  Race.run "k" 1 1 [Race.First; Race.First; Race.Second; Race.Second]
    (Race.start (exact 100) (Q2Qc (203 # 2)) Redis.empty).

(** A request tuple, and the same with one more character in the body. *)
Definition request_a : Signed.Tuple :=
  {| Signed.method := "POST"; Signed.path := "/tools/call";
     Signed.timestamp := "1700000000"; Signed.body := "{}" |}.
Definition request_b : Signed.Tuple :=
  {| Signed.method := "POST"; Signed.path := "/tools/call";
     Signed.timestamp := "1700000000"; Signed.body := "{ }" |}.
(** The same with another method, another path, another timestamp. *)
Definition request_m : Signed.Tuple :=
  {| Signed.method := "PUT"; Signed.path := "/tools/call";
     Signed.timestamp := "1700000000"; Signed.body := "{}" |}.
Definition request_p : Signed.Tuple :=
  {| Signed.method := "POST"; Signed.path := "/tools/list";
     Signed.timestamp := "1700000000"; Signed.body := "{}" |}.
Definition request_t : Signed.Tuple :=
  {| Signed.method := "POST"; Signed.path := "/tools/call";
     Signed.timestamp := "1700000001"; Signed.body := "{}" |}.

End Sample.

(** ** Checks in a row *)

Module Repeated.

(** [n] calls of [is_allowed] on one key, one after the other; the
    decisions in order. *)
Fixpoint checks (env : Env) (key : string) (limit_ window_seconds : Z)
    (n : nat) : M (list bool) :=
  match n with
  | O => mret []
  | S m =>
      '(allowed, _) ← RateLimiter.is_allowed env key limit_ window_seconds;
      rest ← checks env key limit_ window_seconds m;
      mret (allowed :: rest)
  end.

(** After [k] checks that started at clock reading number [c0], the
    window holds the events of the first [min k limit] of them, each
    under its own timestamp. *)
Definition row_inv (env : Env) (c0 : nat) (limit_ : Z) (k : nat)
    (z : gmap Qc Qc) : Prop :=
  (∀ m s, z !! m = Some s →
          s = m ∧ ∃ i, (i < k)%nat ∧ m = time_time env (c0 + i))
  ∧ size z = (k `min` Z.to_nat limit_)%nat.

End Repeated.

(** Further inputs for the examples. *)

Module Sample2.

(** An hourly IP limit of zero: every request is over it. *)
Definition hour_closed : Settings :=
  {| RATE_LIMIT_IP_PER_MINUTE := 60;
     RATE_LIMIT_IP_PER_HOUR := 0;
     RATE_LIMIT_USER_PER_MINUTE := 100;
     RATE_LIMIT_USER_PER_HOUR := 2000;
     RATE_LIMIT_TOOL_PER_MINUTE := 30;
     RATE_LIMIT_BURST_SIZE := 10;
     MCP_DEFAULT_TIMEOUT := 30;
     MCP_MAX_RETRIES := 3;
     MCP_RETRY_DELAY := 1%Qc;
     MCP_SIGNING_SECRET := "secret" |}.

(** A server that lets the first two calls time out and gives the same
    answer to every later one. *)
Definition flaky_server (answer : Result Response) : Env :=
  {| wall_clock := Sample.clock_from_half;
     http_post := λ k _, if (k <? 2)%nat
                         then Raise (TimeoutException "timed out")
                         else answer;
     decrypt_value := λ s, Ok s;
     json_dumps := λ _, "{}" |}.

(** A 2xx answer that carries both a "result" and a "content". *)
Definition both_payloads : Response :=
  {| status_code := 200; text := "...";
     json := Ok (JObj [ ("result", JStr "old"); ("content", JStr "new") ]) |}.

Definition unavailable : Response :=
  {| status_code := 503; text := "busy";
     json := Raise (PyException "Expecting value") |}.

(** A catalogue of two tools, the first without a description or a
    schema. *)
Definition catalogue : list Json.t :=
  [ JObj [ ("name", JStr "search") ];
    JObj [ ("name", JStr "fetch"); ("description", JStr "Fetch a page");
           ("inputSchema", JObj [ ("type", JStr "object") ]) ] ].

Definition catalogue_server : Env :=
  {| wall_clock := Sample.clock_from_half;
     http_post := λ _ _,
       Ok {| status_code := 200; text := "...";
             json := Ok (JObj [ ("tools", JArr catalogue) ]) |};
     decrypt_value := λ s, Ok s;
     json_dumps := λ _, "{}" |}.

(** A clock that reads 2147483647.9999998, the double next below
    [2 ^ 31], every time. *)
Definition clock_2038 : Env :=
  {| wall_clock := λ _, Q2Qc (9007199254740991 # 4194304);
     http_post := λ _ _, Raise (TimeoutException "timed out");
     decrypt_value := λ s, Ok s;
     json_dumps := λ _, "{}" |}.

(** A store whose window [k] holds one event, a hundred seconds before
    the first reading of the sample clock. *)
Definition stale : Qc := (Sample.clock_from_half 0 - exact 100)%Qc.

Definition stale_world : World :=
  set_redis (Redis.zadd "k" stale stale Redis.empty) world0.

End Sample2.

(** ** [app/core/rbac.py] and the access dependencies of [app/api/deps.py] *)

Module Rbac.

Inductive UserRole := USER | DEVELOPER | ADMIN.

Inductive Permission :=
  | READ_PROFILE | UPDATE_PROFILE
  | CREATE_CHAT | READ_CHAT | DELETE_CHAT
  | BROWSE_MARKETPLACE | ENABLE_APP | DISABLE_APP
  | CREATE_APP | UPDATE_APP | DELETE_APP | VIEW_APP_STATS
  | MANAGE_USERS | MODERATE_APPS | VIEW_SYSTEM | VIEW_LOGS | MANAGE_CONFIG.

Global Instance UserRole_eq_dec : EqDecision UserRole.
Proof. solve_decision. Defined.
Global Instance Permission_eq_dec : EqDecision Permission.
Proof. solve_decision. Defined.

(** The sets of the table are lists here; only membership is asked. *)
Definition user_permissions : list Permission :=
  [ READ_PROFILE; UPDATE_PROFILE; CREATE_CHAT; READ_CHAT; DELETE_CHAT;
    BROWSE_MARKETPLACE; ENABLE_APP; DISABLE_APP ].

Definition ROLE_PERMISSIONS (role : UserRole) : list Permission :=
  match role with
  | USER => user_permissions
  | DEVELOPER =>
      user_permissions ++ [ CREATE_APP; UPDATE_APP; DELETE_APP; VIEW_APP_STATS ]
  | ADMIN =>
      user_permissions
      ++ [ CREATE_APP; UPDATE_APP; DELETE_APP; VIEW_APP_STATS;
           MANAGE_USERS; MODERATE_APPS; VIEW_SYSTEM; VIEW_LOGS; MANAGE_CONFIG ]
  end.

Definition get_permissions (role : UserRole) : list Permission :=
  ROLE_PERMISSIONS role.

Definition has_permission (role : UserRole) (permission : Permission) : bool :=
  bool_decide (permission ∈ get_permissions role).

Definition has_any_permission (role : UserRole) (permissions : list Permission)
    : bool :=
  let role_perms := get_permissions role in
  existsb (λ p, bool_decide (p ∈ role_perms)) permissions.

Definition has_all_permissions (role : UserRole) (permissions : list Permission)
    : bool :=
  let role_perms := get_permissions role in
  forallb (λ p, bool_decide (p ∈ role_perms)) permissions.

Record RBACChecker := {
  required_permissions : list Permission;
  required_roles : list UserRole;
  require_all : bool;
}.

(** [RBACChecker(...)]: a missing list is the empty list. *)
Definition new_checker (permissions : option (list Permission))
    (roles : option (list UserRole)) (all : bool) : RBACChecker :=
  {| required_permissions := default [] permissions;
     required_roles := default [] roles;
     require_all := all |}.

Definition nonempty {A} (l : list A) : bool :=
  match l with
  | [] => false
  | _ => true
  end.

Definition check (c : RBACChecker) (user_role : UserRole) : bool :=
  if nonempty (required_roles c)
     && negb (bool_decide (user_role ∈ required_roles c))
  then false
  else if nonempty (required_permissions c) then
    if require_all c
    then has_all_permissions user_role (required_permissions c)
    else has_any_permission user_role (required_permissions c)
  else true.

End Rbac.

Module Access.
Import Rbac.

(** The part of the ORM's [User] that the access dependencies read. *)
Record User := { role : UserRole; is_verified : bool }.

Definition not_authenticated : Exc :=
  HTTPException 401 "Not authenticated" [ ("WWW-Authenticate", "Bearer") ].
Definition email_not_verified : Exc :=
  HTTPException 403 "Email not verified" [].
Definition insufficient_permissions : Exc :=
  HTTPException 403 "Insufficient permissions" [].

Definition require_auth (user : option User) : Result User :=
  match user with
  | None => Raise not_authenticated
  | Some u => Ok u
  end.

Definition require_verified (user : option User) : Result User :=
  match require_auth user with
  | Raise e => Raise e
  | Ok u => if negb (is_verified u) then Raise email_not_verified else Ok u
  end.

(** [RequireRole(roles)(user)]. *)
Definition RequireRole (roles : list UserRole) (user : option User)
    : Result User :=
  match require_auth user with
  | Raise e => Raise e
  | Ok u =>
      if negb (bool_decide (role u ∈ roles)) then Raise insufficient_permissions
      else Ok u
  end.

(** [RequirePermission(permissions, require_all)(user)]. *)
Definition RequirePermission (permissions : list Permission) (all : bool)
    (user : option User) : Result User :=
  let checker := new_checker (Some permissions) None all in
  match require_auth user with
  | Raise e => Raise e
  | Ok u =>
      if negb (check checker (role u)) then Raise insufficient_permissions
      else Ok u
  end.

Definition require_developer : option User → Result User :=
  RequireRole [ DEVELOPER; ADMIN ].
Definition require_admin : option User → Result User :=
  RequireRole [ ADMIN ].

End Access.

(** ** [app/core/security.py]: tokens and input sanitization

    A character is a code point below 256, as for [encode]. *)

Module Sanitize.

Definition code (c : ascii) : nat := nat_of_ascii c.

(** [html.escape(text)], quotes included. *)
Definition escape_char (c : ascii) : string :=
  match code c with
  | 38 => "&amp;"
  | 60 => "&lt;"
  | 62 => "&gt;"
  | 34 => "&quot;"
  | 39 => "&#x27;"
  | _ => String c EmptyString
  end%nat.

Fixpoint html_escape (s : string) : string :=
  match s with
  | EmptyString => EmptyString
  | String c rest => escape_char c +:+ html_escape rest
  end.

(** [c.isprintable()]: everything but the control characters, the
    no-break space and the soft hyphen. *)
Definition isprintable (c : ascii) : bool :=
  let n := code c in
  ((32 <=? n) && (n <=? 126) || (161 <=? n) && (n <=? 172)
   || (174 <=? n) && (n <=? 255))%nat.

(** [c in '\n\t\r']. *)
Definition is_nl_tab_cr (c : ascii) : bool :=
  let n := code c in ((n =? 10) || (n =? 9) || (n =? 13))%nat.

(** [c.isspace()]. *)
Definition isspace (c : ascii) : bool :=
  let n := code c in
  ((9 <=? n) && (n <=? 13) || (28 <=? n) && (n <=? 32)
   || (n =? 133) || (n =? 160))%nat.

Fixpoint filter_chars (keep : ascii → bool) (s : string) : string :=
  match s with
  | EmptyString => EmptyString
  | String c rest =>
      if keep c then String c (filter_chars keep rest)
      else filter_chars keep rest
  end.

Fixpoint lstrip (s : string) : string :=
  match s with
  | EmptyString => EmptyString
  | String c rest => if isspace c then lstrip rest else s
  end.

Fixpoint rstrip (s : string) : string :=
  match s with
  | EmptyString => EmptyString
  | String c rest =>
      match rstrip rest with
      | EmptyString => if isspace c then EmptyString else String c EmptyString
      | r => String c r
      end
  end.

Definition strip (s : string) : string := rstrip (lstrip s).

Fixpoint take_chars (n : nat) (s : string) : string :=
  match n, s with
  | O, _ => EmptyString
  | _, EmptyString => EmptyString
  | S m, String c rest => String c (take_chars m rest)
  end.

(** [text[:limit]]: the first [limit] characters, or all but the last
    [-limit] when [limit] is negative. *)
Definition slice_to (limit : Z) (s : string) : string :=
  if 0 <=? limit then take_chars (Z.to_nat limit) s
  else take_chars (String.length s - Z.to_nat (- limit)) s.

Definition sanitize_input (MAX_INPUT_LENGTH : Z) (text : string)
    (max_length : option Z) : string :=
  match text with
  | EmptyString => EmptyString
  | _ =>
      let text := filter_chars (λ c, negb (code c =? 0)%nat) text in
      let text := html_escape text in
      let text := filter_chars (λ c, isprintable c || is_nl_tab_cr c) text in
      let text := strip text in
      let limit :=
        match max_length with
        | Some l => if l =? 0 then MAX_INPUT_LENGTH else l
        | None => MAX_INPUT_LENGTH
        end in
      slice_to limit text
  end.

(** [hash_token(token)]. *)
Definition hash_token (token : string) : string :=
  Hash.hex (Hash.sha256 (Hash.encode token)).

(** [is_safe_redirect_url(url)]. *)
Definition is_safe_redirect_url (url : string) : bool :=
  match url with
  | EmptyString => false
  | _ => String.prefix "/" url && negb (String.prefix "//" url)
  end.

Definition all_chars (P : ascii → bool) (s : string) : bool :=
  forallb P (String.list_ascii_of_string s).

(** The characters that must not reach a page unescaped. *)
Definition is_markup (c : ascii) : bool :=
  let n := code c in
  ((n =? 60) || (n =? 62) || (n =? 34) || (n =? 39))%nat.

Definition hex_char (c : ascii) : bool :=
  let n := code c in
  ((48 <=? n) && (n <=? 57) || (97 <=? n) && (n <=? 102))%nat.

End Sanitize.

(** ** Further words about the tool client *)

Module Outcome2.
Import MCPClient.

(** Exactly one of payload and error is meaningful. *)
Definition well_shaped (r : ToolResult) : Prop :=
  if success r then error r = JNull else result r = JNull.

(** The [k]-th POST is answered with a 2xx response whose body is an
    object without an "error" key; [payload] is its "content" or, in
    the absence of one, its "result", or [None]. *)
Definition answers_payload (env : Env) (k : nat) (payload : Json.t) : Prop :=
  ∀ req, ∃ resp fields,
    http_post env k req = Ok resp
    ∧ is_success (status_code resp) = true
    ∧ json resp = Ok (JObj fields)
    ∧ Json.assoc "error" fields = None
    ∧ payload = default (default JNull (Json.assoc "result" fields))
                  (Json.assoc "content" fields).

(** The [k]-th POST is answered with the status [status], which is not
    2xx, and the body text [body_text]. *)
Definition answers_status (env : Env) (k : nat) (status : Z)
    (body_text : string) : Prop :=
  ∀ req, ∃ resp,
    http_post env k req = Ok resp
    ∧ status_code resp = status ∧ text resp = body_text
    ∧ is_success status = false.

(** The [k]-th POST fails with an exception that is not a timeout and
    whose text is [msg]. *)
Definition fails_without_timeout (env : Env) (k : nat) (msg : string) : Prop :=
  ∀ req, http_post env k req = Raise (HTTPError msg)
         ∨ http_post env k req = Raise (PyException msg).

(** The [k]-th POST is answered with a 2xx response whose body is an
    object with the list [items] under "tools". *)
Definition answers_catalogue (env : Env) (k : nat) (items : list Json.t)
    : Prop :=
  ∀ req, ∃ resp fields,
    http_post env k req = Ok resp
    ∧ is_success (status_code resp) = true
    ∧ json resp = Ok (JObj fields)
    ∧ Json.assoc "tools" fields = Some (JArr items).

(** The descriptor built from one catalogue entry. *)
Definition tool_of (app_id_ app_name_ : string) (item : Json.t) : Tool :=
  match item with
  | JObj fields =>
      {| name := default (JStr EmptyString) (Json.assoc "name" fields);
         description :=
           default (JStr EmptyString) (Json.assoc "description" fields);
         parameters := default (JObj []) (Json.assoc "inputSchema" fields);
         app_id := app_id_; app_name := app_name_ |}
  | _ =>
      {| name := JNull; description := JNull; parameters := JNull;
         app_id := app_id_; app_name := app_name_ |}
  end.

End Outcome2.
(** * Properties *)

(** ** Floats: rounding to the nearest double *)

Module FloatFacts.
Local Open Scope Q_scope.

Lemma rne_comp q q' : q == q' -> rne q = rne q'.
Proof.
  intros H. unfold rne. rewrite (Qfloor_comp _ _ H).
  assert (q - inject_Z (Qfloor q') == q' - inject_Z (Qfloor q')) as H2 by (rewrite H; reflexivity).
  rewrite (Qcompare_comp _ _ H2 (1#2) (1#2)) by reflexivity. reflexivity.
Qed.

Lemma rne_Z z : rne (inject_Z z) = z.
Proof.
  unfold rne. rewrite Qfloor_Z.
  assert (inject_Z z - inject_Z z == 0) as H by ring.
  rewrite (Qcompare_comp _ _ H (1#2) (1#2)) by reflexivity. reflexivity.
Qed.

Lemma rne_range q : (Qfloor q <= rne q <= Qfloor q + 1)%Z.
Proof.
  unfold rne. destruct (Qcompare _ _); [destruct (Z.even _)|..]; lia.
Qed.

Lemma rne_mono q q' : q <= q' -> (rne q <= rne q')%Z.
Proof.
  intros Hle. pose proof (Qfloor_resp_le _ _ Hle) as Hf.
  destruct (Z.eq_dec (Qfloor q) (Qfloor q')) as [Heq|Hne].
  - unfold rne. rewrite <- Heq.
    destruct (Qcompare_spec (q - inject_Z (Qfloor q)) (1#2)) as [H1|H1|H1];
    destruct (Qcompare_spec (q' - inject_Z (Qfloor q)) (1#2)) as [H2|H2|H2];
      try destruct (Z.even (Qfloor q)); try lia; exfalso; lra.
  - pose proof (rne_range q). pose proof (rne_range q'). lia.
Qed.

Lemma two_ne_0 : ~ (2 == 0).
Proof. intros H. discriminate H. Qed.

Lemma pow2_pos k : 0 < 2 ^ k.
Proof. apply Qpower_0_lt. reflexivity. Qed.

Lemma pow2_le j k : (j <= k)%Z -> 2 ^ j <= 2 ^ k.
Proof. intros H. apply Qpower_le_compat_l; [exact H|]. discriminate. Qed.

Lemma pow2_lt j k : (j < k)%Z -> 2 ^ j < 2 ^ k.
Proof. intros H. apply Qpower_lt_compat_l; [exact H|]. reflexivity. Qed.

Lemma pow2_plus j k : 2 ^ (j + k) == 2 ^ j * 2 ^ k.
Proof. apply Qpower_plus, two_ne_0. Qed.

Lemma pow2_sum a b c : (a = b + c)%Z -> 2 ^ a == 2 ^ b * 2 ^ c.
Proof. intros ->. apply pow2_plus. Qed.

Lemma pow2_succ k : 2 ^ (k + 1) == 2 * 2 ^ k.
Proof. rewrite pow2_plus. change (2 ^ 1) with 2. ring. Qed.

Lemma pow2_Z k : (0 <= k)%Z -> 2 ^ k == inject_Z (2 ^ k).
Proof. intros H. rewrite Zpower_Qpower by exact H. reflexivity. Qed.

(** [2 ^ j] is a multiple of [2 ^ k] for [k <= j]. *)
Lemma pow2_split j k : (k <= j)%Z -> 2 ^ j == inject_Z (2 ^ (j - k)) * 2 ^ k.
Proof.
  intros H. rewrite <- pow2_Z by lia. rewrite <- pow2_plus.
  replace (j - k + k)%Z with j by lia. reflexivity.
Qed.

Lemma Qmake_div (q : Q) : q == inject_Z (Qnum q) / inject_Z (Zpos (Qden q)).
Proof. destruct q as [n d]. simpl. rewrite Qmake_Qdiv. reflexivity. Qed.

Lemma binade_rough (q : Q) :
  0 < q ->
  let e := (Z.log2 (Qnum q) - Z.log2 (Zpos (Qden q)))%Z in
  2 ^ (e - 1) < q /\ q < 2 ^ (e + 1).
Proof.
  intros Hq e. destruct q as [n d]. simpl in e.
  assert (0 < n)%Z as Hn.
  { unfold Qlt in Hq. simpl in Hq. rewrite Z.mul_1_r in Hq. exact Hq. }
  pose proof (Z.log2_spec n Hn) as [Hn1 Hn2].
  pose proof (Z.log2_spec (Zpos d) eq_refl) as [Hd1 Hd2].
  pose proof (Z.log2_nonneg n) as Hln.
  pose proof (Z.log2_nonneg (Zpos d)) as Hld.
  assert (e = Z.log2 n - Z.log2 (Zpos d))%Z as He by reflexivity.
  clearbody e.
  remember (Z.log2 n) as ln. remember (Z.log2 (Zpos d)) as ld.
  assert (2 ^ ln <= inject_Z n) as Qn1.
  { rewrite pow2_Z by lia. rewrite <- Zle_Qle. exact Hn1. }
  assert (inject_Z n < 2 ^ (ln + 1)) as Qn2.
  { rewrite pow2_Z by lia. rewrite <- Zlt_Qlt. exact Hn2. }
  assert (2 ^ ld <= inject_Z (Zpos d)) as Qd1.
  { rewrite pow2_Z by lia. rewrite <- Zle_Qle. exact Hd1. }
  assert (inject_Z (Zpos d) < 2 ^ (ld + 1)) as Qd2.
  { rewrite pow2_Z by lia. rewrite <- Zlt_Qlt. exact Hd2. }
  assert (0 < inject_Z (Zpos d)) as Qd0 by reflexivity.
  assert ((n # d) * inject_Z (Zpos d) == inject_Z n) as Hq2.
  { rewrite (Qmake_Qdiv n d). field. intros H. discriminate H. }
  assert (2 ^ ln == 2 ^ (e - 1) * 2 ^ (ld + 1)) as E1.
  { rewrite <- pow2_plus. replace (e - 1 + (ld + 1))%Z with ln by lia.
    reflexivity. }
  assert (2 ^ (ln + 1) == 2 ^ (e + 1) * 2 ^ ld) as E2.
  { rewrite <- pow2_plus. replace (e + 1 + ld)%Z with (ln + 1)%Z by lia.
    reflexivity. }
  split.
  - apply (Qmult_lt_r _ _ (inject_Z (Zpos d))); [exact Qd0|].
    rewrite Hq2. apply Qlt_le_trans with (2 ^ ln); [|exact Qn1].
    rewrite E1. apply Qmult_lt_l; [apply pow2_pos|exact Qd2].
  - apply (Qmult_lt_r _ _ (inject_Z (Zpos d))); [exact Qd0|].
    rewrite Hq2. apply Qlt_le_trans with (2 ^ (ln + 1)); [exact Qn2|].
    rewrite E2. apply Qmult_le_l; [apply pow2_pos|exact Qd1].
Qed.

Lemma binade_spec (q : Q) :
  0 < q -> 2 ^ binade q <= q /\ q < 2 ^ (binade q + 1).
Proof.
  intros Hq. destruct (binade_rough q Hq) as [Hlo Hhi]. unfold binade.
  set (e := (Z.log2 (Qnum q) - Z.log2 (Zpos (Qden q)))%Z) in *.
  destruct (Qle_bool (2 ^ e) q) eqn:Hb.
  - apply Qle_bool_iff in Hb. split; [exact Hb|exact Hhi].
  - split; [apply Qlt_le_weak, Hlo|].
    replace (e - 1 + 1)%Z with e by lia.
    apply Qnot_le_lt. intros H. apply Qle_bool_iff in H. congruence.
Qed.

Lemma binade_unique (q : Q) e :
  2 ^ e <= q -> q < 2 ^ (e + 1) -> binade q = e.
Proof.
  intros Hlo Hhi.
  assert (0 < q) as Hq by (apply Qlt_le_trans with (2 ^ e); [apply pow2_pos|exact Hlo]).
  destruct (binade_spec q Hq) as [Blo Bhi].
  assert (binade q < e + 1)%Z.
  { apply (Qpower_lt_compat_l_inv 2); [|reflexivity].
    apply Qle_lt_trans with q; assumption. }
  assert (e < binade q + 1)%Z.
  { apply (Qpower_lt_compat_l_inv 2); [|reflexivity].
    apply Qle_lt_trans with q; assumption. }
  lia.
Qed.

Lemma binade_comp q q' : 0 < q -> q == q' -> binade q = binade q'.
Proof.
  intros Hq Heq. destruct (binade_spec q Hq) as [Blo Bhi].
  symmetry. apply binade_unique; rewrite <- Heq; assumption.
Qed.

Lemma binade_mono q q' : 0 < q -> q <= q' -> (binade q <= binade q')%Z.
Proof.
  intros Hq Hle.
  assert (0 < q') as Hq' by (apply Qlt_le_trans with q; assumption).
  destruct (binade_spec q Hq) as [Blo Bhi].
  destruct (binade_spec q' Hq') as [Blo' Bhi'].
  assert (binade q < binade q' + 1)%Z; [|lia].
  apply (Qpower_lt_compat_l_inv 2); [|reflexivity].
  apply Qle_lt_trans with q; [assumption|].
  apply Qle_lt_trans with q'; assumption.
Qed.

Lemma binade_pow2 e : binade (2 ^ e) = e.
Proof.
  apply binade_unique; [apply Qle_refl|]. apply pow2_lt. lia.
Qed.

(** ** Rounding to a multiple of [2 ^ k] *)

Lemma round_at_comp k q q' : q == q' -> round_at k q == round_at k q'.
Proof.
  intros H. unfold round_at.
  rewrite (rne_comp (q / 2 ^ k) (q' / 2 ^ k)) by (rewrite H; reflexivity).
  reflexivity.
Qed.

Lemma div_pow2_le k q q' : q <= q' -> q / 2 ^ k <= q' / 2 ^ k.
Proof.
  intros H. unfold Qdiv. apply Qmult_le_compat_r; [exact H|].
  apply Qlt_le_weak, Qinv_lt_0_compat, pow2_pos.
Qed.

Lemma round_at_mono k q q' : q <= q' -> round_at k q <= round_at k q'.
Proof.
  intros H. unfold round_at. apply Qmult_le_compat_r.
  - rewrite <- Zle_Qle. apply rne_mono, div_pow2_le, H.
  - apply Qlt_le_weak, pow2_pos.
Qed.

Lemma round_at_multiple k m : round_at k (inject_Z m * 2 ^ k) == inject_Z m * 2 ^ k.
Proof.
  unfold round_at.
  rewrite (rne_comp _ (inject_Z m)); [rewrite rne_Z; reflexivity|].
  field. apply Qpower_not_0, two_ne_0.
Qed.

Lemma round_at_fix k j m v :
  (k <= j)%Z -> v == inject_Z m * 2 ^ j -> round_at k v == v.
Proof.
  intros Hkj Hv.
  assert (v == inject_Z (m * 2 ^ (j - k)) * 2 ^ k) as Hv'.
  { rewrite Hv, (pow2_split j k Hkj), inject_Z_mult. ring. }
  rewrite (round_at_comp k _ _ Hv'), round_at_multiple. symmetry. exact Hv'.
Qed.

Lemma round_at_pow2 k j : (k <= j)%Z -> round_at k (2 ^ j) == 2 ^ j.
Proof.
  intros H. apply (round_at_fix k j 1); [exact H|]. ring.
Qed.

Lemma round_at_0 k : round_at k 0 == 0.
Proof. apply (round_at_fix k k 0); [lia|ring]. Qed.

(** ** Rounding of a positive number *)

Lemma ulp_exp_mono q q' : 0 < q -> q <= q' -> (ulp_exp q <= ulp_exp q')%Z.
Proof.
  intros Hq Hle. pose proof (binade_mono q q' Hq Hle). unfold ulp_exp. lia.
Qed.

Lemma ulp_exp_comp q q' : 0 < q -> q == q' -> ulp_exp q = ulp_exp q'.
Proof. intros Hq H. unfold ulp_exp. rewrite (binade_comp q q' Hq H). reflexivity. Qed.

Lemma round_pos_comp q q' : 0 < q -> q == q' -> round_pos q == round_pos q'.
Proof.
  intros Hq H. unfold round_pos. rewrite (ulp_exp_comp q q' Hq H).
  apply round_at_comp, H.
Qed.

Lemma round_pos_nonneg q : 0 < q -> 0 <= round_pos q.
Proof.
  intros Hq. unfold round_pos. rewrite <- (round_at_0 (ulp_exp q)).
  apply round_at_mono, Qlt_le_weak, Hq.
Qed.

Lemma round_pos_mono x y : 0 < x -> x <= y -> round_pos x <= round_pos y.
Proof.
  intros Hx Hle.
  assert (0 < y) as Hy by (apply Qlt_le_trans with x; assumption).
  pose proof (binade_mono x y Hx Hle) as Hb.
  destruct (binade_spec x Hx) as [Xlo Xhi].
  destruct (binade_spec y Hy) as [Ylo Yhi].
  unfold round_pos.
  destruct (Z.eq_dec (ulp_exp x) (ulp_exp y)) as [Heq|Hne].
  - rewrite Heq. apply round_at_mono, Hle.
  - assert (ulp_exp x < ulp_exp y)%Z as Hlt.
    { pose proof (ulp_exp_mono x y Hx Hle). lia. }
    unfold ulp_exp in Hlt |- *.
    assert (binade x < binade y)%Z as Hbxy by lia.
    assert (emin < binade y)%Z as Hemin by lia.
    apply Qle_trans with (2 ^ binade y).
    + rewrite <- (round_at_pow2 (Z.max (binade x) emin - 52) (binade y)) by lia.
      apply round_at_mono. apply Qlt_le_weak.
      apply Qlt_le_trans with (2 ^ (binade x + 1)); [exact Xhi|].
      apply pow2_le. lia.
    + rewrite <- (round_at_pow2 (Z.max (binade y) emin - 52) (binade y)) by lia.
      apply round_at_mono, Ylo.
Qed.

(** A positive multiple of [2 ^ j] whose own unit is not above
    [2 ^ j] is left alone. *)
Lemma round_pos_fix j m v :
  v == inject_Z m * 2 ^ j -> (ulp_exp v <= j)%Z -> round_pos v == v.
Proof. intros Hv Hj. unfold round_pos. exact (round_at_fix _ j m v Hj Hv). Qed.

Lemma rne_lower z q : inject_Z z <= q -> (z <= rne q)%Z.
Proof. intros H. rewrite <- (rne_Z z). apply rne_mono, H. Qed.

Lemma rne_upper z q : q <= inject_Z z -> (rne q <= z)%Z.
Proof. intros H. rewrite <- (rne_Z z). apply rne_mono, H. Qed.

Lemma mul_pow2_lt k (a b : Q) : a < b -> a * 2 ^ k < b * 2 ^ k.
Proof. intros H. apply Qmult_lt_compat_r; [apply pow2_pos|exact H]. Qed.

Lemma mul_pow2_le k (a b : Q) : a <= b -> a * 2 ^ k <= b * 2 ^ k.
Proof.
  intros H. apply Qmult_le_compat_r; [exact H|apply Qlt_le_weak, pow2_pos].
Qed.

Lemma div_mul_pow2 k q : q / 2 ^ k * 2 ^ k == q.
Proof. field. apply Qpower_not_0, two_ne_0. Qed.

Lemma inject_pow2_mul j k a :
  (0 <= j)%Z -> (a = j + k)%Z -> inject_Z (2 ^ j) * 2 ^ k == 2 ^ a.
Proof.
  intros Hj Ha. rewrite <- pow2_Z by exact Hj. symmetry. apply pow2_sum, Ha.
Qed.

Lemma round_pos_idem x :
  0 < x -> round_pos x == 0 \/ (0 < round_pos x /\ round_pos (round_pos x) == round_pos x).
Proof.
  intros Hx. destruct (binade_spec x Hx) as [Xlo Xhi].
  pose proof (round_pos_nonneg x Hx) as Hnn.
  destruct (Qeq_dec (round_pos x) 0) as [H0|H0]; [left; exact H0|right].
  assert (0 < round_pos x) as Hpos.
  { apply Qle_lteq in Hnn. destruct Hnn as [H|H]; [exact H|]. symmetry in H. contradiction. }
  split; [exact Hpos|].
  remember (ulp_exp x) as k eqn:Ek. remember (rne (x / 2 ^ k)) as m eqn:Em.
  assert (round_pos x == inject_Z m * 2 ^ k) as Hv.
  { unfold round_pos, round_at. rewrite <- Ek, <- Em. reflexivity. }
  assert (0 < m)%Z as Hm.
  { rewrite Zlt_Qlt. apply (Qmult_lt_r _ _ (2 ^ k)); [apply pow2_pos|].
    rewrite <- Hv. ring_simplify. exact Hpos. }
  unfold ulp_exp in Ek.
  destruct (Z_lt_le_dec (binade x) emin) as [Hsub|Hnorm].
  - (* below the normal range *)
    assert (k = emin - 52)%Z as Hk by lia.
    assert (m <= 2 ^ 52)%Z as Hm52.
    { rewrite Em. apply rne_upper. apply (Qmult_le_r _ _ (2 ^ k)); [apply pow2_pos|].
      rewrite div_mul_pow2. rewrite (inject_pow2_mul 52 k emin) by lia.
      apply Qlt_le_weak. apply Qlt_le_trans with (2 ^ (binade x + 1)); [exact Xhi|].
      apply pow2_le. lia. }
    apply (round_pos_fix k m); [exact Hv|].
    assert (round_pos x <= 2 ^ emin) as Hle.
    { rewrite Hv. rewrite <- (inject_pow2_mul 52 k emin) by lia.
      apply mul_pow2_le. rewrite <- Zle_Qle. exact Hm52. }
    pose proof (binade_mono _ _ Hpos Hle) as Hb. rewrite binade_pow2 in Hb.
    unfold ulp_exp. lia.
  - assert (k = binade x - 52)%Z as Hk by lia.
    assert (2 ^ 52 <= m)%Z as Hlo.
    { rewrite Em. apply rne_lower. apply (Qmult_le_r _ _ (2 ^ k)); [apply pow2_pos|].
      rewrite div_mul_pow2. rewrite (inject_pow2_mul 52 k (binade x)) by lia.
      exact Xlo. }
    assert (m <= 2 ^ 53)%Z as Hhi.
    { rewrite Em. apply rne_upper. apply (Qmult_le_r _ _ (2 ^ k)); [apply pow2_pos|].
      rewrite div_mul_pow2. rewrite (inject_pow2_mul 53 k (binade x + 1)) by lia.
      apply Qlt_le_weak, Xhi. }
    destruct (Z.eq_dec m (2 ^ 53)%Z) as [Htop|Hntop].
    + assert (round_pos x == 2 ^ (binade x + 1)) as Hv2.
      { rewrite Hv, Htop. apply inject_pow2_mul; lia. }
      apply (round_pos_fix (k + 1)%Z (2 ^ 52)%Z).
      * rewrite Hv2. symmetry. apply inject_pow2_mul; lia.
      * unfold ulp_exp. rewrite (binade_comp _ _ Hpos Hv2), binade_pow2. lia.
    + apply (round_pos_fix k m); [exact Hv|].
      assert (binade (round_pos x) = binade x) as Hb.
      { apply binade_unique.
        - rewrite Hv. rewrite <- (inject_pow2_mul 52 k (binade x)) by lia.
          apply mul_pow2_le. rewrite <- Zle_Qle. exact Hlo.
        - rewrite Hv. rewrite <- (inject_pow2_mul 53 k (binade x + 1)) by lia.
          apply mul_pow2_lt. rewrite <- Zlt_Qlt. lia. }
      unfold ulp_exp. rewrite Hb. lia.
Qed.

Lemma round_pos_Z z : (0 < z <= 2 ^ 53)%Z -> round_pos (inject_Z z) == inject_Z z.
Proof.
  intros [Hz Hle].
  assert (0 < inject_Z z) as Hq by (rewrite <- (Zlt_Qlt 0); exact Hz).
  destruct (Z.eq_dec z (2 ^ 53)%Z) as [Htop|Hntop].
  - apply (round_pos_fix 1%Z (2 ^ 52)%Z).
    + rewrite Htop. reflexivity.
    + assert (inject_Z z == 2 ^ 53) as Hv by (rewrite Htop; reflexivity).
      unfold ulp_exp. rewrite (binade_comp _ _ Hq Hv), binade_pow2.
      unfold emin. lia.
  - apply (round_pos_fix 0%Z z); [change (2 ^ 0) with 1; ring|].
    assert (inject_Z z <= 2 ^ 53) as Hv.
    { rewrite pow2_Z by lia. rewrite <- Zle_Qle. exact Hle. }
    assert (binade (inject_Z z) < 53)%Z; [|unfold ulp_exp, emin; lia].
    destruct (binade_spec _ Hq) as [Blo _].
    apply (Qpower_lt_compat_l_inv 2); [|reflexivity].
    apply Qle_lt_trans with (inject_Z z); [exact Blo|].
    rewrite pow2_Z by lia. rewrite <- Zlt_Qlt. lia.
Qed.

(** ** Rounding of any number *)

Lemma round64Q_pos q : 0 < q -> round64Q q = round_pos q.
Proof.
  intros H. unfold round64Q.
  destruct (Qcompare_spec q 0) as [E|E|E]; [rewrite E in H|..]; try reflexivity;
    exfalso; lra.
Qed.

Lemma round64Q_neg q : q < 0 -> round64Q q = - round_pos (- q).
Proof.
  intros H. unfold round64Q.
  destruct (Qcompare_spec q 0) as [E|E|E]; [rewrite E in H|..]; try reflexivity;
    exfalso; lra.
Qed.

Lemma round64Q_zero q : q == 0 -> round64Q q = 0.
Proof.
  intros H. unfold round64Q.
  destruct (Qcompare_spec q 0) as [E|E|E]; try reflexivity; exfalso; lra.
Qed.

Lemma round64Q_comp q q' : q == q' -> round64Q q == round64Q q'.
Proof.
  intros H. destruct (Q_dec q 0) as [[Hlt|Hgt]|Heq].
  - rewrite (round64Q_neg q Hlt), (round64Q_neg q') by (rewrite <- H; exact Hlt).
    apply Qopp_comp, round_pos_comp; [lra|rewrite H; reflexivity].
  - rewrite (round64Q_pos q Hgt), (round64Q_pos q') by (rewrite <- H; exact Hgt).
    apply round_pos_comp; assumption.
  - rewrite (round64Q_zero q Heq), (round64Q_zero q') by (rewrite <- H; exact Heq).
    reflexivity.
Qed.

Lemma round64Q_opp q : round64Q (- q) == - round64Q q.
Proof.
  destruct (Q_dec q 0) as [[Hlt|Hgt]|Heq].
  - rewrite (round64Q_neg q Hlt), (round64Q_pos (- q)) by lra. ring.
  - rewrite (round64Q_pos q Hgt), (round64Q_neg (- q)) by lra.
    apply Qopp_comp, round_pos_comp; [lra|ring].
  - rewrite (round64Q_zero q Heq), (round64Q_zero (- q)) by lra. reflexivity.
Qed.

Lemma round64Q_nonneg q : 0 <= q -> 0 <= round64Q q.
Proof.
  intros H. destruct (Q_dec q 0) as [[Hlt|Hgt]|Heq].
  - lra.
  - rewrite (round64Q_pos q Hgt). apply round_pos_nonneg, Hgt.
  - rewrite (round64Q_zero q Heq). apply Qle_refl.
Qed.

Lemma round64Q_nonpos q : q <= 0 -> round64Q q <= 0.
Proof.
  intros H. assert (0 <= round64Q (- q)) as Hn by (apply round64Q_nonneg; lra).
  rewrite round64Q_opp in Hn. lra.
Qed.

Lemma round64Q_mono x y : x <= y -> round64Q x <= round64Q y.
Proof.
  intros Hle. destruct (Q_dec x 0) as [[Hx|Hx]|Hx].
  - destruct (Qlt_le_dec y 0) as [Hy|Hy].
    + rewrite (round64Q_neg x Hx), (round64Q_neg y Hy).
      apply Qopp_le_compat, round_pos_mono; lra.
    + apply Qle_trans with 0; [apply round64Q_nonpos; lra|apply round64Q_nonneg, Hy].
  - rewrite (round64Q_pos x Hx), (round64Q_pos y) by lra.
    apply round_pos_mono; assumption.
  - rewrite (round64Q_zero x Hx). apply round64Q_nonneg. lra.
Qed.

Lemma round64Q_idem_pos x : 0 < x -> round64Q (round_pos x) == round_pos x.
Proof.
  intros Hx. destruct (round_pos_idem x Hx) as [H0|[Hpos Hfix]].
  - rewrite (round64Q_zero _ H0). symmetry. exact H0.
  - rewrite (round64Q_pos _ Hpos). exact Hfix.
Qed.

Lemma round64Q_idem q : round64Q (round64Q q) == round64Q q.
Proof.
  destruct (Q_dec q 0) as [[Hlt|Hgt]|Heq].
  - rewrite (round64Q_neg q Hlt), round64Q_opp.
    apply Qopp_comp, round64Q_idem_pos. lra.
  - rewrite (round64Q_pos q Hgt). apply round64Q_idem_pos, Hgt.
  - rewrite (round64Q_zero q Heq). reflexivity.
Qed.

Lemma round64Q_Z z : (Z.abs z <= 2 ^ 53)%Z -> round64Q (inject_Z z) == inject_Z z.
Proof.
  intros Hz. destruct (Z.lt_trichotomy z 0) as [Hlt|[->|Hgt]].
  - assert (inject_Z z == - inject_Z (- z)) as E by (rewrite inject_Z_opp; ring).
    rewrite (round64Q_comp _ _ E), round64Q_opp.
    assert (0 < inject_Z (- z)) as Hpos by (rewrite <- (Zlt_Qlt 0); lia).
    rewrite (round64Q_pos _ Hpos), round_pos_Z by lia. symmetry. exact E.
  - reflexivity.
  - assert (0 < inject_Z z) as Hpos by (rewrite <- (Zlt_Qlt 0); lia).
    rewrite (round64Q_pos _ Hpos). apply round_pos_Z. lia.
Qed.

End FloatFacts.

(** The same on [Qc]. *)
Module Round.
Import FloatFacts.

Lemma this_round64 (x : Qc) : (this (round64 x) == round64Q x)%Q.
Proof. unfold round64. simpl. apply Qred_correct. Qed.

Lemma round64_mono (x y : Qc) : (x ≤ y → round64 x ≤ round64 y)%Qc.
Proof.
  intros H. unfold Qcle. rewrite !this_round64. by apply round64Q_mono.
Qed.

Lemma round64_idem (x : Qc) : round64 (round64 x) = round64 x.
Proof.
  apply Qc_is_canon. rewrite this_round64.
  rewrite (round64Q_comp _ _ (this_round64 x)), this_round64.
  apply round64Q_idem.
Qed.

Lemma round64_0 : round64 0 = 0%Qc.
Proof. apply Qc_is_canon. reflexivity. Qed.

Lemma round64_nonneg (x : Qc) : (0 ≤ x → 0 ≤ round64 x)%Qc.
Proof. intros H. rewrite <- round64_0. by apply round64_mono. Qed.

Lemma round64_nonpos (x : Qc) : (x ≤ 0 → round64 x ≤ 0)%Qc.
Proof. intros H. rewrite <- round64_0. by apply round64_mono. Qed.

Lemma this_exact (z : Z) : (this (exact z) == inject_Z z)%Q.
Proof. unfold exact. simpl. apply Qred_correct. Qed.

(** Integers up to [2 ^ 53] in magnitude are doubles. *)
Lemma round64_exact (z : Z) : Z.abs z ≤ 2 ^ 53 → round64 (exact z) = exact z.
Proof.
  intros Hz. apply Qc_is_canon. rewrite this_round64.
  rewrite (round64Q_comp _ _ (this_exact z)), this_exact.
  by apply round64Q_Z.
Qed.

Lemma float_of_int_exact (z : Z) : Z.abs z ≤ 2 ^ 53 → float_of_int z = exact z.
Proof. apply round64_exact. Qed.

Lemma exact_le_iff (a b : Z) : a ≤ b ↔ (exact a ≤ exact b)%Qc.
Proof. unfold Qcle. rewrite !this_exact, <- Zle_Qle. done. Qed.

Lemma exact_le (a b : Z) : a ≤ b → (exact a ≤ exact b)%Qc.
Proof. apply exact_le_iff. Qed.

Lemma exact_lt_iff (a b : Z) : a < b ↔ (exact a < exact b)%Qc.
Proof. unfold Qclt. rewrite !this_exact, <- Zlt_Qlt. done. Qed.

Lemma exact_lt (a b : Z) : a < b → (exact a < exact b)%Qc.
Proof. apply exact_lt_iff. Qed.

Lemma exact_add (a b : Z) : exact (a + b) = (exact a + exact b)%Qc.
Proof.
  apply Qc_is_canon. unfold Qcplus, Q2Qc. simpl.
  rewrite !Qred_correct, inject_Z_plus. reflexivity.
Qed.

Lemma exact_sub (a b : Z) : exact (a - b) = (exact a - exact b)%Qc.
Proof.
  apply Qc_is_canon. unfold Qcminus, Qcplus, Qcopp, Q2Qc. simpl.
  rewrite !Qred_correct. unfold Z.sub. rewrite inject_Z_plus, inject_Z_opp.
  reflexivity.
Qed.

Lemma exact_0 : exact 0 = 0%Qc.
Proof. by apply Qc_is_canon. Qed.

Lemma float_of_int_mono (a b : Z) : a ≤ b → (float_of_int a ≤ float_of_int b)%Qc.
Proof.
  intros H. unfold float_of_int. apply round64_mono.
  by apply exact_le.
Qed.

Lemma float_of_int_0 : float_of_int 0 = 0%Qc.
Proof. unfold float_of_int. rewrite exact_0. apply round64_0. Qed.

Lemma float_of_int_nonneg (z : Z) : 0 ≤ z → (0 ≤ float_of_int z)%Qc.
Proof. intros H. rewrite <- float_of_int_0. by apply float_of_int_mono. Qed.

Lemma float_of_int_nonpos (z : Z) : z ≤ 0 → (float_of_int z ≤ 0)%Qc.
Proof. intros H. rewrite <- float_of_int_0. by apply float_of_int_mono. Qed.

(** Arithmetic on [Qc] by way of [Q]. *)
Ltac qc_lra :=
  unfold Qcle, Qclt, Qcminus, Qcplus, Qcopp in *; cbn [this Q2Qc] in *;
  rewrite ?Qred_correct in *; lra.

Lemma Qc_sub_ge (x y : Qc) : (y ≤ 0 → x ≤ x - y)%Qc.
Proof. intros H. qc_lra. Qed.

Lemma Qc_sub_le (x y : Qc) : (0 ≤ y → x - y ≤ x)%Qc.
Proof. intros H. qc_lra. Qed.

Lemma Qc_sub_nonneg (x y : Qc) : (y ≤ x → 0 ≤ x - y)%Qc.
Proof. intros H. qc_lra. Qed.

(** Subtracting a whole number of seconds that is not positive from a
    double does not give less. *)
Lemma float_sub_ge (x : Qc) (w : Z) :
  round64 x = x → w ≤ 0 → (x ≤ float_sub x (float_of_int w))%Qc.
Proof.
  intros Hx Hw. rewrite <- Hx at 1. apply round64_mono.
  apply Qc_sub_ge. by apply float_of_int_nonpos.
Qed.

(** Every reading of the clock is a double. *)
Lemma time_time_double env k : round64 (time_time env k) = time_time env k.
Proof. apply round64_idem. Qed.

End Round.

(** ** Truncation *)

Lemma int_of_float_floor (x : Qc) :
  (0 ≤ x)%Qc → int_of_float x = Qfloor (this x).
Proof.
  destruct x as [[n d] Hc]. unfold Qcle, Qle, int_of_float. simpl.
  intros Hn. apply Z.quot_div_nonneg; lia.
Qed.

Lemma int_of_float_mono (x y : Qc) :
  (0 ≤ x)%Qc → (x ≤ y)%Qc → int_of_float x ≤ int_of_float y.
Proof.
  intros Hx Hxy.
  assert (0 ≤ y)%Qc as Hy by (by apply Qcle_trans with x).
  rewrite (int_of_float_floor x Hx), (int_of_float_floor y Hy).
  by apply Qfloor_resp_le.
Qed.

Lemma int_of_float_exact (z : Z) : 0 ≤ z → int_of_float (exact z) = z.
Proof.
  intros Hz. rewrite int_of_float_floor.
  - rewrite (Qfloor_comp _ _ (Round.this_exact z)). apply Qfloor_Z.
  - rewrite <- Round.exact_0. by apply Round.exact_le.
Qed.

Lemma int_of_float_le (x : Qc) : (0 ≤ x)%Qc → (exact (int_of_float x) ≤ x)%Qc.
Proof.
  intros Hx. rewrite int_of_float_floor by done.
  unfold Qcle. rewrite Round.this_exact. apply Qfloor_le.
Qed.

Lemma int_of_float_lt (x : Qc) :
  (0 ≤ x)%Qc → (x < exact (int_of_float x + 1))%Qc.
Proof.
  intros Hx. rewrite int_of_float_floor by done.
  unfold Qclt. rewrite Round.this_exact. apply Qlt_floor.
Qed.

Lemma int_of_float_nonneg (x : Qc) : (0 ≤ x)%Qc → 0 ≤ int_of_float x.
Proof.
  intros Hx. rewrite <- (int_of_float_exact 0) by done.
  apply int_of_float_mono; rewrite Round.exact_0; done.
Qed.

(** ** Strings *)

Module StringFacts.

Lemma length_app (a b : string) :
  String.length (a +:+ b) = (String.length a + String.length b)%nat.
Proof. induction a as [|c a IH]; simpl; [done|]. by rewrite IH. Qed.

Lemma app_inj_l (a x y : string) : a +:+ x = a +:+ y → x = y.
Proof. induction a as [|c a IH]; simpl; [done|]. intros [=]. auto. Qed.

Lemma app_inj_r (a x y : string) : x +:+ a = y +:+ a → x = y.
Proof.
  revert y. induction x as [|c x IH]; intros [|d y] Heq.
  - done.
  - apply (f_equal String.length) in Heq.
    rewrite !length_app in Heq. cbn [String.length] in Heq. lia.
  - apply (f_equal String.length) in Heq.
    rewrite !length_app in Heq. cbn [String.length] in Heq. lia.
  - cbn [String.append] in Heq. injection Heq as -> Heq. f_equal. by apply IH.
Qed.

End StringFacts.

(** ** The store *)

Module RedisFacts.
Import Redis.

Lemma zset_put_zset key z r : zset key (put_zset key z r) = z.
Proof.
  unfold put_zset, zset. case_decide as Hz; simpl.
  - by rewrite lookup_delete_eq.
  - by rewrite lookup_insert_eq.
Qed.

Lemma zset_put_zset_ne key key' z r :
  key ≠ key' → zset key' (put_zset key z r) = zset key' r.
Proof.
  intros Hne. unfold put_zset, zset. case_decide; simpl.
  - by rewrite lookup_delete_ne.
  - by rewrite lookup_insert_ne.
Qed.

Lemma strs_put_zset key z r : strs (put_zset key z r) = strs r.
Proof. unfold put_zset. by case_decide. Qed.

Lemma zsets_expire_pos key s r : 0 < s → zsets (expire key s r) = zsets r.
Proof.
  intros Hs. unfold expire. destruct (exists_key key r); [|done].
  destruct (s <=? 0) eqn:Hle; [apply Z.leb_le in Hle; lia|done].
Qed.

Lemma strs_expire_pos key s r : 0 < s → strs (expire key s r) = strs r.
Proof.
  intros Hs. unfold expire. destruct (exists_key key r); [|done].
  destruct (s <=? 0) eqn:Hle; [apply Z.leb_le in Hle; lia|done].
Qed.

Lemma zset_expire_pos key key' s r :
  0 < s → zset key' (expire key s r) = zset key' r.
Proof. intros Hs. unfold zset. by rewrite zsets_expire_pos. Qed.

(** An expiry concerns its own key only. *)
Lemma zset_expire_ne key key' s r :
  key ≠ key' → zset key' (expire key s r) = zset key' r.
Proof.
  intros Hne. unfold expire. destruct (exists_key key r); [|done].
  destruct (s <=? 0); [|done].
  unfold zset, del. cbn [zsets]. by rewrite lookup_delete_ne.
Qed.

Lemma ttl_expire_ne key key' s r :
  key ≠ key' → ttl (expire key s r) !! key' = ttl r !! key'.
Proof.
  intros Hne. unfold expire. destruct (exists_key key r); [|done].
  destruct (s <=? 0); cbn [ttl del].
  - by rewrite lookup_delete_ne.
  - by rewrite lookup_insert_ne.
Qed.

(** On a key that holds a sorted set no string value is touched. *)
Lemma strs_expire_zset key s r :
  is_Some (zsets r !! key) → strs (expire key s r) = strs r.
Proof.
  intros Hz. unfold expire. destruct (exists_key key r); [|done].
  destruct (s <=? 0); [|done]. unfold del. cbn [strs]. by case_decide.
Qed.

(** A time that is not positive deletes the sorted set. *)
Lemma zset_expire_del key s r :
  s ≤ 0 → is_Some (zsets r !! key) → zset key (expire key s r) = ∅.
Proof.
  intros Hs Hz. unfold expire, exists_key.
  rewrite bool_decide_eq_true_2 by (by left).
  apply Z.leb_le in Hs. rewrite Hs.
  unfold zset, del. cbn [zsets]. by rewrite lookup_delete_eq.
Qed.

Lemma zsets_zadd key m sc r : is_Some (zsets (zadd key m sc r) !! key).
Proof.
  unfold zadd, put_zset. case_decide as He.
  - by apply insert_non_empty in He.
  - cbn [zsets]. rewrite lookup_insert_eq. eauto.
Qed.

Lemma zset_zremrangebyscore key lo hi r :
  zset key (zremrangebyscore key lo hi r)
  = filter (λ ms : Qc * Qc, ¬ (lo ≤ ms.2 ∧ ms.2 ≤ hi)%Qc) (zset key r).
Proof. apply zset_put_zset. Qed.

Lemma zset_zadd key m s r : zset key (zadd key m s r) = <[m := s]> (zset key r).
Proof. apply zset_put_zset. Qed.

Lemma zset_zrem key m r : zset key (zrem key m r) = delete m (zset key r).
Proof. apply zset_put_zset. Qed.

End RedisFacts.

(** ** C2: the decision of one sliding-window check *)

Module SlidingWindow.
Import Redis RedisFacts RateLimiter Window.

Lemma pipeline_count key now w r :
  (pipeline key now w r).1 = count key now w r.
Proof.
  unfold pipeline, count, surviving, window_start, zcard. simpl.
  by rewrite zset_zremrangebyscore.
Qed.

(** The window after the pipeline: the events not evicted and the new
    one, unless the expiry, not being positive, deletes the key. *)
Lemma pipeline_zset key now w r :
  zset key (pipeline key now w r).2
  = if w + 1 <=? 0 then ∅ else <[now := now]> (surviving key now w r).
Proof.
  unfold pipeline, surviving, window_start. cbn [snd].
  destruct (w + 1 <=? 0) eqn:Hw.
  - apply zset_expire_del; [by apply Z.leb_le|apply zsets_zadd].
  - apply Z.leb_gt in Hw.
    by rewrite zset_expire_pos, zset_zadd, zset_zremrangebyscore.
Qed.

Lemma pipeline_zset_pos key now w r :
  0 ≤ w →
  zset key (pipeline key now w r).2 = <[now := now]> (surviving key now w r).
Proof.
  intros Hw. rewrite pipeline_zset.
  destruct (w + 1 <=? 0) eqn:Hle; [apply Z.leb_le in Hle; lia|done].
Qed.

(** What [is_allowed] returns and what it leaves behind, in one
    equation. *)
Lemma is_allowed_eq env key limit_ w (wd : World) :
  let now := time_time env (clock wd) in
  let c := count key now w (redis wd) in
  let info := make_info limit_ c now w in
  let r1 := (pipeline key now w (redis wd)).2 in
  is_allowed env key limit_ w wd
  = (Ok (c <? limit_, info),
     add_call {| call_key := key; call_limit := limit_; call_window := w;
                 call_allowed := c <? limit_; call_info := info |}
       (set_redis (if c <? limit_ then r1 else zrem key now r1) (tick wd))).
Proof.
  intros now c info r1.
  pose proof (pipeline_count key now w (redis wd)) as Hc.
  unfold is_allowed, mbind, M_bind, bind, now_, with_redis.
  cbn -[pipeline make_info time_time]. fold now. subst r1.
  destruct (pipeline key now w (redis wd)) as [c' r']. simpl in Hc.
  subst c'. fold c. rewrite (Z.ltb_antisym limit_ c).
  destruct (limit_ <=? c); reflexivity.
Qed.

(** The float sum of a time that is not negative and a whole number of
    seconds lies between the whole second of the time plus those
    seconds and one second more. *)
Lemma float_add_seconds (now : Qc) (w : Z) :
  (0 ≤ now)%Qc → 0 ≤ w → int_of_float now + w < 2 ^ 53 →
  int_of_float now + w
  ≤ int_of_float (float_add now (float_of_int w))
  ≤ int_of_float now + w + 1.
Proof.
  intros Hnow Hw Hbig.
  pose proof (int_of_float_nonneg now Hnow) as Hf.
  pose proof (int_of_float_le now Hnow) as Hlo.
  pose proof (int_of_float_lt now Hnow) as Hhi.
  set (f := int_of_float now) in *.
  rewrite Round.float_of_int_exact by lia.
  assert (exact (f + w) ≤ float_add now (exact w))%Qc as Hsum_lo.
  { rewrite <- (Round.round64_exact (f + w)) by lia.
    apply Round.round64_mono. rewrite Round.exact_add.
    by apply Qcplus_le_compat. }
  assert (float_add now (exact w) ≤ exact (f + w + 1))%Qc as Hsum_hi.
  { rewrite <- (Round.round64_exact (f + w + 1)) by lia.
    apply Round.round64_mono.
    replace (f + w + 1) with ((f + 1) + w) by lia. rewrite Round.exact_add.
    apply Qcplus_le_compat; [by apply Qclt_le_weak|done]. }
  assert (0 ≤ exact (f + w))%Qc as H0.
  { rewrite <- Round.exact_0. apply Round.exact_le. lia. }
  split.
  - etrans; [|apply (int_of_float_mono _ _ H0 Hsum_lo)].
    by rewrite int_of_float_exact by lia.
  - etrans; [apply (int_of_float_mono _ (exact (f + w + 1)))|].
    + by apply Qcle_trans with (exact (f + w)).
    + done.
    + by rewrite int_of_float_exact by lia.
Qed.

(** C2.  A check is let through exactly when the number [count] of
    surviving events is below [limit]; the decision carries
    [remaining = max(0, limit - count - 1)] when let through and
    [remaining = max(0, limit - count)] when denied.  In both cases
    [reset] is [now + window_seconds], the sum of the float [now] and
    the window as floats add, in whole seconds; for a time that is not
    negative this is the whole second of [now] plus the window, or,
    where the float sum rounds up to the next whole number, one second
    more. *)
Theorem is_allowed_decision env key limit_ w (wd : World) :
  let now := time_time env (clock wd) in
  let c := count key now w (redis wd) in
  ∃ allowed info wd',
    is_allowed env key limit_ w wd = (Ok (allowed, info), wd')
    ∧ allowed = (c <? limit_)
    ∧ (allowed = true → remaining info = Z.max 0 (limit_ - c - 1))
    ∧ (allowed = false → remaining info = Z.max 0 (limit_ - c))
    ∧ reset info = int_of_float (float_add now (float_of_int w))
    ∧ ((0 ≤ now)%Qc → 0 ≤ w → int_of_float now + w < 2 ^ 53 →
       int_of_float now + w ≤ reset info ≤ int_of_float now + w + 1)
    ∧ limit info = limit_
    ∧ window info = w.
Proof.
  intros now c. rewrite is_allowed_eq. fold now c.
  eexists _, _, _. split; [reflexivity|].
  split; [reflexivity|]. cbn [remaining reset limit window make_info].
  split; [reflexivity|]. split.
  { intros Hden. apply Z.ltb_ge in Hden. lia. }
  split; [reflexivity|]. split; [|done].
  apply float_add_seconds.
Qed.

End SlidingWindow.

Module SlidingWindowExamples.
Import SlidingWindow RateLimiter Window.

(** A first check at 1700000000.5 with limit 60 and a 60-second
    window: let through, 59 remaining, reset at second 1700000060. *)
Lemma is_allowed_decision_witness :
  ∃ info wd',
    is_allowed Sample.always_timeout "k" 60 60 world0 = (Ok (true, info), wd')
    ∧ remaining info = 59 ∧ reset info = 1700000060
    ∧ 1700000060 ≤ reset info ≤ 1700000061.
Proof.
  destruct (is_allowed_decision Sample.always_timeout "k" 60 60 world0)
    as (a & info & wd' & Heq & Ha & Hadm & _ & Hreset & Hbounds & _ & _).
  vm_compute in Ha. subst a. exists info, wd'.
  split; [exact Heq|]. split; [|split].
  - rewrite (Hadm eq_refl). vm_compute. reflexivity.
  - rewrite Hreset. vm_compute. reflexivity.
  - apply Hbounds.
    + vm_compute. discriminate.
    + lia.
    + vm_compute. reflexivity.
Defined.

(** A check at 2147483647.9999998 with a 60-second window: the float
    sum is 2147483708, one second more than the whole second of the
    time plus the window. *)
Example is_allowed_reset_rounds_up :
  ∃ info wd',
    is_allowed Sample2.clock_2038 "k" 60 60 world0 = (Ok (true, info), wd')
    ∧ reset info = 2147483708
    ∧ int_of_float (time_time Sample2.clock_2038 0) + 60 = 2147483707.
Proof. eexists _, _. vm_compute. split; [reflexivity|]. by split. Qed.

End SlidingWindowExamples.

(** ** C3: two checks in flight never both pass a limit of one *)

Module RaceFacts.
Import Redis RedisFacts RateLimiter Window SlidingWindow Race.

Section RaceFacts.
Context (key : string) (w : Z) (now1 now2 : Qc).
Hypothesis window_nonneg : 0 ≤ w.
Hypothesis close12 : (window_start now2 w < now1)%Qc.
Hypothesis close21 : (window_start now1 w < now2)%Qc.

Local Arguments pipeline : simpl never.
Local Arguments count : simpl never.
Local Abbreviation step := (Race.step key 1 w).
Local Abbreviation sched := (Race.sched key 1 w).
Local Abbreviation run := (Race.run key 1 w).

(** An event that a check does not evict is counted by it. *)
Lemma count_pos now m r :
  zset key r !! m = Some m → (window_start now w < m)%Qc →
  1 ≤ count key now w r.
Proof.
  intros Hm Hlt. unfold count, surviving.
  assert (size (filter (λ ms : Qc * Qc,
            ¬ (0 ≤ ms.2 ∧ ms.2 ≤ window_start now w)%Qc) (zset key r)) ≠ 0%nat)
    as Hne; [|lia].
  apply map_size_ne_0_lookup. exists m.
  rewrite map_lookup_filter_Some_2 with (x := m); [eauto|done|].
  simpl. intros [_ Hle]. by apply Qclt_nge in Hlt.
Qed.

Lemma count_empty now r : zset key r = ∅ → count key now w r = 0.
Proof.
  intros He. unfold count, surviving. rewrite He.
  by rewrite map_filter_empty.
Qed.

Local Abbreviation inv := (Race.inv key now1 now2).

Lemma step_pipeline limit_ now r :
  Race.step key limit_ w {| now := now; pc := AtPipeline |} r
  = (let c := count key now w r in
     {| now := now;
        pc := if limit_ <=? c then AtZrem (make_info limit_ c now w)
              else Returned true (make_info limit_ c now w) |},
     (pipeline key now w r).2).
Proof.
  unfold Race.step. cbn [pc Race.now].
  rewrite <- (pipeline_count key now w r).
  destruct (pipeline key now w r) as [c r']. cbn [fst snd].
  by destruct (limit_ <=? c).
Qed.

Lemma step_first_pipeline now r :
  zset key r = ∅ →
  ∃ info r', step {| now := now; pc := AtPipeline |} r
             = ({| now := now; pc := Returned true info |}, r')
             ∧ zset key r' !! now = Some now.
Proof.
  intros He. rewrite step_pipeline. cbn zeta.
  rewrite count_empty by done. cbn [Z.leb Z.compare].
  eexists _, _. split; [reflexivity|].
  rewrite pipeline_zset_pos by done. apply lookup_insert_eq.
Qed.

Lemma step_second_pipeline now m r :
  zset key r !! m = Some m → (window_start now w < m)%Qc →
  ∃ info r', step {| now := now; pc := AtPipeline |} r
             = ({| now := now; pc := AtZrem info |}, r').
Proof.
  intros Hm Hlt. rewrite step_pipeline. cbn zeta.
  pose proof (count_pos now m r Hm Hlt) as Hpos.
  destruct (1 <=? count key now w r) eqn:Hle; [eauto|].
  apply Z.leb_gt in Hle. lia.
Qed.

Lemma inv_sched s t : inv s → inv (sched s t).
Proof.
  destruct s as [r [n1 p1] [n2 p2]]. unfold Race.inv. simpl.
  intros (-> & -> & Hpc). destruct t; simpl.
  - destruct p1 as [|i1|[] i1].
    + destruct p2 as [|i2|[] i2]; try done.
      * destruct (step_first_pipeline now1 r Hpc) as (i & r' & -> & Hz). done.
      * destruct (step_second_pipeline now1 now2 r Hpc close21)
          as (i & r' & ->). done.
    + unfold Race.step; simpl. by destruct p2 as [|i2|[] i2].
    + unfold Race.step; simpl. done.
    + unfold Race.step; simpl. done.
  - destruct p2 as [|i2|[] i2].
    + destruct p1 as [|i1|[] i1]; try done.
      * destruct (step_first_pipeline now2 r Hpc) as (i & r' & -> & Hz). done.
      * destruct (step_second_pipeline now2 now1 r Hpc close12)
          as (i & r' & ->). done.
    + unfold Race.step; simpl. by destruct p1 as [|i1|[] i1].
    + unfold Race.step; simpl. done.
    + unfold Race.step; simpl. done.
Qed.

Lemma inv_run schedule s : inv s → inv (run schedule s).
Proof.
  revert s. induction schedule as [|t schedule IH]; intros s Hs; [done|].
  simpl. apply IH. by apply inv_sched.
Qed.

Lemma inv_not_both s :
  inv s →
  ¬ (reported (call1 s) = Some true ∧ reported (call2 s) = Some true).
Proof.
  unfold Race.inv, reported. intros (_ & _ & Hpc) [H1 H2].
  destruct (pc (call1 s)) as [|?|[] ?], (pc (call2 s)) as [|?|[] ?];
    done.
Qed.

End RaceFacts.

(** Run alone, the two steps of a call are [is_allowed]: same decision,
    same store. *)
Lemma steps_are_is_allowed env key limit_ w (wd : World) :
  let c0 := {| now := time_time env (clock wd); pc := AtPipeline |} in
  let '(c1, r1) := Race.step key limit_ w c0 (redis wd) in
  let '(c2, r2) := Race.step key limit_ w c1 r1 in
  ∃ allowed info wd',
    is_allowed env key limit_ w wd = (Ok (allowed, info), wd')
    ∧ pc c2 = Returned allowed info ∧ redis wd' = r2.
Proof.
  intros c0. subst c0. rewrite step_pipeline. cbn zeta.
  rewrite is_allowed_eq. cbn zeta. rewrite (Z.ltb_antisym limit_).
  destruct (limit_ <=? _); unfold Race.step; cbn [pc Race.now negb];
    eexists _, _, _; (split; [reflexivity|]); split; reflexivity.
Qed.

Lemma sched_First key limit_ w s :
  Race.sched key limit_ w s First
  = {| store := (Race.step key limit_ w (call1 s) (store s)).2;
       call1 := (Race.step key limit_ w (call1 s) (store s)).1;
       call2 := call2 s |}.
Proof. unfold Race.sched. by destruct (Race.step _ _ _ _ _). Qed.

Lemma sched_Second key limit_ w s :
  Race.sched key limit_ w s Second
  = {| store := (Race.step key limit_ w (call2 s) (store s)).2;
       call1 := call1 s;
       call2 := (Race.step key limit_ w (call2 s) (store s)).1 |}.
Proof. unfold Race.sched. by destruct (Race.step _ _ _ _ _). Qed.

(** A call has returned after its second step, whatever happened to
    the store in between. *)
Lemma reported_after_two key limit_ w c r r' :
  is_Some (reported
             (Race.step key limit_ w (Race.step key limit_ w c r).1 r').1).
Proof.
  destruct c as [n [|info|a info]].
  - rewrite step_pipeline. cbn zeta. cbn [fst].
    destruct (limit_ <=? _); unfold Race.step, reported; cbn; eauto.
  - unfold Race.step, reported; cbn; eauto.
  - unfold Race.step, reported; cbn; eauto.
Qed.

(** Every schedule that gives each call two turns lets both return. *)
Lemma two_turns_return key limit_ w s :
  ∀ t1 t2 : Tid,
    let s' := Race.run key limit_ w [t2; t2] (Race.run key limit_ w [t1; t1] s) in
    t1 ≠ t2 →
    is_Some (reported (call1 s')) ∧ is_Some (reported (call2 s')).
Proof.
  intros t1 t2 s' Hne. subst s'. unfold Race.run. cbn [foldl].
  destruct t1, t2; try done;
    rewrite ?sched_First, ?sched_Second; cbn [call1 call2 store];
    split; apply reported_after_two.
Qed.




End RaceFacts.

(** ** C4: what [TokenBucket.consume] writes *)

Module TokenBucketFacts.
Import Redis RedisFacts TokenBucket.

Lemma keys_differ key : bucket_key key ≠ last_update_key key.
Proof.
  unfold bucket_key, last_update_key. intros Heq.
  apply (f_equal String.length) in Heq.
  rewrite !StringFacts.length_app in Heq. simpl in Heq. lia.
Qed.

Lemma get_persist_tokens key new_tokens now r :
  get (bucket_key key) (persist key new_tokens now r) = Some new_tokens.
Proof.
  unfold persist, get. rewrite !strs_expire_pos by lia. unfold set. simpl.
  rewrite lookup_insert_ne by (apply not_eq_sym, keys_differ).
  apply lookup_insert_eq.
Qed.

Lemma get_persist_last key new_tokens now r :
  get (last_update_key key) (persist key new_tokens now r) = Some now.
Proof.
  unfold persist, get. rewrite !strs_expire_pos by lia. unfold set. simpl.
  apply lookup_insert_eq.
Qed.

(** The whole of [consume] in one equation. *)
Lemma consume_eq settings env key tokens bucket_size refill_rate (wd : World) :
  let size := effective_size settings bucket_size in
  let now := time_time env (clock wd) in
  let current_tokens :=
    refilled size refill_rate now (get (bucket_key key) (redis wd))
      (get (last_update_key key) (redis wd)) in
  consume settings env key tokens bucket_size refill_rate wd
  = if num_ge current_tokens tokens
    then (Ok (true, int_of (num_sub current_tokens tokens)),
          set_redis (persist key (value (num_sub current_tokens tokens))
                       now (redis wd)) (tick wd))
    else (Ok (false, int_of current_tokens),
          set_redis (redis wd) (tick wd)).
Proof.
  intros size now current_tokens.
  unfold consume, mbind, M_bind, bind, now_, with_redis, mret, M_ret, ret.
  cbn -[persist refilled num_ge num_sub int_of value time_time].
  fold size now current_tokens.
  by destruct (num_ge current_tokens tokens).
Qed.

(** C4, as the code has it.  With enough tokens after the lazy refill,
    [consume] grants and persists the refilled and debited count with
    [now] as the time of the last refill; with too few it denies and
    leaves the store as it was: nothing is written. *)
Theorem consume_persists_only_when_granted settings env key tokens bucket_size
    refill_rate (wd : World) :
  let size := effective_size settings bucket_size in
  let now := time_time env (clock wd) in
  let current_tokens :=
    refilled size refill_rate now (get (bucket_key key) (redis wd))
      (get (last_update_key key) (redis wd)) in
  ∃ res wd',
    consume settings env key tokens bucket_size refill_rate wd = (Ok res, wd')
    ∧ if num_ge current_tokens tokens
      then res = (true, int_of (num_sub current_tokens tokens))
           ∧ get (bucket_key key) (redis wd')
             = Some (value (num_sub current_tokens tokens))
           ∧ get (last_update_key key) (redis wd') = Some now
      else res = (false, int_of current_tokens)
           ∧ redis wd' = redis wd.
Proof.
  intros size now current_tokens. rewrite consume_eq.
  fold size now current_tokens.
  destruct (num_ge current_tokens tokens);
    eexists _, _; (split; [reflexivity|]).
  - split; [reflexivity|]. cbn [redis set_redis]. split.
    + apply get_persist_tokens.
    + apply get_persist_last.
  - by split.
Qed.

(** A bucket drained at 1700000000.5 is asked for two tokens one second
    later at a refill rate of one token per second.  One token has
    come back, so the call is denied with 1 remaining; the store still
    holds 0 tokens and the old refill time, not the refilled count and
    the new time. *)
Lemma consume_denied_counterexample :
  ∃ wd',
    consume Sample.settings Sample.always_timeout Sample.tool_bucket 2 None
      1%Qc Sample.drained_world_later
    = (Ok (false, 1), wd')
    ∧ get (bucket_key Sample.tool_bucket) (redis wd') ≠ Some 1%Qc
    ∧ get (last_update_key Sample.tool_bucket) (redis wd')
      ≠ Some (Sample.clock_from_half 1)
    ∧ redis wd' = redis Sample.drained_world_later.
Proof.
  eexists. split; [vm_compute; reflexivity|].
  split; [|split]; vm_compute; [discriminate|discriminate|reflexivity].
Qed.

End TokenBucketFacts.

(** ** C5: the tool-scoped check *)

Module ToolLimitFacts.
Import Redis RedisFacts RateLimiter Window SlidingWindow.

Lemma strs_zrem key m r : strs (zrem key m r) = strs r.
Proof. apply strs_put_zset. Qed.

Lemma strs_pipeline key now w r : strs (pipeline key now w r).2 = strs r.
Proof.
  unfold pipeline. cbn [snd].
  rewrite strs_expire_zset by apply zsets_zadd.
  unfold zadd, zremrangebyscore. by rewrite !strs_put_zset.
Qed.

(** C5, as the code has it.  The tool-scoped check is one sliding-window
    check on the key of the tool and the user, with the configured
    per-minute limit and a 60-second window.  Its decision depends only
    on the events of that key, and it neither reads nor writes any
    bucket state: the string values of the store are left as they
    were. *)
Theorem check_tool_limit_is_window_only settings env tool_id user_id
    (wd : World) :
  let key := tool_key tool_id user_id in
  let now := time_time env (clock wd) in
  let c := count key now 60 (redis wd) in
  ∃ info wd',
    check_tool_limit settings env tool_id user_id wd
    = (Ok (c <? RATE_LIMIT_TOOL_PER_MINUTE settings, info), wd')
    ∧ strs (redis wd') = strs (redis wd)
    ∧ (Gate.check_of <$> calls wd')
      = (Gate.check_of <$> calls wd)
        ++ [ {| Gate.check_key := key;
                Gate.check_limit := RATE_LIMIT_TOOL_PER_MINUTE settings;
                Gate.check_window := 60 |} ].
Proof.
  intros key now c. unfold check_tool_limit. rewrite is_allowed_eq.
  fold key now c. eexists _, _. split; [reflexivity|].
  cbn [redis set_redis add_call calls tick]. split.
  - destruct (c <? _); [|rewrite strs_zrem]; apply strs_pipeline.
  - by rewrite fmap_app.
Qed.

(** With the burst bucket of the tool and user drained, a token-bucket
    check of that key denies, and the tool-scoped check admits all the
    same. *)
Lemma check_tool_limit_counterexample :
  (∃ wd', TokenBucket.consume Sample.settings Sample.always_timeout
            Sample.tool_bucket 1 None 1%Qc Sample.drained_world
          = (Ok (false, 0), wd'))
  ∧ (∃ info wd', check_tool_limit Sample.settings Sample.always_timeout
                   "t" "u" Sample.drained_world = (Ok (true, info), wd')).
Proof.
  split.
  - eexists. vm_compute. reflexivity.
  - eexists _, _. vm_compute. reflexivity.
Qed.

End ToolLimitFacts.

(** ** C6: the order of the gate's checks *)

Module GateFacts.
Import RateLimiter Window SlidingWindow Gate.

(** [is_allowed] returns a decision, and records exactly one call that
    carries its arguments and that decision. *)
Lemma is_allowed_call env key limit_ w (wd : World) :
  ∃ allowed info wd',
    is_allowed env key limit_ w wd = (Ok (allowed, info), wd')
    ∧ window info = w
    ∧ calls wd' = calls wd
                  ++ [ {| call_key := key; call_limit := limit_;
                          call_window := w; call_allowed := allowed;
                          call_info := info |} ].
Proof. rewrite is_allowed_eq. eexists _, _, _. by split. Qed.

Local Opaque is_allowed.

Ltac run_check H :=
  match goal with
  | |- context [is_allowed ?env ?k ?l ?w ?wd] =>
      let a := fresh "a" in
      let info := fresh "info" in
      let wd' := fresh "wd" in
      let Hw := fresh "Hw" in
      destruct (is_allowed_call env k l w wd) as (a & info & wd' & -> & Hw & H)
  end.

(** The evaluation of a list of checks: the calls it records are the
    checks of a prefix of the list, in order; all of them were admitted
    except, on a denial, the last one, whose decision is the result. *)
Lemma first_denial_trace env checks (wd : World) :
  ∃ res wd' trace,
    first_denial env checks wd = (Ok res, wd')
    ∧ calls wd' = calls wd ++ trace
    ∧ match res with
      | None => check_of <$> trace = checks ∧ Forall let_through trace
      | Some info =>
          ∃ passed denied rest,
            trace = passed ++ [denied]
            ∧ checks = (check_of <$> trace) ++ rest
            ∧ Forall let_through passed
            ∧ call_allowed denied = false
            ∧ call_info denied = info
            ∧ window info = call_window denied
      end.
Proof.
  revert wd. induction checks as [|c checks IH]; intros wd.
  - exists None, wd, []. cbn. by rewrite app_nil_r.
  - cbn [first_denial]. unfold mbind, M_bind, bind. run_check Hc.
    destruct a.
    + destruct (IH wd0) as (res & wd' & trace & -> & Htr & Hres).
      eexists res, wd', (_ :: trace). split; [done|]. split.
      { rewrite Htr, Hc, <- app_assoc. reflexivity. }
      destruct res as [info'|].
      * destruct Hres as (passed & denied & rest & -> & -> & Hp & Hd & Hi & Hwin).
        eexists (_ :: passed), denied, rest. split; [reflexivity|].
        split; [by destruct c|]. split; [|done].
        constructor; [reflexivity|done].
      * destruct Hres as [<- Hall]. split; [by destruct c|].
        constructor; [reflexivity|done].
    + eexists (Some info), wd0, [_]. split; [done|]. split; [exact Hc|].
      eexists [], _, checks. split; [reflexivity|].
      split; [by destruct c|]. by repeat split.
Qed.

(** The gate of [deps.py] is that evaluation, run on the checks in
    their order of precedence. *)
Lemma check_rate_limit_refines settings env client user (wd : World) :
  Deps.check_rate_limit settings env client user wd
  = match first_denial env
            (precedence settings (default "unknown" client) (Deps.id <$> user))
            wd with
    | (Ok None, wd') => (Ok (), wd')
    | (Ok (Some info), wd') =>
        (Raise (HTTPException 429 "Rate limit exceeded" (headers_of info)), wd')
    | (Raise e, wd') => (Raise e, wd')
    end.
Proof.
  unfold Deps.check_rate_limit, check_ip_limit, check_user_limit, precedence,
    ip_checks, user_checks.
  destruct user as [u|]; cbn [from_option fmap option_fmap option_map app];
    cbn [first_denial check_key check_limit check_window];
    unfold mbind, M_bind, bind, mret, M_ret, ret, raise.
  - run_check H1. destruct a; cbn [negb]; [|reflexivity].
    run_check H2. destruct a; cbn [negb]; [|reflexivity].
    run_check H3. destruct a; cbn [negb]; [|reflexivity].
    run_check H4. destruct a; cbn [negb]; reflexivity.
  - run_check H1. destruct a; cbn [negb]; [|reflexivity].
    run_check H2. destruct a; cbn [negb]; reflexivity.
Qed.


(** Unauthenticated callers: two checks at most, both on the IP. *)
Lemma precedence_unauthenticated settings ip :
  precedence settings ip None = ip_checks settings ip.
Proof. reflexivity. Qed.

Lemma precedence_authenticated settings ip user_id :
  precedence settings ip (Some user_id)
  = ip_checks settings ip ++ user_checks settings user_id.
Proof. reflexivity. Qed.

End GateFacts.

(** ** The tool client *)

Module ClientFacts.
Import MCPClient Outcome.

Local Opaque Hash.hmac_hexdigest int_of_float pretty float_of_int.

Section Invoke.
Context (settings : Settings) (env : Env).
Context (mcp_endpoint tool_name : string) (arguments : Json.t).
Context (api_key_encrypted : option string) (start_time : Qc).

Local Abbreviation max_retries := (MCP_MAX_RETRIES settings).
Local Abbreviation body_at := (λ attempt,
  attempt_body settings env attempt mcp_endpoint tool_name arguments
    api_key_encrypted start_time).
Local Abbreviation loop := (λ n attempt,
  retry_loop settings env n attempt mcp_endpoint tool_name arguments
    api_key_encrypted start_time).

(** One iteration never raises, and it asks for another one only while
    attempts remain. *)
Lemma attempt_body_total attempt (wd : World) :
  ∃ r wd', body_at attempt wd = (Ok r, wd')
           ∧ (r = None → attempt < max_retries - 1).
Proof.
  unfold attempt_body, try_except, mbind, M_bind, bind.
  destruct (attempt_try env mcp_endpoint tool_name arguments
              api_key_encrypted start_time wd) as [[r|e] w1].
  - eexists _, _. split; [reflexivity|]. done.
  - destruct e;
      try (eexists _, _; split; [reflexivity|]; done).
    destruct (attempt <? max_retries - 1) eqn:Hlt.
    + eexists _, _. split; [reflexivity|]. intros _. by apply Z.ltb_lt.
    + eexists _, _. split; [reflexivity|]. done.
Qed.

(** With at least one iteration to go, the last of which is the last
    attempt allowed, the loop returns from inside. *)
Lemma retry_loop_returns n attempt (wd : World) :
  attempt + Z.of_nat (S n) = max_retries →
  ∃ res wd', loop (S n) attempt wd = (Ok (Some res), wd').
Proof.
  revert attempt wd. induction n as [|n IH]; intros attempt wd Hsum;
    cbn [retry_loop]; unfold mbind, M_bind, bind;
    destruct (attempt_body_total attempt wd) as (r & w1 & -> & Hnone);
    destruct r as [res|]; try (eexists _, _; reflexivity).
  - specialize (Hnone eq_refl). lia.
  - apply IH. lia.
Qed.

Lemma retry_loop_falls_through n attempt (wd wd' : World) :
  attempt + Z.of_nat n = max_retries →
  loop n attempt wd = (Ok None, wd') → n = 0%nat.
Proof.
  intros Hsum Hloop. destruct n as [|n]; [done|].
  destruct (retry_loop_returns n attempt wd Hsum) as (res & w1 & Heq).
  rewrite Heq in Hloop. done.
Qed.

End Invoke.

(** C10.  With a maximum retry count of 0 (or less) the loop body
    never runs: [invoke_tool] reads the clock twice, sends no POST,
    sleeps not at all, and returns the failure "Max retries exceeded"
    from the line after the loop.  With a count of 1 or more the loop
    returns from inside, and what [invoke_tool] returns is that: the
    return after the loop is reached only when the count allows no
    attempt. *)
Theorem post_loop_return_only_without_attempts settings env mcp_endpoint
    tool_name arguments api_key_encrypted (wd : World) :
  let start_time := time_time env (clock wd) in
  (MCP_MAX_RETRIES settings ≤ 0 →
   invoke_tool settings env mcp_endpoint tool_name arguments
     api_key_encrypted wd
   = (Ok (failure (JStr "Max retries exceeded")
            (elapsed_ms start_time (time_time env (S (clock wd))))),
      tick (tick wd)))
  ∧ (1 ≤ MCP_MAX_RETRIES settings →
     ∃ res wd',
       retry_loop settings env (Z.to_nat (MCP_MAX_RETRIES settings)) 0
         mcp_endpoint tool_name arguments api_key_encrypted start_time
         (tick wd)
       = (Ok (Some res), wd')
       ∧ invoke_tool settings env mcp_endpoint tool_name arguments
           api_key_encrypted wd
         = (Ok res, wd')).
Proof.
  intros start_time. split.
  - intros H0. unfold invoke_tool.
    replace (Z.to_nat (MCP_MAX_RETRIES settings)) with 0%nat by lia.
    reflexivity.
  - intros H1.
    destruct (Z.to_nat (MCP_MAX_RETRIES settings)) as [|n] eqn:Hn; [lia|].
    destruct (retry_loop_returns settings env mcp_endpoint tool_name
                arguments api_key_encrypted start_time n 0 (tick wd))
      as (res & wd' & Hloop); [lia|].
    exists res, wd'. split; [exact Hloop|].
    unfold invoke_tool, now_.
    unfold mbind at 1, M_bind at 1, bind at 1.
    unfold mbind at 1, M_bind at 1, bind at 1.
    rewrite Hn. fold start_time. rewrite Hloop. reflexivity.
Qed.

(** No retries configured: "Max retries exceeded", no POST, no sleep.
    Three configured, against a server that never answers in time:
    the result is the one the loop returned, "Request timed out",
    after three POSTs. *)
Lemma post_loop_return_only_without_attempts_witness :
  (∃ ms wd',
     invoke_tool Sample.no_retries Sample.always_timeout "http://tool/"
       "search" (JObj []) None world0
     = (Ok (failure (JStr "Max retries exceeded") ms), wd')
     ∧ posts wd' = 0%nat ∧ slept wd' = [])
  ∧ (∃ ms wd',
       invoke_tool Sample.settings Sample.always_timeout "http://tool/"
         "search" (JObj []) None world0
       = (Ok (failure (JStr "Request timed out") ms), wd')
       ∧ posts wd' = 3%nat).
Proof.
  pose proof (post_loop_return_only_without_attempts Sample.no_retries
                Sample.always_timeout "http://tool/" "search" (JObj []) None
                world0) as [H0 _].
  pose proof (post_loop_return_only_without_attempts Sample.settings
                Sample.always_timeout "http://tool/" "search" (JObj []) None
                world0) as [_ H1].
  split.
  - eexists _, _. split; [apply H0; vm_compute; discriminate|].
    split; reflexivity.
  - destruct H1 as (res & wd' & Hloop & Hinvoke);
      [vm_compute; discriminate|].
    vm_compute in Hloop. injection Hloop as <- <-.
    eexists _, _. split; [exact Hinvoke|]. reflexivity.
Defined.

End ClientFacts.

(** ** C1 and C7: timeouts and error objects *)

Module RetryFacts.
Import MCPClient Outcome.

Local Opaque Hash.hmac_hexdigest int_of_float pretty float_of_int.

Section Attempts.
Context (settings : Settings) (env : Env).
Context (mcp_endpoint tool_name : string) (arguments : Json.t).
Context (api_key_encrypted : option string) (start_time : Qc).
Hypothesis credential : credential_ok env api_key_encrypted.

Local Abbreviation max_retries := (MCP_MAX_RETRIES settings).
Local Abbreviation delay := (MCP_RETRY_DELAY settings).
Local Abbreviation try_at :=
  (attempt_try env mcp_endpoint tool_name arguments api_key_encrypted
     start_time).
Local Abbreviation body_at := (λ attempt,
  attempt_body settings env attempt mcp_endpoint tool_name arguments
    api_key_encrypted start_time).
Local Abbreviation loop := (λ n attempt,
  retry_loop settings env n attempt mcp_endpoint tool_name arguments
    api_key_encrypted start_time).

Ltac open_try :=
  unfold attempt_try, _sign_request, post, now_, lift, mbind, M_bind, bind,
    mret, M_ret, ret;
  destruct (truthy api_key_encrypted) as [enc|] eqn:Htruthy;
  [ destruct (credential enc Htruthy) as [api_key ->] | ];
  cbn [posts tick count_post slept calls redis clock].

Lemma attempt_try_timeout (wd : World) :
  times_out env (posts wd) →
  ∃ msg wd', try_at wd = (Raise (TimeoutException msg), wd')
             ∧ posts wd' = S (posts wd) ∧ slept wd' = slept wd.
Proof.
  intros Hout. open_try.
  - match goal with |- context [http_post env (posts wd) ?req] =>
      destruct (Hout req) as [msg ->] end.
    eexists _, _. by split.
  - match goal with |- context [http_post env (posts wd) ?req] =>
      destruct (Hout req) as [msg ->] end.
    eexists _, _. by split.
Qed.

Lemma attempt_try_error_object m (wd : World) :
  answers_error_object env (posts wd) m →
  ∃ ms wd', try_at wd = (Ok (failure m ms), wd')
            ∧ posts wd' = S (posts wd) ∧ slept wd' = slept wd.
Proof.
  intros Hans. open_try;
    match goal with |- context [http_post env (posts wd) ?req] =>
      destruct (Hans req)
        as (resp & -> & Hok & fields & error_fields & Hjson & Herr & Hmsg)
    end;
    unfold raise_for_status; rewrite Hok, Hjson;
    cbn [Json.contains]; rewrite Herr;
    cbn [Json.getitem]; rewrite Herr; cbn [Json.get]; rewrite Hmsg;
    eexists _, _; (split; [reflexivity|]); by split.
Qed.

(** A timeout with attempts left: sleep, then go round again. *)
Lemma attempt_body_retry attempt (wd : World) :
  times_out env (posts wd) → attempt < max_retries - 1 →
  ∃ wd', body_at attempt wd = (Ok None, wd')
         ∧ posts wd' = S (posts wd)
         ∧ slept wd' = slept wd ++ [float_mul delay (float_of_int (attempt + 1))].
Proof.
  intros Hout Hlt. unfold attempt_body, try_except, mbind, M_bind, bind.
  destruct (attempt_try_timeout wd Hout) as (msg & w1 & -> & Hp & Hs).
  apply Z.ltb_lt in Hlt. rewrite Hlt.
  unfold sleep, mbind, M_bind, bind, mret, M_ret, ret.
  eexists. split; [reflexivity|].
  cbn [posts slept add_sleep]. by rewrite Hp, Hs.
Qed.

(** A timeout on the last attempt: the result is "Request timed out". *)
Lemma attempt_body_last_timeout attempt (wd : World) :
  times_out env (posts wd) → max_retries - 1 ≤ attempt →
  ∃ ms wd',
    body_at attempt wd = (Ok (Some (failure (JStr "Request timed out") ms)), wd')
    ∧ posts wd' = S (posts wd) ∧ slept wd' = slept wd.
Proof.
  intros Hout Hge. unfold attempt_body, try_except, mbind, M_bind, bind.
  destruct (attempt_try_timeout wd Hout) as (msg & w1 & -> & Hp & Hs).
  apply Z.ltb_ge in Hge. rewrite Hge.
  unfold now_, mbind, M_bind, bind, mret, M_ret, ret.
  eexists _, _. split; [reflexivity|]. by split.
Qed.

Lemma attempt_body_error_object attempt m (wd : World) :
  answers_error_object env (posts wd) m →
  ∃ ms wd', body_at attempt wd = (Ok (Some (failure m ms)), wd')
            ∧ posts wd' = S (posts wd) ∧ slept wd' = slept wd.
Proof.
  intros Hans. unfold attempt_body, try_except, mbind, M_bind, bind.
  destruct (attempt_try_error_object m wd Hans) as (ms & w1 & -> & Hp & Hs).
  eexists _, _. split; [reflexivity|]. by split.
Qed.

Lemma delays_shift attempt k :
  (λ i, float_mul delay (float_of_int (attempt + 1 + Z.of_nat i))) <$> seq 1 k
  = (λ i, float_mul delay (float_of_int (attempt + Z.of_nat i))) <$> seq 2 k.
Proof.
  rewrite <- (fmap_S_seq 1 k), <- list_fmap_compose.
  apply list_fmap_ext. intros _ i _. cbn [compose].
  do 2 f_equal. lia.
Qed.

(** [k] timeouts in a row, with more than [k] attempts allowed: the loop
    is where it would be had it started at attempt [k], after [k]
    POSTs and [k] backoff sleeps. *)
Lemma retry_loop_skip k : ∀ n attempt (wd : World),
  attempt + Z.of_nat n = max_retries → (k < n)%nat →
  (∀ i, (i < k)%nat → times_out env (posts wd + i)) →
  ∃ wd', loop n attempt wd = loop (n - k)%nat (attempt + Z.of_nat k) wd'
         ∧ posts wd' = (posts wd + k)%nat
         ∧ slept wd' = slept wd
             ++ ((λ i, float_mul delay (float_of_int (attempt + Z.of_nat i)))
                 <$> seq 1 k).
Proof.
  induction k as [|k IH]; intros n attempt wd Hsum Hk Hout.
  - exists wd. rewrite Nat.sub_0_r, Z.add_0_r, Nat.add_0_r, app_nil_r. done.
  - destruct n as [|n]; [lia|]. cbn [retry_loop].
    unfold mbind, M_bind, bind.
    destruct (attempt_body_retry attempt wd) as (w1 & -> & Hp & Hs).
    { specialize (Hout 0%nat ltac:(lia)). by rewrite Nat.add_0_r in Hout. }
    { lia. }
    destruct (IH n (attempt + 1) w1) as (wd' & -> & Hp' & Hs').
    { lia. } { lia. }
    { intros i Hi. rewrite Hp. specialize (Hout (S i) ltac:(lia)).
      by replace (S (posts wd) + i)%nat with (posts wd + S i)%nat by lia. }
    exists wd'. split; [|split].
    + cbn [Nat.sub]. f_equal. lia.
    + lia.
    + rewrite Hs', Hs, <- app_assoc. f_equal.
      rewrite delays_shift. cbn [seq fmap list_fmap app].
      repeat f_equal; lia.
Qed.

End Attempts.

Lemma backoffs_eq delay k :
  (λ i, float_mul delay (float_of_int (0 + Z.of_nat i))) <$> seq 1 k
  = backoffs delay k.
Proof. reflexivity. Qed.

(** C1, as the code has it.  With at least one attempt allowed and
    every attempt timing out, [invoke_tool] makes exactly
    [MCP_MAX_RETRIES] attempts, sleeping [delay * i] after the [i]-th
    of all but the last, and returns the failure "Request timed out". *)
Theorem invoke_tool_all_timeouts settings env mcp_endpoint tool_name arguments
    api_key_encrypted (wd : World) :
  1 ≤ MCP_MAX_RETRIES settings →
  credential_ok env api_key_encrypted →
  (∀ i, (i < Z.to_nat (MCP_MAX_RETRIES settings))%nat →
        times_out env (posts wd + i)) →
  ∃ ms wd',
    invoke_tool settings env mcp_endpoint tool_name arguments
      api_key_encrypted wd
    = (Ok (failure (JStr "Request timed out") ms), wd')
    ∧ posts wd' = (posts wd + Z.to_nat (MCP_MAX_RETRIES settings))%nat
    ∧ slept wd' = slept wd
        ++ backoffs (MCP_RETRY_DELAY settings)
             (Z.to_nat (MCP_MAX_RETRIES settings) - 1).
Proof.
  intros Hmax Hcred Hout. unfold invoke_tool, now_.
  unfold mbind at 1, M_bind at 1, bind at 1.
  unfold mbind at 1, M_bind at 1, bind at 1.
  destruct (Z.to_nat (MCP_MAX_RETRIES settings)) as [|n] eqn:Hn; [lia|].
  destruct (retry_loop_skip settings env mcp_endpoint tool_name arguments
              api_key_encrypted (time_time env (clock wd)) Hcred n (S n) 0
              (tick wd)) as (w1 & -> & Hp1 & Hs1); [lia|lia|exact (λ i Hi, Hout i ltac:(lia))|].
  replace (S n - n)%nat with 1%nat by lia. cbn [retry_loop].
  unfold mbind at 1, M_bind at 1, bind at 1.
  destruct (attempt_body_last_timeout settings env mcp_endpoint tool_name
              arguments api_key_encrypted (time_time env (clock wd)) Hcred
              (0 + Z.of_nat n) w1) as (ms & w2 & -> & Hp2 & Hs2).
  { rewrite Hp1. apply Hout. cbn [posts tick]. lia. }
  { lia. }
  eexists _, _. split; [reflexivity|]. split.
  - rewrite Hp2, Hp1. cbn [posts tick]. lia.
  - rewrite Hs2, Hs1, backoffs_eq. cbn [slept tick].
    by replace (S n - 1)%nat with n by lia.
Qed.

(** C7, as the code has it.  When the first [k] attempts time out and
    the next one is answered with a 2xx response whose body is the
    error object with message [m], [invoke_tool] returns the failure
    [m] from that attempt: [k + 1] POSTs in all, and no sleep after the
    answer. *)
Theorem invoke_tool_error_object settings env mcp_endpoint tool_name arguments
    api_key_encrypted (k : nat) (m : Json.t) (wd : World) :
  Z.of_nat k < MCP_MAX_RETRIES settings →
  credential_ok env api_key_encrypted →
  (∀ i, (i < k)%nat → times_out env (posts wd + i)) →
  answers_error_object env (posts wd + k) m →
  ∃ ms wd',
    invoke_tool settings env mcp_endpoint tool_name arguments
      api_key_encrypted wd
    = (Ok (failure m ms), wd')
    ∧ posts wd' = (posts wd + S k)%nat
    ∧ slept wd' = slept wd ++ backoffs (MCP_RETRY_DELAY settings) k.
Proof.
  intros Hk Hcred Hout Hans. unfold invoke_tool, now_.
  unfold mbind at 1, M_bind at 1, bind at 1.
  unfold mbind at 1, M_bind at 1, bind at 1.
  destruct (retry_loop_skip settings env mcp_endpoint tool_name arguments
              api_key_encrypted (time_time env (clock wd)) Hcred k
              (Z.to_nat (MCP_MAX_RETRIES settings)) 0 (tick wd))
    as (w1 & -> & Hp1 & Hs1); [lia|lia|exact Hout|].
  destruct (Z.to_nat (MCP_MAX_RETRIES settings) - k)%nat as [|n] eqn:Hn; [lia|].
  cbn [retry_loop]. unfold mbind at 1, M_bind at 1, bind at 1.
  destruct (attempt_body_error_object settings env mcp_endpoint tool_name
              arguments api_key_encrypted (time_time env (clock wd)) Hcred
              (0 + Z.of_nat k) m w1) as (ms & w2 & -> & Hp2 & Hs2).
  { by rewrite Hp1. }
  eexists _, _. split; [reflexivity|]. split.
  - rewrite Hp2, Hp1. cbn [posts tick]. lia.
  - by rewrite Hs2, Hs1, backoffs_eq.
Qed.

End RetryFacts.

Module RetryExamples.
Import MCPClient Outcome RetryFacts.

Lemma no_credential_ok env : credential_ok env None.
Proof. intros enc Henc. discriminate Henc. Qed.

(** Three attempts allowed against a server that never answers in
    time: three POSTs, sleeps of one and two seconds, and the failure
    "Request timed out". *)
Lemma invoke_tool_all_timeouts_witness :
  ∃ ms wd',
    invoke_tool Sample.settings Sample.always_timeout "http://tool/" "search"
      (JObj []) None world0
    = (Ok (failure (JStr "Request timed out") ms), wd')
    ∧ posts wd' = 3%nat
    ∧ slept wd' = backoffs 1%Qc 2.
Proof.
  apply (invoke_tool_all_timeouts Sample.settings Sample.always_timeout
           "http://tool/" "search" (JObj []) None world0).
  - vm_compute. discriminate.
  - apply no_credential_ok.
  - intros i _ req. eexists. reflexivity.
Defined.

(** The same run, evaluated: the message is not the one of the return
    that follows the loop. *)
Lemma invoke_tool_all_timeouts_counterexample :
  ∃ ms wd',
    invoke_tool Sample.settings Sample.always_timeout "http://tool/" "search"
      (JObj []) None world0
    = (Ok {| success := false; result := JNull;
             error := JStr "Request timed out"; duration_ms := ms |}, wd')
    ∧ posts wd' = 3%nat
    ∧ JStr "Request timed out" ≠ JStr "max retries exceeded"
    ∧ JStr "Request timed out" ≠ JStr "Max retries exceeded".
Proof.
  eexists _, _. split; [vm_compute; reflexivity|].
  split; [reflexivity|]. split; discriminate.
Qed.

(** A server that answers the first call with HTTP 200 and the error
    object: one POST, no sleep, and the object's message as the error. *)
Lemma invoke_tool_error_object_witness :
  ∃ ms wd',
    invoke_tool Sample.settings (Sample.error_object_server 200)
      "http://tool/" "search" (JObj []) None world0
    = (Ok (failure (JStr "quota exceeded") ms), wd')
    ∧ posts wd' = 1%nat
    ∧ slept wd' = [].
Proof.
  apply (invoke_tool_error_object Sample.settings
           (Sample.error_object_server 200) "http://tool/" "search" (JObj [])
           None 0 (JStr "quota exceeded") world0).
  - vm_compute. reflexivity.
  - apply no_credential_ok.
  - intros i Hi. lia.
  - intros req. eexists. split; [reflexivity|]. split; [reflexivity|].
    eexists _, _. split; [reflexivity|]. split; reflexivity.
Defined.

(** The same error object sent with HTTP 500: the result is the HTTP
    failure built from the status and the body text, not the object's
    message. *)
Lemma invoke_tool_error_object_counterexample :
  error_object (JStr "quota exceeded") Sample.error_500
  ∧ ∃ ms wd',
      invoke_tool Sample.settings (Sample.error_object_server 500)
        "http://tool/" "search" (JObj []) None world0
      = (Ok (failure (JStr ("HTTP 500: " +:+ Sample.quota_text)) ms), wd')
      ∧ posts wd' = 1%nat
      ∧ JStr ("HTTP 500: " +:+ Sample.quota_text) ≠ JStr "quota exceeded".
Proof.
  split.
  - eexists _, _. split; [reflexivity|]. split; reflexivity.
  - eexists _, _. split; [vm_compute; reflexivity|].
    split; [reflexivity|]. vm_compute. discriminate.
Qed.

End RetryExamples.

(** ** C8: discovery never raises *)

Module DiscoveryFacts.
Import MCPClient Outcome.

Lemma discover_try_fails env mcp_endpoint api_key_encrypted app_id_ app_name_
    (wd : World) :
  (∀ req, discovery_fails (http_post env (posts wd) req)) →
  ∃ e wd', discover_try env mcp_endpoint api_key_encrypted app_id_ app_name_ wd
           = (Raise e, wd').
Proof.
  intros Hfails.
  unfold discover_try, post, lift, mbind, M_bind, bind, mret, M_ret, ret.
  destruct (truthy api_key_encrypted) as [enc|].
  - destruct (decrypt_value env enc) as [api_key|e]; [|eauto].
    match goal with |- context [http_post env (posts wd) ?req] =>
      specialize (Hfails req); destruct (http_post env (posts wd) req)
        as [resp|e] end; [|eauto].
    unfold raise_for_status. destruct Hfails as [-> | Hjson]; [eauto|].
    destruct (is_success (status_code resp)); [|eauto].
    destruct (json resp) as [data|e]; [|eauto].
    destruct data; try discriminate Hjson; cbn [Json.get]; eauto.
  - match goal with |- context [http_post env (posts wd) ?req] =>
      specialize (Hfails req); destruct (http_post env (posts wd) req)
        as [resp|e] end; [|eauto].
    unfold raise_for_status. destruct Hfails as [-> | Hjson]; [eauto|].
    destruct (is_success (status_code resp)); [|eauto].
    destruct (json resp) as [data|e]; [|eauto].
    destruct data; try discriminate Hjson; cbn [Json.get]; eauto.
Qed.

(** C8.  [discover_tools] returns a list for every endpoint and
    optional credential and in every environment: it never raises.
    Whenever anything inside fails, the list is empty; in particular
    when the call meets a network error, a status that is not 2xx, or a
    malformed body. *)
Theorem discover_tools_never_raises env mcp_endpoint api_key_encrypted app_id_
    app_name_ (wd : World) :
  ∃ tools wd',
    discover_tools env mcp_endpoint api_key_encrypted app_id_ app_name_ wd
    = (Ok tools, wd')
    ∧ (∀ e w1,
         discover_try env mcp_endpoint api_key_encrypted app_id_ app_name_ wd
         = (Raise e, w1) → tools = [])
    ∧ ((∀ req, discovery_fails (http_post env (posts wd) req)) → tools = []).
Proof.
  assert (∃ tools wd',
    discover_tools env mcp_endpoint api_key_encrypted app_id_ app_name_ wd
    = (Ok tools, wd')
    ∧ (∀ e w1,
         discover_try env mcp_endpoint api_key_encrypted app_id_ app_name_ wd
         = (Raise e, w1) → tools = [])) as (tools & wd' & Heq & Hraise).
  { unfold discover_tools, try_except.
    destruct (discover_try env mcp_endpoint api_key_encrypted app_id_
                app_name_ wd) as [[tools|e] w1].
    - eexists _, _. split; [reflexivity|]. intros e w2 Hcontra. done.
    - destruct (is_HTTPError e); eexists _, _; (split; [reflexivity|]); done. }
  exists tools, wd'. split; [done|]. split; [done|].
  intros Hfails.
  destruct (discover_try_fails env mcp_endpoint api_key_encrypted app_id_
              app_name_ wd Hfails) as (e & w1 & Htry).
  by apply (Hraise e w1).
Qed.

(** A server that answers HTTP 500 with a body that is not JSON: an
    empty list. *)
Lemma discover_tools_never_raises_witness :
  ∃ wd',
    discover_tools Sample.broken_server "http://tool/" None "app" "App" world0
    = (Ok [], wd').
Proof.
  destruct (discover_tools_never_raises Sample.broken_server "http://tool/"
              None "app" "App" world0) as (tools & wd' & Heq & _ & Hfails).
  rewrite Hfails in Heq.
  - by exists wd'.
  - intros req. left. reflexivity.
Defined.

(** A well-formed answer is passed on. *)
Example discover_tools_finds_tool :
  let env := {| wall_clock := Sample.clock_from_half;
                http_post := λ _ _,
                  Ok {| status_code := 200; text := "...";
                        json := Ok (JObj [ ("tools",
                                  JArr [ JObj [ ("name", JStr "search") ] ]) ]) |};
                decrypt_value := λ s, Ok s;
                json_dumps := λ _, "{}" |} in
  (discover_tools env "http://tool/" None "app" "App" world0).1
  = Ok [ {| name := JStr "search"; description := JStr EmptyString;
            parameters := JObj []; app_id := "app"; app_name := "App" |} ].
Proof. reflexivity. Qed.

End DiscoveryFacts.

(** ** C9: signing and verifying *)

Module SignatureFacts.
Import Hash Signed StringFacts.

Lemma be_bytes_range n x : Forall is_byte (be_bytes n x).
Proof.
  revert x. induction n as [|n IH]; intros x; cbn [be_bytes]; [constructor|].
  apply Forall_app. split; [apply IH|].
  constructor; [|constructor]. unfold is_byte. apply Z.mod_pos_bound. lia.
Qed.

Lemma sha256_range msg : Forall is_byte (sha256 msg).
Proof.
  unfold sha256. generalize (foldl compress H256 (chunks (length (pad msg)) 64 (pad msg))).
  intros h. induction h as [|w h IH]; [constructor|].
  change (Forall is_byte (be_bytes 4 w ++ mjoin (be_bytes 4 <$> h))).
  apply Forall_app. split; [apply be_bytes_range|exact IH].
Qed.

Lemma hex_digit_ascii n :
  0 ≤ n < 16 → (nat_of_ascii (hex_digit n) <? 128)%nat = true.
Proof.
  intros Hn. unfold hex_digit. rewrite nat_ascii_embedding.
  - apply Nat.ltb_lt. destruct (n <? 10) eqn:H10; lia.
  - destruct (n <? 10) eqn:H10; lia.
Qed.

Lemma hex_is_ascii bs : Forall is_byte bs → is_ascii (hex bs) = true.
Proof.
  unfold is_ascii. induction 1 as [|b bs Hb _ IH]; [reflexivity|].
  cbn [hex String.list_ascii_of_string forallb]. unfold is_byte in Hb.
  rewrite !hex_digit_ascii, IH; [done| |].
  - apply Z.mod_pos_bound. lia.
  - split; [apply Z.div_pos; lia | apply Z.div_lt_upper_bound; lia].
Qed.

Local Opaque sha256.

Lemma hmac_hexdigest_is_ascii key msg : is_ascii (hmac_hexdigest key msg) = true.
Proof. unfold hmac_hexdigest, hmac_sha256. apply hex_is_ascii, sha256_range. Qed.

Lemma compare_digest_ascii a b :
  is_ascii a = true → is_ascii b = true →
  compare_digest a b = Ok (String.eqb a b).
Proof. intros Ha Hb. unfold compare_digest. by rewrite Ha, Hb. Qed.

(** Verifying a signature made by [sign_request] compares the two hex
    digests. *)
Lemma verify_sign settings (a b : Tuple) :
  verify settings b (sign settings a)
  = Ok (String.eqb (sign settings a) (sign settings b)).
Proof.
  unfold verify, sign, Security.verify_signature, Security.sign_request.
  apply compare_digest_ascii; apply hmac_hexdigest_is_ascii.
Qed.

(** A change of exactly one field changes the signed message. *)
Lemma message_one_field_changed (a b : Tuple) :
  one_field_changed a b → message a ≠ message b.
Proof.
  unfold one_field_changed, message, Security.message.
  destruct a as [m e t b1], b as [m' e' t' b2].
  cbn [method path timestamp body].
  intros [(Hm & <- & <- & <-)|[(<- & He & <- & <-)|[(<- & <- & Ht & <-)
         |(<- & <- & <- & Hb)]]] Heq.
  - apply Hm. by apply app_inj_r in Heq.
  - apply He. apply app_inj_l in Heq. apply app_inj_l in Heq.
    by apply app_inj_r in Heq.
  - apply Ht. do 4 apply app_inj_l in Heq. by apply app_inj_r in Heq.
  - apply Hb. by do 6 apply app_inj_l in Heq.
Qed.

(** The signature is the digest of the four fields. *)
Lemma sign_digest settings (t : Tuple) : sign settings t = digest settings t.
Proof. reflexivity. Qed.



(** Changing two fields at once can leave the signed message as it
    was: a line break moved from the path to the timestamp. *)
Example two_fields_same_message :
  message {| method := "POST"; path := "/a" +:+ Security.nl +:+ "b";
             timestamp := "c"; body := "{}" |}
  = message {| method := "POST"; path := "/a";
               timestamp := "b" +:+ Security.nl +:+ "c"; body := "{}" |}.
Proof. reflexivity. Qed.

(** The headers that the client attaches verify under the credential
    it signed with. *)
Lemma client_signature_verifies settings env endpoint method_ body_ (wd : World) :
  ∃ stamp signature wd',
    MCPClient._sign_request env endpoint method_ body_
      (MCP_SIGNING_SECRET settings) wd
    = (Ok [ ("X-MCP-Timestamp", stamp); ("X-MCP-Signature", signature) ], wd')
    ∧ Security.verify_signature settings endpoint method_ body_ stamp signature
      = Ok true.
Proof.
  eexists _, _, _. split; [reflexivity|].
  pose proof (verify_sign settings
    {| method := method_; path := endpoint;
       timestamp := pretty (int_of_float (time_time env (clock wd)));
       body := body_ |}
    {| method := method_; path := endpoint;
       timestamp := pretty (int_of_float (time_time env (clock wd)));
       body := body_ |}) as Hv.
  unfold verify, sign in Hv. cbn [method path timestamp body] in Hv.
  rewrite String.eqb_refl in Hv. exact Hv.
Qed.

(** The hash functions against published values: SHA-256 of "abc"
    (FIPS 180-4), HMAC-SHA256 of RFC 4231 test case 2, and a key and a
    message with a character outside ASCII. *)
Example round_constants_ends :
  head K256 = Some 0x428a2f98 ∧ last K256 = Some 0xc67178f2
  ∧ head H256 = Some 0x6a09e667 ∧ length K256 = 64%nat.
Proof. vm_compute. repeat split; reflexivity. Qed.

Example sha256_abc :
  hex (sha256 (encode "abc"))
  = "ba7816bf8f01cfea414140de5dae2223b00361a396177a9cb410ff61f20015ad".
Proof. vm_compute. reflexivity. Qed.

Example hmac_rfc4231_case2 :
  hmac_hexdigest "Jefe" "what do ya want for nothing?"
  = "5bdcc146bf60754e6a042426089575c75a003f089d2739839dec58b964ec3843".
Proof. vm_compute. reflexivity. Qed.

Example sign_request_sample :
  Security.sign_request Sample.settings "/tools/call" "POST" "{}" "1700000000"
  = "c494a4843b8a81eb3640c68944e8b9dec64361a5f4f4a3c01ee68daaf9ef921b".
Proof. vm_compute. reflexivity. Qed.

End SignatureFacts.

(** * Further properties *)

(** ** The window after a check *)

Module WindowFacts.
Import Redis RedisFacts RateLimiter Window SlidingWindow.

Lemma surviving_subseteq key now w r : surviving key now w r ⊆ zset key r.
Proof. apply map_filter_subseteq. Qed.

Lemma ttl_put_zset_ne key key' z r :
  key ≠ key' → ttl (put_zset key z r) !! key' = ttl r !! key'.
Proof.
  intros Hne. unfold put_zset. case_decide; cbn [ttl]; [|done].
  case_decide; [done|]. by rewrite lookup_delete_ne.
Qed.

Lemma zset_pipeline_ne key key' now w r :
  key ≠ key' → zset key' (pipeline key now w r).2 = zset key' r.
Proof.
  intros Hne. unfold pipeline. cbn [snd].
  rewrite zset_expire_ne by done. unfold zadd, zremrangebyscore.
  by rewrite !zset_put_zset_ne.
Qed.

Lemma ttl_pipeline_ne key key' now w r :
  key ≠ key' → ttl (pipeline key now w r).2 !! key' = ttl r !! key'.
Proof.
  intros Hne. unfold pipeline. cbn [snd].
  rewrite ttl_expire_ne by done. unfold zadd, zremrangebyscore.
  by rewrite !ttl_put_zset_ne.
Qed.

(** The store after [is_allowed]. *)
Lemma redis_after env key limit_ w (wd : World) :
  let now := time_time env (clock wd) in
  let c := count key now w (redis wd) in
  redis (is_allowed env key limit_ w wd).2
  = if c <? limit_ then (pipeline key now w (redis wd)).2
    else zrem key now (pipeline key now w (redis wd)).2.
Proof. intros now c. rewrite is_allowed_eq. reflexivity. Qed.

Lemma zset_after_check env key limit_ w (wd : World) :
  let now := time_time env (clock wd) in
  let events := surviving key now w (redis wd) in
  zset key (redis (is_allowed env key limit_ w wd).2)
  = if w + 1 <=? 0 then ∅
    else if Z.of_nat (size events) <? limit_ then <[now := now]> events
         else delete now events.
Proof.
  intros now events. rewrite redis_after. fold now.
  change (count key now w (redis wd)) with (Z.of_nat (size events)).
  destruct (Z.of_nat (size events) <? limit_).
  - rewrite pipeline_zset. by destruct (w + 1 <=? 0).
  - rewrite zset_zrem, pipeline_zset. destruct (w + 1 <=? 0).
    + apply delete_empty.
    + apply delete_insert_eq.
Qed.

(** What a check leaves in its window: the events it did not evict,
    with its own event added when it lets the request through, and
    with any event that carries its own timestamp removed when it
    denies.  With a window of [-1] seconds or less the expiry set by
    the check is not positive, the key is deleted, and nothing is
    left. *)
Theorem window_after_check env key limit_ w (wd : World) :
  let now := time_time env (clock wd) in
  let events := surviving key now w (redis wd) in
  zset key (redis (is_allowed env key limit_ w wd).2)
  = if w + 1 <=? 0 then ∅
    else if Z.of_nat (size events) <? limit_ then <[now := now]> events
         else delete now events.
Proof. apply zset_after_check. Qed.

(** A window that holds at most [limit] events holds at most [limit]
    events after any check with that limit. *)
Theorem window_stays_within_limit env key limit_ w (wd : World) :
  Z.of_nat (size (zset key (redis wd))) ≤ limit_ →
  Z.of_nat (size (zset key (redis (is_allowed env key limit_ w wd).2)))
  ≤ limit_.
Proof.
  intros Hsize. rewrite zset_after_check. cbn zeta.
  pose proof (map_subseteq_size _ _
    (surviving_subseteq key (time_time env (clock wd)) w (redis wd))) as Hsub.
  set (now := time_time env (clock wd)) in *.
  set (events := surviving key now w (redis wd)) in *.
  destruct (w + 1 <=? 0); [rewrite map_size_empty; lia|].
  destruct (Z.of_nat (size events) <? limit_) eqn:Hlt.
  - apply Z.ltb_lt in Hlt. destruct (events !! now) as [s|] eqn:Hnow.
    + rewrite map_size_insert_Some by eauto. lia.
    + rewrite map_size_insert_None by done. lia.
  - destruct (events !! now) as [s|] eqn:Hnow.
    + rewrite map_size_delete_Some by eauto. lia.
    + rewrite map_size_delete_None by done. lia.
Qed.

Lemma window_stays_within_limit_witness :
  Z.of_nat (size (zset "k"
    (redis (is_allowed Sample.always_timeout "k" 1 60
              (is_allowed Sample.always_timeout "k" 1 60 world0).2).2)))
  ≤ 1.
Proof.
  apply window_stays_within_limit. vm_compute. discriminate.
Defined.

(** A check on one key leaves every other key as it was: its events,
    its expiry, and all string values. *)
Theorem check_touches_one_key env key key' limit_ w (wd : World) :
  key ≠ key' →
  let r' := redis (is_allowed env key limit_ w wd).2 in
  zset key' r' = zset key' (redis wd)
  ∧ ttl r' !! key' = ttl (redis wd) !! key'
  ∧ strs r' = strs (redis wd).
Proof.
  intros Hne r'. subst r'. rewrite redis_after. cbn zeta.
  destruct (_ <? limit_).
  - split; [by apply zset_pipeline_ne|].
    split; [by apply ttl_pipeline_ne|]. apply ToolLimitFacts.strs_pipeline.
  - unfold zrem. split; [by rewrite zset_put_zset_ne, zset_pipeline_ne|].
    split; [by rewrite ttl_put_zset_ne, ttl_pipeline_ne|].
    rewrite strs_put_zset. apply ToolLimitFacts.strs_pipeline.
Qed.

Lemma check_touches_one_key_witness :
  let r' := redis (is_allowed Sample.always_timeout "a" 1 60
                     Sample.drained_world).2 in
  zset "b" r' = zset "b" (redis Sample.drained_world)
  ∧ ttl r' !! "b" = ttl (redis Sample.drained_world) !! "b"
  ∧ strs r' = strs (redis Sample.drained_world).
Proof. apply check_touches_one_key. discriminate. Defined.

(** Once every event of the key is older than the window, a check with
    a limit of at least one is let through, and its own event is the
    only one left. *)
Theorem expired_window_allows env key limit_ w (wd : World) :
  let now := time_time env (clock wd) in
  1 ≤ limit_ →
  0 ≤ w →
  (∀ m s, zset key (redis wd) !! m = Some s →
          (0 ≤ s ∧ s ≤ window_start now w)%Qc) →
  ∃ info wd',
    is_allowed env key limit_ w wd = (Ok (true, info), wd')
    ∧ zset key (redis wd') = {[ now := now ]}.
Proof.
  intros now Hlimit Hw Hold.
  assert (surviving key now w (redis wd) = ∅) as Hempty.
  { apply map_empty_filter_2. intros m s Hm Hnot. cbn in Hnot.
    apply Hnot, (Hold m s Hm). }
  rewrite is_allowed_eq. cbn zeta. unfold count. fold now.
  rewrite Hempty, map_size_empty. change (Z.of_nat 0) with 0.
  destruct (0 <? limit_) eqn:Hlt; [|apply Z.ltb_ge in Hlt; lia].
  eexists _, _. split; [reflexivity|].
  cbn [redis add_call set_redis]. rewrite pipeline_zset_pos by done. fold now.
  rewrite Hempty. apply insert_empty.
Qed.

(** A window that holds one event, a hundred seconds old, checked with
    a 60-second window: the old event is evicted; the request passes
    and its event is the only one left. *)
Lemma expired_window_allows_witness :
  zset "k" (redis Sample2.stale_world) = {[ Sample2.stale := Sample2.stale ]}
  ∧ ∃ info wd',
      is_allowed Sample.always_timeout "k" 1 60 Sample2.stale_world
      = (Ok (true, info), wd')
      ∧ zset "k" (redis wd')
        = {[ time_time Sample.always_timeout 0
             := time_time Sample.always_timeout 0 ]}.
Proof.
  assert (zset "k" (redis Sample2.stale_world)
          = {[ Sample2.stale := Sample2.stale ]}) as Hstale
    by (vm_compute; reflexivity).
  split; [exact Hstale|].
  destruct (expired_window_allows Sample.always_timeout "k" 1 60
              Sample2.stale_world) as (info & wd' & Heq & Hz).
  - lia.
  - lia.
  - intros m s Hm. rewrite Hstale in Hm.
    apply lookup_singleton_Some in Hm as [_ <-].
    split; vm_compute; discriminate.
  - exists info, wd'. split; [exact Heq|exact Hz].
Defined.

(** [get_usage] returns the count on which [is_allowed] decides at the
    same clock reading, and it adds no event: it leaves the events it
    did not evict. *)
Theorem get_usage_predicts_check env key limit_ w (wd : World) :
  ∃ usage wd1 info wd2,
    get_usage env key w wd = (Ok usage, wd1)
    ∧ is_allowed env key limit_ w wd = (Ok (usage <? limit_, info), wd2)
    ∧ zset key (redis wd1)
      = surviving key (time_time env (clock wd)) w (redis wd)
    ∧ calls wd1 = calls wd.
Proof.
  rewrite is_allowed_eq.
  unfold get_usage, now_, with_redis, mbind, M_bind, bind.
  cbn [redis set_redis tick calls clock fst snd].
  eexists _, _, _, _. split; [reflexivity|].
  unfold zcard. rewrite zset_zremrangebyscore.
  split; [reflexivity|]. split; [|reflexivity].
  apply zset_zremrangebyscore.
Qed.

End WindowFacts.

(** ** Checks in a row within one window *)

Module RepeatedFacts.
Import Redis RedisFacts RateLimiter Window SlidingWindow WindowFacts Repeated.

Section Row.
Context (env : Env) (key : string) (limit_ w : Z) (c0 n : nat).
Hypothesis increasing :
  ∀ i j, (i < j < n)%nat →
         (time_time env (c0 + i) < time_time env (c0 + j))%Qc.
Hypothesis one_window :
  ∀ j, (j < n)%nat →
       (window_start (time_time env (c0 + j)) w < time_time env c0)%Qc.

Local Abbreviation t := (λ i, time_time env (c0 + i)%nat).
Local Abbreviation L := (Z.to_nat limit_).

Local Abbreviation row_inv := (Repeated.row_inv env c0 limit_).

Lemma first_le i :
  (i < n)%nat → (time_time env c0 ≤ time_time env (c0 + i))%Qc.
Proof.
  intros Hi. destruct i as [|i].
  - rewrite Nat.add_0_r. apply Qcle_refl.
  - pose proof (increasing 0%nat (S i) ltac:(lia)) as Hlt.
    rewrite Nat.add_0_r in Hlt. by apply Qclt_le_weak.
Qed.

(** The readings are floats, so a window that starts before the first
    reading is a positive number of seconds. *)
Lemma window_positive : (0 < n)%nat → 0 < w.
Proof.
  intros Hn. destruct (Z_lt_le_dec 0 w) as [|Hw]; [done|].
  pose proof (one_window 0%nat Hn) as Hwin. rewrite Nat.add_0_r in Hwin.
  apply Qclt_not_le in Hwin. destruct Hwin.
  apply Round.float_sub_ge; [apply Round.time_time_double|done].
Qed.

Lemma row_step k (wd : World) :
  (k < n)%nat → clock wd = (c0 + k)%nat → row_inv k (zset key (redis wd)) →
  ∃ info wd',
    is_allowed env key limit_ w wd = (Ok (bool_decide (k < L)%nat, info), wd')
    ∧ clock wd' = (c0 + S k)%nat
    ∧ row_inv (S k) (zset key (redis wd')).
Proof.
  intros Hk Hclock [Hmem Hsize].
  pose proof (window_positive ltac:(lia)) as Hw.
  pose proof (zset_after_check env key limit_ w wd) as Hafter.
  cbn zeta in Hafter.
  destruct (w + 1 <=? 0) eqn:Hexp; [apply Z.leb_le in Hexp; lia|].
  rewrite is_allowed_eq in *. cbn zeta in *. unfold count in *.
  rewrite Hclock in *.
  assert (surviving key (t k) w (redis wd) = zset key (redis wd)) as Hsurv.
  { apply map_filter_id. intros m s Hm [_ Hle]. cbn in Hle.
    destruct (Hmem m s Hm) as (-> & i & Hi & ->).
    pose proof (one_window k Hk) as Hwin.
    pose proof (first_le i ltac:(lia)) as Hfirst.
    apply (Qclt_not_le _ _ Hwin). by etrans. }
  assert (zset key (redis wd) !! t k = None) as Hfresh.
  { destruct (zset key (redis wd) !! t k) as [s|] eqn:Hm; [|done].
    destruct (Hmem _ s Hm) as (_ & i & Hi & Heq).
    pose proof (increasing i k ltac:(lia)) as Hlt.
    rewrite <- Heq in Hlt. apply Qclt_not_le in Hlt.
    destruct Hlt. apply Qcle_refl. }
  rewrite Hsurv in *. rewrite Hsize in *.
  assert ((Z.of_nat (k `min` L) <? limit_) = bool_decide (k < L)%nat) as Hdec.
  { case_bool_decide; [apply Z.ltb_lt|apply Z.ltb_ge]; lia. }
  rewrite Hdec in *.
  eexists _, _. split; [reflexivity|].
  cbn [clock add_call set_redis tick]. split; [lia|].
  cbn [snd] in Hafter. rewrite Hafter.
  case_bool_decide as HkL.
  - split.
    + intros m s Hm. apply lookup_insert_Some in Hm as [[<- <-]|[Hne Hm]].
      * split; [done|]. exists k. split; [lia|done].
      * destruct (Hmem m s Hm) as (-> & i & Hi & ->).
        split; [done|]. exists i. split; [lia|done].
    + rewrite map_size_insert_None by done. lia.
  - rewrite delete_id by done. split.
    + intros m s Hm. destruct (Hmem m s Hm) as (-> & i & Hi & ->).
      split; [done|]. exists i. split; [lia|done].
    + lia.
Qed.

Lemma row_from r : ∀ k (wd : World),
  (k + r ≤ n)%nat → clock wd = (c0 + k)%nat →
  row_inv k (zset key (redis wd)) →
  (checks env key limit_ w r wd).1
  = Ok ((λ j, bool_decide (j < L)%nat) <$> seq k r).
Proof.
  induction r as [|r IH]; intros k wd Hkr Hclock Hinv; [reflexivity|].
  cbn [checks]. unfold mbind, M_bind, bind.
  destruct (row_step k wd ltac:(lia) Hclock Hinv)
    as (info & wd' & -> & Hclock' & Hinv').
  specialize (IH (S k) wd' ltac:(lia) Hclock' Hinv').
  destruct (checks env key limit_ w r wd') as [[rest|e] wd''];
    cbn [fst] in IH; [|done].
  injection IH as ->. reflexivity.
Qed.

End Row.

(** Checks on one key in a row, starting on an empty window, at clock
    readings that strictly increase and all lie within one window of
    the first: the first [limit] of them are admitted and every later
    one is denied. *)
Theorem first_limit_checks_allowed env key limit_ w n (wd : World) :
  zset key (redis wd) = ∅ →
  (∀ i j, (i < j < n)%nat →
          (time_time env (clock wd + i) < time_time env (clock wd + j))%Qc) →
  (∀ j, (j < n)%nat →
        (window_start (time_time env (clock wd + j)) w
         < time_time env (clock wd))%Qc) →
  (checks env key limit_ w n wd).1
  = Ok ((λ j, bool_decide (j < Z.to_nat limit_)%nat) <$> seq 0 n).
Proof.
  intros Hempty Hinc Hwin.
  apply (row_from env key limit_ w (clock wd) n Hinc Hwin n 0 wd);
    [lia|lia|].
  split.
  - intros m s Hm. rewrite Hempty in Hm. done.
  - rewrite Hempty. reflexivity.
Qed.

(** Five checks one second apart with a limit of three and a window of
    sixty seconds. *)
Lemma first_limit_checks_allowed_witness :
  (checks Sample.always_timeout "k" 3 60 5 world0).1
  = Ok [true; true; true; false; false].
Proof.
  apply (first_limit_checks_allowed Sample.always_timeout "k" 3 60 5 world0).
  - reflexivity.
  - intros i j Hij.
    assert (i < 5 ∧ j < 5 ∧ i < j)%nat as (Hi & Hj & Hlt) by lia.
    destruct i as [|[|[|[|[|i]]]]]; try lia;
      destruct j as [|[|[|[|[|j]]]]]; try lia; vm_compute; reflexivity.
  - intros j Hj.
    destruct j as [|[|[|[|[|j]]]]]; try lia; vm_compute; reflexivity.
Defined.

End RepeatedFacts.

(** ** The IP check: what an hourly denial leaves behind *)

Module IpLimitFacts.
Import Redis RedisFacts RateLimiter Window SlidingWindow WindowFacts.

Lemma ip_keys_differ ip : ip_key_minute ip ≠ ip_key_hour ip.
Proof.
  unfold ip_key_minute, ip_key_hour. intros Heq.
  apply StringFacts.app_inj_l in Heq. apply StringFacts.app_inj_l in Heq.
  discriminate Heq.
Qed.

Lemma count_frame key now w r r' :
  zset key r = zset key r' → count key now w r = count key now w r'.
Proof. intros Heq. unfold count, surviving. by rewrite Heq. Qed.

(** A request that passes the per-minute IP check and is refused by
    the per-hour one is refused with the hourly decision, and its event
    stays in the minute window: the refused request still uses up one
    of the minute's slots. *)
Theorem hour_denial_keeps_minute_event settings env ip (wd : World) :
  let now1 := time_time env (clock wd) in
  let now2 := time_time env (S (clock wd)) in
  count (ip_key_minute ip) now1 60 (redis wd)
  < RATE_LIMIT_IP_PER_MINUTE settings →
  RATE_LIMIT_IP_PER_HOUR settings
  ≤ count (ip_key_hour ip) now2 3600 (redis wd) →
  ∃ info wd',
    check_ip_limit settings env ip wd = (Ok (false, info), wd')
    ∧ window info = 3600
    ∧ zset (ip_key_minute ip) (redis wd') !! now1 = Some now1.
Proof.
  intros now1 now2 Hminute Hhour.
  pose proof (ip_keys_differ ip) as Hne.
  unfold check_ip_limit, mbind, M_bind, bind.
  rewrite (is_allowed_eq env (ip_key_minute ip)). cbn zeta. fold now1.
  apply Z.ltb_lt in Hminute. rewrite Hminute. cbv beta iota. cbn [negb].
  rewrite is_allowed_eq. cbn zeta.
  cbn [clock redis add_call set_redis tick]. fold now2.
  rewrite (count_frame (ip_key_hour ip) now2 3600 _ (redis wd))
    by (by apply zset_pipeline_ne).
  apply Z.ltb_ge in Hhour. rewrite Hhour. cbv beta iota.
  unfold mret, M_ret, ret.
  eexists _, _. split; [reflexivity|]. split; [reflexivity|].
  cbn [redis add_call set_redis tick]. unfold zrem.
  rewrite zset_put_zset_ne by done.
  rewrite zset_pipeline_ne by done.
  rewrite pipeline_zset_pos by lia. apply lookup_insert_eq.
Qed.

Lemma hour_denial_keeps_minute_event_witness :
  ∃ info wd',
    check_ip_limit Sample2.hour_closed Sample.always_timeout "10.0.0.1" world0
    = (Ok (false, info), wd')
    ∧ window info = 3600
    ∧ zset (ip_key_minute "10.0.0.1") (redis wd')
        !! time_time Sample.always_timeout 0
      = Some (time_time Sample.always_timeout 0).
Proof.
  apply (hour_denial_keeps_minute_event Sample2.hour_closed
           Sample.always_timeout "10.0.0.1" world0).
  - vm_compute. reflexivity.
  - vm_compute. discriminate.
Defined.

End IpLimitFacts.

(** ** The token bucket: capacity, burst and refill *)

Module BucketFacts.
Import Redis RedisFacts TokenBucket TokenBucketFacts.

(** The refilled count before the cap is a double. *)
Lemma float_add_double (x y : Qc) : round64 (float_add x y) = float_add x y.
Proof. apply Round.round64_idem. Qed.

(** Whatever the store held, after a granted request for a
    non-negative number of tokens the stored count lies between zero
    and the capacity. *)
Theorem stored_tokens_within_capacity settings env key tokens bucket_size
    refill_rate (wd wd' : World) (left : Z) :
  0 ≤ tokens →
  consume settings env key tokens bucket_size refill_rate wd
  = (Ok (true, left), wd') →
  ∃ stored,
    get (bucket_key key) (redis wd') = Some stored
    ∧ (0 ≤ stored)%Qc
    ∧ (stored ≤ exact (effective_size settings bucket_size))%Qc.
Proof.
  intros Htokens. rewrite consume_eq. cbn zeta.
  destruct (num_ge _ _) eqn:Hge; [|discriminate].
  intros [= _ <-]. eexists. split.
  { cbn [redis set_redis]. apply get_persist_tokens. }
  unfold num_ge in Hge. apply bool_decide_eq_true in Hge.
  unfold refilled, num_min in *.
  match goal with |- context [float_add ?a ?b] => set (x := float_add a b) in * end.
  assert (round64 x = x) as Hx by apply float_add_double.
  case_bool_decide as Hcap; cbn [value num_sub] in *.
  - assert (float_of_int tokens ≤ x)%Qc as Hft.
    { rewrite <- Hx. by apply Round.round64_mono. }
    split.
    + apply Round.round64_nonneg. by apply Round.Qc_sub_nonneg.
    + apply Qcle_trans with x; [|by apply Qclt_le_weak].
      rewrite <- Hx at 2. apply Round.round64_mono.
      apply Round.Qc_sub_le. by apply Round.float_of_int_nonneg.
  - apply Round.exact_le_iff in Hge. split.
    + rewrite <- Round.exact_0. apply Round.exact_le. lia.
    + apply Round.exact_le. lia.
Qed.

Lemma stored_tokens_within_capacity_witness :
  ∃ stored,
    get (bucket_key "k")
      (redis (consume Sample.settings Sample.always_timeout "k" 4 None 1%Qc
                world0).2)
    = Some stored
    ∧ (0 ≤ stored)%Qc
    ∧ (stored ≤ exact 10)%Qc.
Proof.
  apply (stored_tokens_within_capacity Sample.settings Sample.always_timeout
           "k" 4 None 1%Qc world0 _ 6).
  - lia.
  - vm_compute. reflexivity.
Defined.

Lemma float_sub_same (x : Qc) : float_sub x x = 0%Qc.
Proof.
  unfold float_sub. replace (x - x)%Qc with 0%Qc by ring.
  apply Round.round64_0.
Qed.

Lemma float_mul_0_l (x : Qc) : float_mul 0 x = 0%Qc.
Proof.
  unfold float_mul. replace (0 * x)%Qc with 0%Qc by ring.
  apply Round.round64_0.
Qed.

Lemma float_add_0_r (x : Qc) : float_add x 0 = round64 x.
Proof. unfold float_add. by replace (x + 0)%Qc with x by ring. Qed.

Lemma float_add_0_l (x : Qc) : float_add 0 x = round64 x.
Proof. unfold float_add. by replace (0 + x)%Qc with x by ring. Qed.

(** A bucket used for the first time is full, whatever the refill
    rate: a request is granted exactly when it asks for no more than
    the capacity, and a granted one leaves the capacity less the
    tokens asked for, as a whole number. *)
Theorem fresh_bucket_is_full settings env key tokens bucket_size refill_rate
    (wd : World) :
  let capacity := effective_size settings bucket_size in
  Z.abs capacity ≤ 2 ^ 53 →
  get (bucket_key key) (redis wd) = None →
  get (last_update_key key) (redis wd) = None →
  ∃ wd',
    consume settings env key tokens bucket_size refill_rate wd
    = (Ok (bool_decide (tokens ≤ capacity),
           if bool_decide (tokens ≤ capacity) then capacity - tokens
           else capacity), wd')
    ∧ (tokens ≤ capacity →
       get (bucket_key key) (redis wd') = Some (exact (capacity - tokens))).
Proof.
  intros capacity Hcap Hnone1 Hnone2. rewrite consume_eq. cbn zeta.
  fold capacity. rewrite Hnone1, Hnone2. unfold refilled.
  rewrite float_sub_same, float_mul_0_l, float_add_0_r.
  rewrite Round.float_of_int_exact, Round.round64_exact by done.
  unfold num_min. rewrite bool_decide_eq_false_2
    by (intros H; apply Qclt_not_le in H; apply H, Qcle_refl).
  unfold num_ge. cbn [value num_sub int_of].
  destruct (bool_decide (tokens ≤ capacity)) eqn:Hle.
  - apply bool_decide_eq_true in Hle.
    rewrite bool_decide_eq_true_2 by (by apply Round.exact_le).
    eexists. split; [reflexivity|]. intros _.
    cbn [redis set_redis]. apply get_persist_tokens.
  - apply bool_decide_eq_false in Hle.
    rewrite bool_decide_eq_false_2
      by (intros H; by apply Round.exact_le_iff in H).
    eexists. split; [reflexivity|]. intros H. done.
Qed.

(** A first request for four tokens against the configured capacity
    of ten: granted, six left. *)
Lemma fresh_bucket_is_full_witness :
  ∃ wd',
    consume Sample.settings Sample.always_timeout "k" 4 None 1%Qc world0
    = (Ok (true, 6), wd')
    ∧ get (bucket_key "k") (redis wd') = Some (exact (10 - 4)).
Proof.
  destruct (fresh_bucket_is_full Sample.settings Sample.always_timeout "k" 4
              None 1%Qc world0) as (wd' & Heq & Hget).
  - vm_compute. discriminate.
  - reflexivity.
  - reflexivity.
  - exists wd'. split; [exact Heq|]. apply Hget. vm_compute. discriminate.
Defined.

(** A drained bucket grants a request of no more than its capacity
    exactly when the refill since the last update covers it: the time
    elapsed since the stored time of the last update, times the refill
    rate, both as floats compute them. *)
Theorem drained_bucket_refill settings env key tokens bucket_size refill_rate
    last (wd : World) :
  let capacity := effective_size settings bucket_size in
  let now := time_time env (clock wd) in
  let gain := float_mul (float_sub now (float_of_str last)) refill_rate in
  tokens ≤ capacity →
  get (bucket_key key) (redis wd) = Some 0%Qc →
  get (last_update_key key) (redis wd) = Some last →
  ∃ left wd',
    consume settings env key tokens bucket_size refill_rate wd
    = (Ok (bool_decide (exact tokens ≤ gain)%Qc, left), wd').
Proof.
  intros capacity now gain Htokens Hzero Hlast. rewrite consume_eq. cbn zeta.
  fold capacity now. rewrite Hzero, Hlast.
  assert (refilled capacity refill_rate now (Some 0%Qc) (Some last)
          = num_min capacity gain) as ->.
  { unfold refilled. fold gain. unfold float_of_str at 1.
    rewrite Round.round64_0, float_add_0_l.
    by rewrite (Round.round64_idem _ : round64 gain = gain). }
  assert (num_ge (num_min capacity gain) tokens
          = bool_decide (exact tokens ≤ gain)%Qc) as ->.
  { unfold num_min, num_ge.
    destruct (bool_decide (gain < exact capacity)%Qc) eqn:Hcap; [done|].
    apply bool_decide_eq_false in Hcap. apply Qcnot_lt_le in Hcap.
    assert (exact tokens ≤ exact capacity)%Qc as Hle
      by (by apply Round.exact_le).
    cbn [value]. rewrite !bool_decide_eq_true_2; [done| |done].
    by apply Qcle_trans with (exact capacity). }
  destruct (bool_decide (exact tokens ≤ gain)%Qc); eexists _, _; reflexivity.
Qed.

(** The bucket drained at 1700000000.5, asked for one token one second
    later at one token per second: granted. *)
Lemma drained_bucket_refill_witness :
  ∃ left wd',
    consume Sample.settings Sample.always_timeout Sample.tool_bucket 1 None
      1%Qc Sample.drained_world_later
    = (Ok (true, left), wd').
Proof.
  destruct (drained_bucket_refill Sample.settings Sample.always_timeout
              Sample.tool_bucket 1 None 1%Qc (Sample.clock_from_half 0)
              Sample.drained_world_later) as (left & wd' & Heq).
  - vm_compute. discriminate.
  - reflexivity.
  - reflexivity.
  - exists left, wd'. rewrite Heq.
    rewrite bool_decide_eq_true_2; [reflexivity|]. vm_compute. discriminate.
Defined.

End BucketFacts.

(** ** Sanitized input *)

Module SanitizeFacts.
Import Sanitize.

Lemma all_chars_app P a b :
  all_chars P (a +:+ b) = all_chars P a && all_chars P b.
Proof.
  unfold all_chars. induction a as [|c a IH]; simpl; [done|].
  by rewrite IH, andb_assoc.
Qed.

Lemma all_chars_cons P c s :
  all_chars P (String c s) = P c && all_chars P s.
Proof. reflexivity. Qed.

Lemma all_chars_filter P keep s :
  all_chars P s = true → all_chars P (filter_chars keep s) = true.
Proof.
  induction s as [|c s IH]; [done|]. rewrite all_chars_cons.
  intros [Hc Hs]%andb_true_iff. cbn [filter_chars].
  destruct (keep c); [rewrite all_chars_cons, Hc|]; auto.
Qed.

Lemma all_chars_filter_keep keep s : all_chars keep (filter_chars keep s) = true.
Proof.
  induction s as [|c s IH]; [done|]. cbn [filter_chars].
  destruct (keep c) eqn:Hk; [rewrite all_chars_cons, Hk|]; auto.
Qed.

Lemma all_chars_lstrip P s :
  all_chars P s = true → all_chars P (lstrip s) = true.
Proof.
  induction s as [|c s IH]; [done|]. cbn [lstrip].
  destruct (isspace c); [|done]. rewrite all_chars_cons.
  intros [_ Hs]%andb_true_iff. auto.
Qed.

Lemma all_chars_rstrip P s :
  all_chars P s = true → all_chars P (rstrip s) = true.
Proof.
  induction s as [|c s IH]; [done|]. rewrite all_chars_cons.
  intros [Hc Hs]%andb_true_iff. specialize (IH Hs). cbn [rstrip].
  destruct (rstrip s) as [|d r].
  - destruct (isspace c); [done|]. by rewrite all_chars_cons, Hc.
  - by rewrite all_chars_cons, Hc, IH.
Qed.

Lemma all_chars_take P n s :
  all_chars P s = true → all_chars P (take_chars n s) = true.
Proof.
  revert s. induction n as [|n IH]; intros [|c s]; cbn [take_chars];
    try (intros; reflexivity).
  rewrite !all_chars_cons. intros [Hc Hs]%andb_true_iff.
  rewrite Hc. cbn [andb]. by apply IH.
Qed.

Lemma all_chars_slice P limit s :
  all_chars P s = true → all_chars P (slice_to limit s) = true.
Proof. intros Hs. unfold slice_to. destruct (0 <=? limit); by apply all_chars_take. Qed.

Lemma escape_char_no_markup c :
  all_chars (λ c, negb (is_markup c)) (escape_char c) = true.
Proof. destruct c as [[] [] [] [] [] [] [] []]; reflexivity. Qed.

Lemma html_escape_no_markup s :
  all_chars (λ c, negb (is_markup c)) (html_escape s) = true.
Proof.
  induction s as [|c s IH]; [done|]. cbn [html_escape].
  by rewrite all_chars_app, escape_char_no_markup, IH.
Qed.

Lemma all_chars_and P Q s :
  all_chars P s = true → all_chars Q s = true →
  all_chars (λ c, P c && Q c) s = true.
Proof.
  unfold all_chars. induction (String.list_ascii_of_string s) as [|c l IH];
    [done|]. cbn [forallb].
  intros [-> Hp]%andb_true_iff [-> Hq]%andb_true_iff. cbn. auto.
Qed.

(** Whatever the input, the sanitized text has no raw [<], [>] or
    quote character, and every character of it is printable or a line
    feed, tab or carriage return; in particular no NUL and no other
    control character. *)
Theorem sanitize_input_output_safe MAX_INPUT_LENGTH text max_length :
  all_chars (λ c, (isprintable c || is_nl_tab_cr c) && negb (is_markup c))
    (sanitize_input MAX_INPUT_LENGTH text max_length) = true.
Proof.
  unfold sanitize_input. destruct text as [|c0 text]; [reflexivity|].
  cbv zeta. apply all_chars_slice. unfold strip.
  apply all_chars_rstrip, all_chars_lstrip.
  apply (all_chars_and (λ c, isprintable c || is_nl_tab_cr c)
           (λ c, negb (is_markup c))).
  - apply all_chars_filter_keep.
  - apply all_chars_filter, html_escape_no_markup.
Qed.

Lemma length_take n s : (String.length (take_chars n s) ≤ n)%nat.
Proof.
  revert s. induction n as [|n IH]; intros [|c s]; cbn; try lia.
  specialize (IH s). lia.
Qed.

(** With a positive [max_length] the sanitized text has at most that
    many characters; with none, or with [0], at most the configured
    maximum. *)
Theorem sanitize_input_length MAX_INPUT_LENGTH text max_length :
  let out := sanitize_input MAX_INPUT_LENGTH text max_length in
  (∀ l, max_length = Some l → 0 < l → Z.of_nat (String.length out) ≤ l)
  ∧ (max_length = None ∨ max_length = Some 0 →
     0 ≤ MAX_INPUT_LENGTH → Z.of_nat (String.length out) ≤ MAX_INPUT_LENGTH).
Proof.
  intros out. subst out. unfold sanitize_input.
  destruct text as [|c0 text].
  - split; cbn; intros; lia.
  - cbv zeta. split.
    + intros l -> Hl. destruct (l =? 0) eqn:H0; [apply Z.eqb_eq in H0; lia|].
      unfold slice_to. destruct (0 <=? l) eqn:Hle; [|apply Z.leb_gt in Hle; lia].
      match goal with |- context [take_chars ?n ?s] =>
        pose proof (length_take n s) end. lia.
    + intros Hmax HM.
      assert (match max_length with
              | Some l => if l =? 0 then MAX_INPUT_LENGTH else l
              | None => MAX_INPUT_LENGTH
              end = MAX_INPUT_LENGTH) as -> by (by destruct Hmax as [-> | ->]).
      unfold slice_to.
      destruct (0 <=? MAX_INPUT_LENGTH) eqn:Hle; [|apply Z.leb_gt in Hle; lia].
      match goal with |- context [take_chars ?n ?s] =>
        pose proof (length_take n s) end. lia.
Qed.

Lemma sanitize_input_length_witness :
  Z.of_nat (String.length (sanitize_input 50000 "<script>alert(1)</script>"
                             (Some 10))) ≤ 10.
Proof.
  apply (sanitize_input_length 50000 "<script>alert(1)</script>" (Some 10)).
  - reflexivity.
  - lia.
Defined.

(** The model against the interpreter on a few inputs. *)
Example sanitize_input_sample :
  sanitize_input 50000
    ("  <b>Tom & 'Jerry'</b>" +:+ String (ascii_of_nat 7)
       (String (ascii_of_nat 0) (" " +:+ String (ascii_of_nat 10) EmptyString)))
    None
  = "&lt;b&gt;Tom &amp; &#x27;Jerry&#x27;&lt;/b&gt;".
Proof. reflexivity. Qed.

Example sanitize_input_truncates :
  sanitize_input 50000 "<script>alert(1)</script>" (Some 10) = "&lt;script"
  ∧ sanitize_input 50000 "abcdef" (Some (-2)) = "abcd"
  ∧ sanitize_input 50000 "abcdef" (Some 0) = "abcdef".
Proof. repeat split; reflexivity. Qed.

End SanitizeFacts.

(** ** Digests are 64 hexadecimal characters *)

Module DigestFacts.
Import Hash Sanitize SignatureFacts.

Lemma length_hex bs : String.length (hex bs) = (2 * length bs)%nat.
Proof. induction bs as [|b bs IH]; cbn [hex String.length length]; lia. Qed.

Lemma hex_digit_hex n :
  0 ≤ n < 16 → hex_char (hex_digit n) = true.
Proof.
  intros Hn. unfold hex_char, hex_digit, code.
  rewrite nat_ascii_embedding by (destruct (n <? 10); lia).
  destruct (n <? 10) eqn:H10.
  - apply Z.ltb_lt in H10. apply orb_true_iff. left.
    apply andb_true_iff. split; apply Nat.leb_le; lia.
  - apply Z.ltb_ge in H10. apply orb_true_iff. right.
    apply andb_true_iff. split; apply Nat.leb_le; lia.
Qed.

Lemma hex_all_hex bs : Forall is_byte bs → all_chars hex_char (hex bs) = true.
Proof.
  unfold all_chars. induction 1 as [|b bs Hb _ IH]; [reflexivity|].
  cbn [hex String.list_ascii_of_string forallb]. unfold is_byte in Hb.
  rewrite !hex_digit_hex, IH; [done| |].
  - apply Z.mod_pos_bound. lia.
  - split; [apply Z.div_pos; lia | apply Z.div_lt_upper_bound; lia].
Qed.

Lemma round_length st kw : length (round st kw) = length st.
Proof.
  unfold round.
  destruct st as [|a [|b [|c [|d [|e [|f [|g [|h [|i st]]]]]]]]]; reflexivity.
Qed.

Lemma foldl_round_length l st : length (foldl round st l) = length st.
Proof.
  revert st. induction l as [|kw l IH]; intros st; [done|].
  cbn [foldl]. by rewrite IH, round_length.
Qed.

Lemma compress_length h block : length (compress h block) = length h.
Proof.
  unfold compress. rewrite length_zip_with, foldl_round_length. lia.
Qed.

Lemma foldl_compress_length blocks h :
  length (foldl compress h blocks) = length h.
Proof.
  revert h. induction blocks as [|b blocks IH]; intros h; [done|].
  cbn [foldl]. by rewrite IH, compress_length.
Qed.

Lemma length_words (h : list Z) :
  length (mjoin (be_bytes 4 <$> h)) = (4 * length h)%nat.
Proof.
  induction h as [|x h IH]; [reflexivity|].
  change (length (be_bytes 4 x ++ mjoin (be_bytes 4 <$> h))
          = (4 * S (length h))%nat).
  rewrite length_app, IH. cbn [be_bytes]. rewrite !length_app. cbn. lia.
Qed.

Local Transparent sha256.

Lemma sha256_length msg : length (sha256 msg) = 32%nat.
Proof.
  unfold sha256. rewrite length_words, foldl_compress_length. reflexivity.
Qed.

Local Opaque sha256.

Lemma hex_sha256_shape msg :
  String.length (hex (sha256 msg)) = 64%nat
  ∧ all_chars hex_char (hex (sha256 msg)) = true.
Proof.
  split.
  - by rewrite length_hex, sha256_length.
  - apply hex_all_hex, sha256_range.
Qed.

(** The stored form of a token is 64 characters, each a digit or a
    letter from [a] to [f], whatever the token. *)
Theorem hash_token_shape token :
  String.length (hash_token token) = 64%nat
  ∧ all_chars hex_char (hash_token token) = true.
Proof. apply hex_sha256_shape. Qed.

(** Every request signature is 64 characters, each a digit or a
    letter from [a] to [f], for every request and under every secret. *)
Theorem sign_request_shape settings endpoint method_ body_ stamp :
  let signature :=
    Security.sign_request settings endpoint method_ body_ stamp in
  String.length signature = 64%nat ∧ all_chars hex_char signature = true.
Proof.
  unfold Security.sign_request, hmac_hexdigest, hmac_sha256.
  apply hex_sha256_shape.
Qed.

End DigestFacts.

(** ** C9: two requests with one signature *)

Module CollisionFacts.
Import Hash Signed StringFacts SignatureFacts DigestFacts.

Local Opaque sha256 all_bytes.

(** Among more values than a list has elements, all taken from the
    list, two are equal. *)
Lemma repeated_in_prefix {A} `{EqDecision A} (f : nat → A) (m : nat) :
  NoDup (f <$> seq 0 m) ∨ ∃ i j, (i < j < m)%nat ∧ f i = f j.
Proof.
  induction m as [|m IH]; [left; constructor|].
  rewrite seq_S, fmap_app. cbn [fmap list_fmap Nat.add].
  destruct IH as [Hnd|(i & j & Hij & Heq)].
  - destruct (decide (f m ∈ f <$> seq 0 m)) as [Hin|Hnin].
    + right. apply list_elem_of_fmap in Hin as (i & Heq & Hi).
      apply elem_of_seq in Hi. exists i, m. split; [lia|done].
    + left. apply NoDup_app. split; [done|]. split.
      * intros x Hx Hx'. apply list_elem_of_singleton in Hx' as ->. done.
      * apply NoDup_singleton.
  - right. exists i, j. split; [lia|done].
Qed.

Lemma pigeonhole {A} `{EqDecision A} (f : nat → A) (pool : list A) :
  (∀ i, f i ∈ pool) → ∃ i j, (i < j)%nat ∧ f i = f j.
Proof.
  intros Hpool.
  destruct (repeated_in_prefix f (S (length pool)))
    as [Hnd|(i & j & Hij & Heq)].
  - assert (f <$> seq 0 (S (length pool)) ⊆+ pool) as Hsub.
    { apply NoDup_submseteq; [done|].
      intros x Hx. apply list_elem_of_fmap in Hx as (i & -> & _).
      apply Hpool. }
    apply submseteq_length in Hsub.
    rewrite length_fmap, length_seq in Hsub. lia.
  - exists i, j. split; [lia|done].
Qed.

Local Transparent all_bytes.

Lemma all_bytes_complete (l : list Z) :
  Forall is_byte l → l ∈ all_bytes (length l).
Proof.
  induction 1 as [|b l Hb _ IH]; cbn [all_bytes length].
  - apply list_elem_of_singleton. done.
  - apply list_elem_of_bind. exists b. split.
    + apply list_elem_of_fmap. by exists l.
    + apply elem_of_seqZ. unfold is_byte in Hb. lia.
Qed.

Local Opaque all_bytes.

(** The bytes of a digest determine its hexadecimal form. *)
Lemma letters_length n : String.length (letters n) = n.
Proof. induction n as [|n IH]; cbn; [done|]. by rewrite IH. Qed.

(** Among the requests that differ only in how many letters the body
    has, two have the same signature. *)
Lemma padded_collision settings :
  ∃ i j, (i < j)%nat ∧ sign settings (padded i) = sign settings (padded j).
Proof.
  set (f := λ n, hmac_sha256 (encode (MCP_SIGNING_SECRET settings))
                   (encode (message (padded n)))).
  destruct (pigeonhole f (all_bytes 32)) as (i & j & Hij & Heq).
  - intros n. unfold f, hmac_sha256. cbv zeta.
    match goal with |- sha256 ?x ∈ _ =>
      pose proof (all_bytes_complete _ (sha256_range x)) as Hin;
      rewrite sha256_length in Hin; exact Hin
    end.
  - exists i, j. split; [done|].
    change (hex (f i) = hex (f j)). by rewrite Heq.
Qed.


End CollisionFacts.

(** ** Roles and permissions *)

Module RbacFacts.
Import Rbac Access.

Lemma user_below_developer p :
  p ∈ get_permissions USER → p ∈ get_permissions DEVELOPER.
Proof.
  unfold get_permissions. cbn [ROLE_PERMISSIONS]. intros Hp.
  apply elem_of_app. by left.
Qed.

Lemma developer_below_admin p :
  p ∈ get_permissions DEVELOPER → p ∈ get_permissions ADMIN.
Proof.
  unfold get_permissions. cbn [ROLE_PERMISSIONS]. intros Hp.
  apply elem_of_app in Hp as [Hp|Hp]; apply elem_of_app;
    [by left|right].
  apply (elem_of_app [CREATE_APP; UPDATE_APP; DELETE_APP; VIEW_APP_STATS]).
  by left.
Qed.

Lemma admin_has_all p : p ∈ get_permissions ADMIN.
Proof. unfold get_permissions. destruct p; cbn; repeat constructor. Qed.

Lemma has_any_mono r1 r2 ps :
  (∀ p, p ∈ get_permissions r1 → p ∈ get_permissions r2) →
  has_any_permission r1 ps = true → has_any_permission r2 ps = true.
Proof.
  intros Hsub. unfold has_any_permission. cbv zeta.
  rewrite !existsb_exists. intros (p & Hin & Hp). exists p. split; [done|].
  apply bool_decide_eq_true in Hp. apply bool_decide_eq_true. auto.
Qed.

Lemma has_all_mono r1 r2 ps :
  (∀ p, p ∈ get_permissions r1 → p ∈ get_permissions r2) →
  has_all_permissions r1 ps = true → has_all_permissions r2 ps = true.
Proof.
  intros Hsub. unfold has_all_permissions. cbv zeta.
  rewrite !forallb_forall. intros Hall p Hin. specialize (Hall p Hin).
  apply bool_decide_eq_true in Hall. apply bool_decide_eq_true. auto.
Qed.

Lemma check_mono r1 r2 ps all :
  (∀ p, p ∈ get_permissions r1 → p ∈ get_permissions r2) →
  check (new_checker (Some ps) None all) r1 = true →
  check (new_checker (Some ps) None all) r2 = true.
Proof.
  intros Hsub. unfold check, new_checker. cbn.
  destruct (nonempty ps); [|done].
  destruct all; [by apply has_all_mono|by apply has_any_mono].
Qed.

(** Permission requirements respect the order of the roles: a
    requirement that a user passes is passed by a developer, and one
    that a developer passes is passed by an administrator, whatever the
    permissions asked for and whether any or all of them are
    required. *)
Theorem permission_checks_monotone permissions all verified :
  let as_role r := Some {| role := r; is_verified := verified |} in
  (RequirePermission permissions all (as_role USER)
   = Ok {| role := USER; is_verified := verified |} →
   RequirePermission permissions all (as_role DEVELOPER)
   = Ok {| role := DEVELOPER; is_verified := verified |})
  ∧ (RequirePermission permissions all (as_role DEVELOPER)
     = Ok {| role := DEVELOPER; is_verified := verified |} →
     RequirePermission permissions all (as_role ADMIN)
     = Ok {| role := ADMIN; is_verified := verified |}).
Proof.
  intros as_role. subst as_role. unfold RequirePermission. cbn [require_auth role].
  split.
  - destruct (check _ USER) eqn:Hu; [|discriminate]. intros _.
    by rewrite (check_mono USER DEVELOPER permissions all user_below_developer Hu).
  - destruct (check _ DEVELOPER) eqn:Hd; [|discriminate]. intros _.
    by rewrite (check_mono DEVELOPER ADMIN permissions all developer_below_admin Hd).
Qed.

(** An administrator passes every permission requirement, and an
    anonymous caller none: the latter is refused with 401, never
    403. *)
Theorem admin_passes_anonymous_refused permissions all (u : User) :
  role u = ADMIN →
  RequirePermission permissions all (Some u) = Ok u
  ∧ RequirePermission permissions all None = Raise not_authenticated.
Proof.
  intros Hadmin. split; [|reflexivity].
  unfold RequirePermission. cbn [require_auth]. rewrite Hadmin.
  unfold check, new_checker. cbn.
  destruct permissions as [|p ps]; [reflexivity|]. cbn [nonempty].
  destruct all.
  - unfold has_all_permissions. cbv zeta.
    rewrite (proj2 (forallb_forall _ _)); [reflexivity|].
    intros q _. apply bool_decide_eq_true, admin_has_all.
  - unfold has_any_permission. cbv zeta. cbn [existsb].
    by rewrite (bool_decide_eq_true_2 _ (admin_has_all p)).
Qed.

Lemma admin_passes_anonymous_refused_witness :
  RequirePermission [MANAGE_USERS; VIEW_LOGS] true
    (Some {| role := ADMIN; is_verified := false |})
  = Ok {| role := ADMIN; is_verified := false |}
  ∧ RequirePermission [MANAGE_USERS; VIEW_LOGS] true None
    = Raise not_authenticated.
Proof.
  apply (admin_passes_anonymous_refused [MANAGE_USERS; VIEW_LOGS] true
           {| role := ADMIN; is_verified := false |}).
  reflexivity.
Defined.

End RbacFacts.

Module RbacExamples.
Import Rbac Access RbacFacts.

Lemma permission_checks_monotone_witness :
  RequirePermission [CREATE_CHAT; VIEW_LOGS] false
    (Some {| role := DEVELOPER; is_verified := true |})
  = Ok {| role := DEVELOPER; is_verified := true |}.
Proof.
  apply (proj1 (permission_checks_monotone [CREATE_CHAT; VIEW_LOGS] false true)).
  reflexivity.
Defined.

End RbacExamples.

(** ** Signature verification: the three outcomes *)

Module VerifyFacts.
Import Hash Signed SignatureFacts.

(** Verification answers [true] for the expected digest and for no
    other string, [false] for any other string of ASCII characters,
    and raises, instead of answering [false], on a signature with a
    character outside ASCII. *)
Theorem verify_signature_outcomes settings endpoint method_ body_ stamp
    signature :
  let expected :=
    Security.sign_request settings endpoint method_ body_ stamp in
  let outcome :=
    Security.verify_signature settings endpoint method_ body_ stamp
      signature in
  (outcome = Ok true ↔ signature = expected)
  ∧ (is_ascii signature = true → signature ≠ expected → outcome = Ok false)
  ∧ (is_ascii signature = false → ∃ e, outcome = Raise e).
Proof.
  intros expected outcome. subst outcome.
  unfold Security.verify_signature. fold expected.
  assert (is_ascii expected = true) as Hexp
    by apply hmac_hexdigest_is_ascii.
  unfold compare_digest. rewrite Hexp, andb_true_r.
  destruct (is_ascii signature) eqn:Hsig.
  - split; [|split].
    + split.
      * intros [= Heq]. by apply String.eqb_eq.
      * intros ->. by rewrite String.eqb_refl.
    + intros _ Hne. f_equal. by apply String.eqb_neq.
    + discriminate.
  - split; [|split].
    + split; [discriminate|]. intros ->. congruence.
    + discriminate.
    + eauto.
Qed.

Lemma verify_signature_outcomes_witness :
  ∃ e, Security.verify_signature Sample.settings "/tools/call" "POST" "{}"
         "1700000000" (String (ascii_of_nat 233) EmptyString) = Raise e.
Proof.
  apply (verify_signature_outcomes Sample.settings "/tools/call" "POST" "{}"
           "1700000000" (String (ascii_of_nat 233) EmptyString)).
  reflexivity.
Defined.

End VerifyFacts.

(** ** The endpoint and its trailing slashes *)

Module EndpointFacts.
Import MCPClient StringFacts.

Lemma rstrip_slash_app_slash s : rstrip_slash (s +:+ "/") = rstrip_slash s.
Proof.
  induction s as [|c s IH]; [reflexivity|].
  change (rstrip_slash (String c (s +:+ "/")) = rstrip_slash (String c s)).
  change (match rstrip_slash (s +:+ "/") with
          | EmptyString =>
              if Ascii.eqb c "/" then EmptyString else String c EmptyString
          | String d r => String c (String d r)
          end
          = match rstrip_slash s with
            | EmptyString =>
                if Ascii.eqb c "/" then EmptyString else String c EmptyString
            | String d r => String c (String d r)
            end).
  by rewrite IH.
Qed.

Lemma rstrip_slash_no_trailing s r : rstrip_slash s ≠ r +:+ "/".
Proof.
  revert r. induction s as [|c s IH]; intros r Heq.
  - destruct r; discriminate Heq.
  - cbn [rstrip_slash] in Heq. destruct (rstrip_slash s) as [|d t] eqn:Hs.
    + destruct (Ascii.eqb c "/") eqn:Hc.
      * destruct r; discriminate Heq.
      * destruct r as [|x [|y r]]; cbn in Heq.
        -- injection Heq as ->. discriminate Hc.
        -- discriminate Heq.
        -- discriminate Heq.
    + destruct r as [|x r]; cbn [String.append] in Heq.
      * discriminate Heq.
      * injection Heq as -> Heq. by apply (IH r).
Qed.

Lemma rstrip_slash_idempotent s :
  rstrip_slash (rstrip_slash s) = rstrip_slash s.
Proof.
  induction s as [|c s IH]; [reflexivity|].
  cbn [rstrip_slash]. destruct (rstrip_slash s) as [|d t] eqn:Hs.
  - destruct (Ascii.eqb c "/") eqn:Hc; [reflexivity|].
    cbn [rstrip_slash]. by rewrite Hc.
  - cbn [rstrip_slash]. cbn [rstrip_slash] in IH.
    destruct (rstrip_slash t) as [|e u] eqn:Ht.
    + destruct (Ascii.eqb d "/"); [discriminate IH|]. by rewrite IH.
    + by rewrite IH.
Qed.

Section Slash.
Context (settings : Settings) (env : Env).
Context (s tool_name : string) (arguments : Json.t).
Context (api_key_encrypted : option string).
Hypothesis anonymous : truthy api_key_encrypted = None.

Lemma attempt_body_slash attempt start_time (wd : World) :
  attempt_body settings env attempt (s +:+ "/") tool_name arguments
    api_key_encrypted start_time wd
  = attempt_body settings env attempt s tool_name arguments
      api_key_encrypted start_time wd.
Proof.
  unfold attempt_body, attempt_try. rewrite anonymous.
  by rewrite rstrip_slash_app_slash.
Qed.

Lemma retry_loop_slash n : ∀ attempt start_time (wd : World),
  retry_loop settings env n attempt (s +:+ "/") tool_name arguments
    api_key_encrypted start_time wd
  = retry_loop settings env n attempt s tool_name arguments
      api_key_encrypted start_time wd.
Proof.
  induction n as [|n IH]; intros attempt start_time wd; [reflexivity|].
  cbn [retry_loop]. unfold mbind, M_bind, bind.
  rewrite attempt_body_slash.
  destruct (attempt_body settings env attempt s tool_name arguments
              api_key_encrypted start_time wd) as [[[res|]|e] w1];
    [reflexivity|apply IH|reflexivity].
Qed.

End Slash.

(** A trailing slash of the configured endpoint does not matter to
    discovery, nor to an invocation without a credential: with or
    without it the same requests are sent and the same result comes
    back.  (With a credential the signature covers the endpoint as
    configured, slash included.) *)
Theorem trailing_slash_is_ignored settings env s tool_name arguments
    api_key_encrypted app_id_ app_name_ (wd : World) :
  discover_tools env (s +:+ "/") api_key_encrypted app_id_ app_name_ wd
  = discover_tools env s api_key_encrypted app_id_ app_name_ wd
  ∧ (truthy api_key_encrypted = None →
     invoke_tool settings env (s +:+ "/") tool_name arguments
       api_key_encrypted wd
     = invoke_tool settings env s tool_name arguments api_key_encrypted wd).
Proof.
  split.
  - unfold discover_tools, discover_try.
    by rewrite rstrip_slash_app_slash.
  - intros Hanon. unfold invoke_tool, mbind, M_bind, bind.
    destruct (now_ env wd) as [[start_time|e] w1]; [|reflexivity].
    by rewrite retry_loop_slash.
Qed.

Lemma trailing_slash_is_ignored_witness :
  discover_tools Sample2.catalogue_server "http://tool/" None "app" "App"
    world0
  = discover_tools Sample2.catalogue_server "http://tool" None "app" "App"
      world0
  ∧ invoke_tool Sample.settings Sample.always_timeout "http://tool/" "search"
      (JObj []) None world0
    = invoke_tool Sample.settings Sample.always_timeout "http://tool" "search"
        (JObj []) None world0.
Proof.
  destruct (trailing_slash_is_ignored Sample.settings Sample.always_timeout
              "http://tool" "search" (JObj []) None "app" "App" world0)
    as [_ Hinvoke].
  destruct (trailing_slash_is_ignored Sample.settings Sample2.catalogue_server
              "http://tool" "search" (JObj []) None "app" "App" world0)
    as [Hdiscover _].
  split; [exact Hdiscover|]. apply Hinvoke. reflexivity.
Defined.

End EndpointFacts.

(** ** The tool client: bounds, shape, success and fast failure *)

Module InvokeFacts.
Import MCPClient Outcome Outcome2 RetryFacts.

Local Opaque Hash.hmac_hexdigest int_of_float pretty float_of_int.

Section Any.
Context (settings : Settings) (env : Env).
Context (mcp_endpoint tool_name : string) (arguments : Json.t).
Context (api_key_encrypted : option string) (start_time : Qc).

Local Abbreviation max_retries := (MCP_MAX_RETRIES settings).
Local Abbreviation try_at :=
  (attempt_try env mcp_endpoint tool_name arguments api_key_encrypted
     start_time).
Local Abbreviation body_at := (λ attempt,
  attempt_body settings env attempt mcp_endpoint tool_name arguments
    api_key_encrypted start_time).
Local Abbreviation loop := (λ n attempt,
  retry_loop settings env n attempt mcp_endpoint tool_name arguments
    api_key_encrypted start_time).

(** Whatever happens inside the [try] block, at most one POST is sent,
    nothing is slept, and a result that comes out has its shape. *)
Lemma attempt_try_any (wd : World) :
  ∃ r wd', try_at wd = (r, wd')
           ∧ (posts wd ≤ posts wd' ≤ S (posts wd))%nat
           ∧ slept wd' = slept wd
           ∧ (∀ res, r = Ok res → well_shaped res).
Proof.
  unfold attempt_try, _sign_request, post, now_, lift, raise_for_status,
    mbind, M_bind, bind, mret, M_ret, ret.
  repeat (cbv beta iota;
          match goal with
          | |- context [match ?x with _ => _ end] =>
              lazymatch type of x with
              | (_ * _)%type => fail
              | _ => destruct x
              end
          end);
    cbv beta iota;
    eexists _, _; (split; [reflexivity|]);
    cbn [posts slept tick count_post];
    (split; [lia|]); (split; [reflexivity|]);
    intros res [= <-]; reflexivity.
Qed.

Lemma attempt_body_any attempt (wd : World) :
  ∃ r wd', body_at attempt wd = (Ok r, wd')
           ∧ (posts wd ≤ posts wd' ≤ S (posts wd))%nat
           ∧ match r with
             | None => attempt < max_retries - 1
                       ∧ length (slept wd') = S (length (slept wd))
             | Some res => slept wd' = slept wd ∧ well_shaped res
             end.
Proof.
  unfold attempt_body, try_except, mbind, M_bind, bind.
  destruct (attempt_try_any wd) as (r & w1 & -> & Hposts & Hslept & Hshape).
  destruct r as [res|e].
  - eexists _, _. split; [reflexivity|]. split; [done|]. split; [done|].
    by apply Hshape.
  - destruct e;
      try (unfold now_, mbind, M_bind, bind, mret, M_ret, ret;
           eexists _, _; split; [reflexivity|];
           cbn [posts slept tick]; split; [done|]; by split).
    destruct (attempt <? max_retries - 1) eqn:Hlt.
    + unfold sleep, mbind, M_bind, bind, mret, M_ret, ret.
      eexists _, _. split; [reflexivity|].
      cbn [posts slept add_sleep]. split; [done|].
      split; [by apply Z.ltb_lt|]. rewrite length_app, Hslept. cbn. lia.
    + unfold now_, mbind, M_bind, bind, mret, M_ret, ret.
      eexists _, _. split; [reflexivity|].
      cbn [posts slept tick]. split; [done|]. by split.
Qed.

Lemma retry_loop_any n : ∀ attempt (wd : World),
  attempt + Z.of_nat n = max_retries →
  ∃ r wd', loop n attempt wd = (Ok r, wd')
           ∧ (posts wd ≤ posts wd' ≤ posts wd + n)%nat
           ∧ (length (slept wd') ≤ length (slept wd) + (n - 1))%nat
           ∧ (∀ res, r = Some res → well_shaped res).
Proof.
  induction n as [|n IH]; intros attempt wd Hsum.
  - eexists _, _. split; [reflexivity|].
    split; [lia|]. split; [lia|]. intros res [=].
  - cbn [retry_loop]. unfold mbind, M_bind, bind.
    destruct (attempt_body_any attempt wd) as (r & w1 & -> & Hposts & Hr).
    destruct r as [res|].
    + destruct Hr as [Hslept Hshape].
      eexists _, _. split; [reflexivity|]. rewrite Hslept.
      split; [lia|]. split; [lia|]. by intros ? [= <-].
    + destruct Hr as [Hlt Hslept].
      destruct (IH (attempt + 1) w1 ltac:(lia))
        as (r & w2 & -> & Hposts2 & Hslept2 & Hshape).
      eexists _, _. split; [reflexivity|].
      split; [lia|]. split; [lia|]. exact Hshape.
Qed.

End Any.

(** In every environment [invoke_tool] returns a result, it never
    raises; it sends at most [MCP_MAX_RETRIES] POSTs and sleeps fewer
    times than that; and in the result exactly one of payload and
    error stands: a success has no error, a failure no payload. *)
Theorem invoke_tool_always_returns settings env mcp_endpoint tool_name arguments
    api_key_encrypted (wd : World) :
  ∃ res wd',
    invoke_tool settings env mcp_endpoint tool_name arguments
      api_key_encrypted wd = (Ok res, wd')
    ∧ (posts wd ≤ posts wd'
       ≤ posts wd + Z.to_nat (MCP_MAX_RETRIES settings))%nat
    ∧ (length (slept wd')
       ≤ length (slept wd) + (Z.to_nat (MCP_MAX_RETRIES settings) - 1))%nat
    ∧ well_shaped res.
Proof.
  unfold invoke_tool, now_.
  unfold mbind at 1, M_bind at 1, bind at 1.
  unfold mbind at 1, M_bind at 1, bind at 1.
  destruct (Z_le_gt_dec (MCP_MAX_RETRIES settings) 0) as [Hle|Hgt].
  - replace (Z.to_nat (MCP_MAX_RETRIES settings)) with 0%nat by lia.
    cbn [retry_loop]. unfold mbind, M_bind, bind, mret, M_ret, ret.
    eexists _, _. split; [reflexivity|].
    cbn [posts slept tick]. split; [lia|]. split; [lia|]. reflexivity.
  - destruct (retry_loop_any settings env mcp_endpoint tool_name arguments
                api_key_encrypted (time_time env (clock wd))
                (Z.to_nat (MCP_MAX_RETRIES settings)) 0 (tick wd)
                ltac:(lia)) as (r & w1 & -> & Hposts & Hslept & Hshape).
    cbn [posts slept tick] in Hposts, Hslept.
    destruct r as [res|].
    + eexists _, _. split; [reflexivity|].
      split; [lia|]. split; [lia|]. by apply Hshape.
    + unfold mbind, M_bind, bind, mret, M_ret, ret.
      eexists _, _. split; [reflexivity|].
      cbn [posts slept tick]. split; [lia|]. split; [lia|]. reflexivity.
Qed.

End InvokeFacts.

Module AfterTimeouts.
Import MCPClient Outcome Outcome2 RetryFacts.

Local Opaque Hash.hmac_hexdigest int_of_float pretty float_of_int.

Section After.
Context (settings : Settings) (env : Env).
Context (mcp_endpoint tool_name : string) (arguments : Json.t).
Context (api_key_encrypted : option string).
Hypothesis credential : credential_ok env api_key_encrypted.

Local Abbreviation try_at := (λ start_time,
  attempt_try env mcp_endpoint tool_name arguments api_key_encrypted
    start_time).
Local Abbreviation body_at := (λ attempt start_time,
  attempt_body settings env attempt mcp_endpoint tool_name arguments
    api_key_encrypted start_time).

(** [k] timeouts, then an attempt that returns: the invocation returns
    what that attempt returns, after [k + 1] POSTs and [k] sleeps. *)
Lemma invoke_after_timeouts (k : nat) (R : Z → ToolResult) (wd : World) :
  Z.of_nat k < MCP_MAX_RETRIES settings →
  (∀ i, (i < k)%nat → times_out env (posts wd + i)) →
  (∀ start_time (w1 : World), posts w1 = (posts wd + k)%nat →
     ∃ ms w2, body_at (0 + Z.of_nat k) start_time w1 = (Ok (Some (R ms)), w2)
              ∧ posts w2 = S (posts w1) ∧ slept w2 = slept w1) →
  ∃ ms wd',
    invoke_tool settings env mcp_endpoint tool_name arguments
      api_key_encrypted wd = (Ok (R ms), wd')
    ∧ posts wd' = (posts wd + S k)%nat
    ∧ slept wd' = slept wd ++ backoffs (MCP_RETRY_DELAY settings) k.
Proof.
  intros Hk Hout Hlast. unfold invoke_tool, now_.
  unfold mbind at 1, M_bind at 1, bind at 1.
  unfold mbind at 1, M_bind at 1, bind at 1.
  destruct (retry_loop_skip settings env mcp_endpoint tool_name arguments
              api_key_encrypted (time_time env (clock wd)) credential k
              (Z.to_nat (MCP_MAX_RETRIES settings)) 0 (tick wd))
    as (w1 & -> & Hp1 & Hs1); [lia|lia|exact Hout|].
  destruct (Z.to_nat (MCP_MAX_RETRIES settings) - k)%nat as [|n] eqn:Hn; [lia|].
  cbn [retry_loop]. unfold mbind at 1, M_bind at 1, bind at 1.
  destruct (Hlast (time_time env (clock wd)) w1 Hp1)
    as (ms & w2 & -> & Hp2 & Hs2).
  eexists _, _. split; [reflexivity|]. split.
  - rewrite Hp2, Hp1. cbn [posts tick]. lia.
  - by rewrite Hs2, Hs1, backoffs_eq.
Qed.

Ltac open_try :=
  unfold attempt_body, try_except, attempt_try, _sign_request, post, now_,
    lift, mbind, M_bind, bind, mret, M_ret, ret;
  destruct (truthy api_key_encrypted) as [enc|] eqn:Htruthy;
  [ destruct (credential enc Htruthy) as [api_key ->] | ];
  cbn [posts tick count_post slept calls redis clock].

Lemma attempt_body_payload attempt start_time payload (wd : World) :
  answers_payload env (posts wd) payload →
  ∃ ms wd',
    body_at attempt start_time wd
    = (Ok (Some {| success := true; result := payload; error := JNull;
                   duration_ms := ms |}), wd')
    ∧ posts wd' = S (posts wd) ∧ slept wd' = slept wd.
Proof.
  intros Hans. open_try;
    match goal with |- context [http_post env (posts wd) ?req] =>
      destruct (Hans req)
        as (resp & fields & -> & Hok & Hjson & Herr & ->)
    end;
    unfold raise_for_status; rewrite Hok, Hjson;
    cbn [Json.contains]; rewrite Herr;
    cbn [Json.get]; eexists _, _; (split; [reflexivity|]); by split.
Qed.

Lemma attempt_body_status attempt start_time status body_text (wd : World) :
  answers_status env (posts wd) status body_text →
  ∃ ms wd',
    body_at attempt start_time wd
    = (Ok (Some (failure
                   (JStr ("HTTP " +:+ pretty status +:+ ": "
                          +:+ String.substring 0 200 body_text)) ms)), wd')
    ∧ posts wd' = S (posts wd) ∧ slept wd' = slept wd.
Proof.
  intros Hans. open_try;
    match goal with |- context [http_post env (posts wd) ?req] =>
      destruct (Hans req) as (resp & -> & <- & <- & Hbad)
    end;
    unfold raise_for_status; rewrite Hbad;
    eexists _, _; (split; [reflexivity|]); by split.
Qed.

Lemma attempt_body_error attempt start_time msg (wd : World) :
  fails_without_timeout env (posts wd) msg →
  ∃ ms wd',
    body_at attempt start_time wd = (Ok (Some (failure (JStr msg) ms)), wd')
    ∧ posts wd' = S (posts wd) ∧ slept wd' = slept wd.
Proof.
  intros Hfail. open_try;
    match goal with |- context [http_post env (posts wd) ?req] =>
      destruct (Hfail req) as [-> | ->]
    end;
    eexists _, _; (split; [reflexivity|]); by split.
Qed.

End After.

(** When the first [k] attempts time out and the next one is answered
    with a 2xx response without an error object, [invoke_tool] returns
    success with that response's payload: its "content" if it has one,
    else its "result".  It has sent [k + 1] POSTs and slept
    [delay * 1 .. delay * k]. *)
Theorem invoke_tool_succeeds_after_timeouts settings env mcp_endpoint tool_name
    arguments api_key_encrypted (k : nat) payload (wd : World) :
  Z.of_nat k < MCP_MAX_RETRIES settings →
  credential_ok env api_key_encrypted →
  (∀ i, (i < k)%nat → times_out env (posts wd + i)) →
  answers_payload env (posts wd + k) payload →
  ∃ ms wd',
    invoke_tool settings env mcp_endpoint tool_name arguments
      api_key_encrypted wd
    = (Ok {| success := true; result := payload; error := JNull;
             duration_ms := ms |}, wd')
    ∧ posts wd' = (posts wd + S k)%nat
    ∧ slept wd' = slept wd ++ backoffs (MCP_RETRY_DELAY settings) k.
Proof.
  intros Hk Hcred Hout Hans.
  apply (invoke_after_timeouts settings env mcp_endpoint tool_name arguments
           api_key_encrypted Hcred k
           (λ ms, {| success := true; result := payload; error := JNull;
                     duration_ms := ms |}) wd Hk Hout).
  intros start_time w1 Hp. apply attempt_body_payload; [done|].
  by rewrite Hp.
Qed.

(** A status that is not 2xx is never retried: the attempt that
    receives it ends the invocation with the failure
    "HTTP <status>: <first 200 characters of the body>". *)
Theorem invoke_tool_status_fails_fast settings env mcp_endpoint tool_name
    arguments api_key_encrypted (k : nat) status body_text (wd : World) :
  Z.of_nat k < MCP_MAX_RETRIES settings →
  credential_ok env api_key_encrypted →
  (∀ i, (i < k)%nat → times_out env (posts wd + i)) →
  answers_status env (posts wd + k) status body_text →
  ∃ ms wd',
    invoke_tool settings env mcp_endpoint tool_name arguments
      api_key_encrypted wd
    = (Ok (failure (JStr ("HTTP " +:+ pretty status +:+ ": "
                          +:+ String.substring 0 200 body_text)) ms), wd')
    ∧ posts wd' = (posts wd + S k)%nat
    ∧ slept wd' = slept wd ++ backoffs (MCP_RETRY_DELAY settings) k.
Proof.
  intros Hk Hcred Hout Hans.
  apply (invoke_after_timeouts settings env mcp_endpoint tool_name arguments
           api_key_encrypted Hcred k
           (λ ms, failure (JStr ("HTTP " +:+ pretty status +:+ ": "
                                 +:+ String.substring 0 200 body_text)) ms)
           wd Hk Hout).
  intros start_time w1 Hp. apply attempt_body_status; [done|].
  by rewrite Hp.
Qed.

(** A failure of the transport that is not a timeout (a refused
    connection, say) is never retried either: it ends the invocation
    with the text of the exception as the error. *)
Theorem invoke_tool_error_fails_fast settings env mcp_endpoint tool_name
    arguments api_key_encrypted (k : nat) msg (wd : World) :
  Z.of_nat k < MCP_MAX_RETRIES settings →
  credential_ok env api_key_encrypted →
  (∀ i, (i < k)%nat → times_out env (posts wd + i)) →
  fails_without_timeout env (posts wd + k) msg →
  ∃ ms wd',
    invoke_tool settings env mcp_endpoint tool_name arguments
      api_key_encrypted wd
    = (Ok (failure (JStr msg) ms), wd')
    ∧ posts wd' = (posts wd + S k)%nat
    ∧ slept wd' = slept wd ++ backoffs (MCP_RETRY_DELAY settings) k.
Proof.
  intros Hk Hcred Hout Hfail.
  apply (invoke_after_timeouts settings env mcp_endpoint tool_name arguments
           api_key_encrypted Hcred k (λ ms, failure (JStr msg) ms)
           wd Hk Hout).
  intros start_time w1 Hp. apply attempt_body_error; [done|].
  by rewrite Hp.
Qed.

End AfterTimeouts.

Module AfterTimeoutsExamples.
Import MCPClient Outcome Outcome2 AfterTimeouts.

Lemma flaky_server_times_out answer i :
  (i < 2)%nat → times_out (Sample2.flaky_server answer) (posts world0 + i).
Proof.
  intros Hi req. exists "timed out".
  destruct i as [|[|i]]; [reflexivity|reflexivity|lia].
Qed.

(** Two timeouts and then an answer with both keys: the third attempt
    succeeds with the "content", after sleeps of one and two seconds. *)
Lemma invoke_tool_succeeds_after_timeouts_witness :
  ∃ ms wd',
    invoke_tool Sample.settings
      (Sample2.flaky_server (Ok Sample2.both_payloads))
      "http://tool/" "search" (JObj []) None world0
    = (Ok {| success := true; result := JStr "new"; error := JNull;
             duration_ms := ms |}, wd')
    ∧ posts wd' = 3%nat
    ∧ slept wd' = backoffs 1%Qc 2.
Proof.
  apply (invoke_tool_succeeds_after_timeouts Sample.settings
           (Sample2.flaky_server (Ok Sample2.both_payloads))
           "http://tool/" "search" (JObj []) None 2 (JStr "new") world0).
  - vm_compute. reflexivity.
  - apply RetryExamples.no_credential_ok.
  - intros i Hi. by apply flaky_server_times_out.
  - intros req. eexists _, _. split; [reflexivity|].
    split; [reflexivity|]. split; [reflexivity|]. split; reflexivity.
Defined.

(** Two timeouts and then HTTP 503. *)
Lemma invoke_tool_status_fails_fast_witness :
  ∃ ms wd',
    invoke_tool Sample.settings
      (Sample2.flaky_server (Ok Sample2.unavailable))
      "http://tool/" "search" (JObj []) None world0
    = (Ok (failure (JStr ("HTTP " +:+ pretty 503%Z +:+ ": "
                          +:+ String.substring 0 200 "busy")) ms), wd')
    ∧ posts wd' = 3%nat
    ∧ slept wd' = backoffs 1%Qc 2.
Proof.
  apply (invoke_tool_status_fails_fast Sample.settings
           (Sample2.flaky_server (Ok Sample2.unavailable))
           "http://tool/" "search" (JObj []) None 2 503 "busy" world0).
  - vm_compute. reflexivity.
  - apply RetryExamples.no_credential_ok.
  - intros i Hi. by apply flaky_server_times_out.
  - intros req. eexists. split; [reflexivity|].
    split; [reflexivity|]. split; reflexivity.
Defined.

(** Two timeouts and then a refused connection. *)
Lemma invoke_tool_error_fails_fast_witness :
  ∃ ms wd',
    invoke_tool Sample.settings
      (Sample2.flaky_server (Raise (HTTPError "Connection refused")))
      "http://tool/" "search" (JObj []) None world0
    = (Ok (failure (JStr "Connection refused") ms), wd')
    ∧ posts wd' = 3%nat
    ∧ slept wd' = backoffs 1%Qc 2.
Proof.
  apply (invoke_tool_error_fails_fast Sample.settings
           (Sample2.flaky_server (Raise (HTTPError "Connection refused")))
           "http://tool/" "search" (JObj []) None 2 "Connection refused"
           world0).
  - vm_compute. reflexivity.
  - apply RetryExamples.no_credential_ok.
  - intros i Hi. by apply flaky_server_times_out.
  - intros req. left. reflexivity.
Defined.

End AfterTimeoutsExamples.

Module CatalogueFacts.
Import MCPClient Outcome Outcome2.

Lemma collect_tools_objects app_id_ app_name_ items tools (wd : World) :
  forallb is_object items = true →
  collect_tools app_id_ app_name_ items tools wd
  = (Ok (tools ++ (tool_of app_id_ app_name_ <$> items)), wd).
Proof.
  revert tools. induction items as [|item items IH]; intros tools Hobj.
  - cbn [collect_tools fmap list_fmap]. by rewrite app_nil_r.
  - cbn [forallb] in Hobj. apply andb_prop in Hobj as [Hitem Hobj].
    destruct item; try discriminate Hitem.
    cbn [collect_tools]. unfold lift, mbind, M_bind, bind.
    cbn [Json.get]. rewrite IH by done.
    cbn [fmap list_fmap tool_of]. by rewrite <- app_assoc.
Qed.

Lemma collect_tools_rejects app_id_ app_name_ items tools (wd : World) :
  forallb is_object items = false →
  ∃ e, collect_tools app_id_ app_name_ items tools wd = (Raise e, wd).
Proof.
  revert tools. induction items as [|item items IH]; intros tools Hobj.
  - discriminate Hobj.
  - cbn [forallb] in Hobj. cbn [collect_tools].
    unfold lift, mbind, M_bind, bind.
    destruct item; cbn [Json.get]; try (eexists; reflexivity).
    cbn [is_object andb] in Hobj. by apply IH.
Qed.

Lemma collect_tools_world app_id_ app_name_ items tools (wd : World) :
  (collect_tools app_id_ app_name_ items tools wd).2 = wd.
Proof.
  destruct (forallb is_object items) eqn:Hobj.
  - by rewrite collect_tools_objects.
  - by destruct (collect_tools_rejects app_id_ app_name_ items tools wd Hobj)
      as [e ->].
Qed.

(** Discovery is all or nothing.  When the server answers with a list
    under "tools", [discover_tools] returns one descriptor for each
    entry, in the order of the list and with absent fields defaulted,
    provided every entry is an object; a single entry that is not an
    object discards the whole catalogue.  Either way exactly one POST
    is sent. *)
Theorem discover_tools_all_or_nothing env mcp_endpoint api_key_encrypted
    app_id_ app_name_ items (wd : World) :
  credential_ok env api_key_encrypted →
  answers_catalogue env (posts wd) items →
  ∃ wd',
    discover_tools env mcp_endpoint api_key_encrypted app_id_ app_name_ wd
    = (Ok (if forallb is_object items
           then tool_of app_id_ app_name_ <$> items else []), wd')
    ∧ posts wd' = S (posts wd).
Proof.
  intros Hcred Hans.
  unfold discover_tools, try_except, discover_try, post, lift,
    mbind, M_bind, bind, mret, M_ret, ret.
  destruct (truthy api_key_encrypted) as [enc|] eqn:Htruthy;
    [ destruct (Hcred enc Htruthy) as [api_key ->] | ];
    match goal with |- context [http_post env (posts wd) ?req] =>
      destruct (Hans req) as (resp & fields & -> & Hok & Hjson & Htools)
    end;
    unfold raise_for_status; rewrite Hok, Hjson;
    cbn [Json.get]; rewrite Htools; cbn [default from_option id Json.iter];
    (destruct (forallb is_object items) eqn:Hobj;
     [ rewrite collect_tools_objects by done; eexists; split; reflexivity
     | match goal with |- context [collect_tools ?a ?n items ?acc ?w] =>
         destruct (collect_tools_rejects a n items acc w Hobj) as [e ->]
       end;
       destruct (is_HTTPError e); eexists; split; reflexivity ]).
Qed.

(** The sample catalogue: two descriptors, the first with the defaults
    for its absent description and schema. *)
Lemma discover_tools_all_or_nothing_witness :
  ∃ wd',
    discover_tools Sample2.catalogue_server "http://tool/" None "app" "App"
      world0
    = (Ok [ {| name := JStr "search"; description := JStr EmptyString;
               parameters := JObj []; app_id := "app"; app_name := "App" |};
            {| name := JStr "fetch"; description := JStr "Fetch a page";
               parameters := JObj [ ("type", JStr "object") ];
               app_id := "app"; app_name := "App" |} ], wd')
    ∧ posts wd' = 1%nat.
Proof.
  apply (discover_tools_all_or_nothing Sample2.catalogue_server "http://tool/"
           None "app" "App" Sample2.catalogue world0).
  - apply RetryExamples.no_credential_ok.
  - intros req. eexists _, _. split; [reflexivity|].
    split; [reflexivity|]. split; reflexivity.
Defined.

(** Discovery is a single exchange in every environment: at most one
    POST, no retry, no sleep, and the store is left alone. *)
Theorem discover_tools_single_exchange env mcp_endpoint api_key_encrypted
    app_id_ app_name_ (wd : World) :
  let after :=
    (discover_tools env mcp_endpoint api_key_encrypted app_id_ app_name_ wd).2
  in
  (posts wd ≤ posts after ≤ S (posts wd))%nat
  ∧ slept after = slept wd
  ∧ redis after = redis wd.
Proof.
  cbv zeta.
  unfold discover_tools, try_except, discover_try, post, lift,
    mbind, M_bind, bind, mret, M_ret, ret, raise_for_status.
  repeat match goal with
    | |- context [match ?x with _ => _ end] =>
        lazymatch x with
        | collect_tools ?a ?n ?items ?acc ?w =>
            let H := fresh in
            pose proof (collect_tools_world a n items acc w) as H;
            destruct (collect_tools a n items acc w) as [[?|?] ?];
            cbn [snd] in H; subst
        | _ =>
            lazymatch type of x with
            | (_ * _)%type => fail
            | _ => destruct x
            end
        end
    | |- context [if ?x then _ else _] => destruct x
    | _ => progress cbv beta iota
    end;
    cbn [snd posts slept redis count_post tick];
    (split; [lia|]); split; reflexivity.
Qed.

End CatalogueFacts.
